(** * QuTIpy [channels.py]: quantum-channel representations, application and algebra

    A shallow embedding of [src/qutipy/channels.py].

    - numpy arrays are records of a shape and a row-major buffer;
    - complex floating-point entries are idealised as the elements of a
      commutative semiring with a conjugation (exact arithmetic).  The code
      rounds after every operation, so a statement carries over to it when
      both of its sides come from the same operations in the same order, or
      differ by products with zero and one and sums with zero only; the
      lemmas marked as holding in exact arithmetic do not carry over;
    - Python exceptions are the [Raise] results of a small error monad;
    - random sampling threads an explicit generator state;
    - scipy, cvxpy and the helper modules of the package that the file imports
      are parameters or small models named as such. *)

From Stdlib Require Import String ZArith QArith Qcanon Bool Arith PeanoNat.
From Stdlib Require Import Lia Lqa Ring Field List.
Import ListNotations.
Local Open Scope nat_scope.

(** ** Scalars *)

Class Scalar : Type := {
  C : Type;
  C0 : C;
  C1 : C;
  Cadd : C -> C -> C;
  Cmul : C -> C -> C;
  Cconj : C -> C;
  Csqrt : C -> C;
  C_sring : semi_ring_theory C0 C1 Cadd Cmul eq;
  Cconj_add : forall x y, Cconj (Cadd x y) = Cadd (Cconj x) (Cconj y);
  Cconj_mul : forall x y, Cconj (Cmul x y) = Cmul (Cconj x) (Cconj y);
  Cconj_0 : Cconj C0 = C0;
  Cconj_1 : Cconj C1 = C1
}.

(** The Gaussian integers: scalars that compute, for running the code of
    this file on concrete matrices. *)
Definition gauss_add (x y : Z * Z) : Z * Z :=
  ((fst x + fst y)%Z, (snd x + snd y)%Z).

Definition gauss_mul (x y : Z * Z) : Z * Z :=
  ((fst x * fst y - snd x * snd y)%Z, (fst x * snd y + snd x * fst y)%Z).

Definition gauss_conj (x : Z * Z) : Z * Z := (fst x, (- snd x)%Z).

(** The square root of a non-negative perfect square. *)
Definition gauss_sqrt (x : Z * Z) : Z * Z := (Z.sqrt (fst x), 0%Z).

Definition GaussInt : Scalar.
Proof.
  refine {| C := (Z * Z)%type; C0 := (0%Z, 0%Z); C1 := (1%Z, 0%Z);
            Cadd := gauss_add; Cmul := gauss_mul;
            Cconj := gauss_conj; Csqrt := gauss_sqrt |}.
  - constructor; intros; repeat match goal with x : (Z * Z)%type |- _ => destruct x end;
      unfold gauss_add, gauss_mul; cbn [fst snd]; f_equal; ring.
  - intros [a b] [c d]; unfold gauss_conj, gauss_add; cbn [fst snd]; f_equal; ring.
  - intros [a b] [c d]; unfold gauss_conj, gauss_mul; cbn [fst snd]; f_equal; ring.
  - reflexivity.
  - reflexivity.
Defined.

(** ** Exceptions *)

Inductive pyerror : Type :=
| IndexError
| ValueError
| TypeError
| LinAlgError
| SolverError.

Inductive result (A : Type) : Type :=
| Ok (a : A)
| Raise (e : pyerror).

Arguments Ok {A} a.
Arguments Raise {A} e.

Definition bind {A B : Type} (r : result A) (f : A -> result B) : result B :=
  match r with
  | Ok a => f a
  | Raise e => Raise e
  end.

Notation "x <- c ;; k" := (bind c (fun x => k))
  (at level 61, c at next level, right associativity).

(** A list comprehension whose body may raise: left to right, the first
    exception wins. *)
Fixpoint mapM {A B : Type} (f : A -> result B) (l : list A) : result (list B) :=
  match l with
  | [] => Ok []
  | x :: xs => y <- f x ;; ys <- mapM f xs ;; Ok (y :: ys)
  end.

(** A [for] loop that updates one local variable. *)
Fixpoint foldM {A B : Type} (f : B -> A -> result B) (l : list A) (acc : B)
  : result B :=
  match l with
  | [] => Ok acc
  | x :: xs => acc' <- f acc x ;; foldM f xs acc'
  end.

(** [l[i]] for a non-negative [i]. *)
Definition py_index {A : Type} (l : list A) (i : nat) : result A :=
  match nth_error l i with
  | Some x => Ok x
  | None => Raise IndexError
  end.

Definition range (n : nat) : list nat := seq 0 n.

(** [itertools.product] of the lists [ls]: tuples in lexicographic order, the last
    position varying fastest. *)
Fixpoint product {A : Type} (ls : list (list A)) : list (list A) :=
  match ls with
  | [] => [[]]
  | l :: rest => flat_map (fun x => map (cons x) (product rest)) l
  end.

(** [x in l] for integers. *)
Definition py_in (x : nat) (l : list nat) : bool := existsb (Nat.eqb x) l.

Definition shape_eqb (s t : list nat) : bool :=
  if list_eq_dec Nat.eq_dec s t then true else false.

Fixpoint index_of (x : nat) (l : list nat) : nat :=
  match l with
  | [] => 0
  | y :: l' => if x =? y then 0 else S (index_of x l')
  end.

Definition size_of (s : list nat) : nat := fold_right Nat.mul 1 s.

(** Row-major multi-index of a flat position, and back. *)
Fixpoint unravel (s : list nat) (p : nat) : list nat :=
  match s with
  | [] => []
  | _ :: s' => (p / size_of s') :: unravel s' (p mod size_of s')
  end.

Fixpoint ravel (s idx : list nat) : nat :=
  match s, idx with
  | _ :: s', i :: idx' => i * size_of s' + ravel s' idx'
  | _, _ => 0
  end.

Definition is_axes (axes : list nat) (n : nat) : bool :=
  (length axes =? n) && forallb (fun k => py_in k axes) (seq 0 n).

Section Arrays.

Context {scalars : Scalar}.

Definition csum (l : list C) : C := fold_right Cadd C0 l.

Definition sum_over {A : Type} (l : list A) (f : A -> C) : C := csum (map f l).

Definition bigsum (n : nat) (f : nat -> C) : C := sum_over (seq 0 n) f.

(** ** numpy arrays *)

Record ndarray : Type := mk_array { shape : list nat; data : list C }.

(** A Python number where an array is expected. *)
Definition scalar (z : C) : ndarray := mk_array [] [z].

(** The [r] x [c] matrix with entries [f i j]. *)
Definition mat (r c : nat) (f : nat -> nat -> C) : ndarray :=
  mk_array [r; c] (map (fun p => f (p / c) (p mod c)) (seq 0 (r * c))).

(** The shape as numpy pads it to two dimensions. *)
Definition as2d (s : list nat) : nat * nat :=
  match s with
  | [] => (1, 1)
  | [n] => (1, n)
  | r :: c :: _ => (r, c)
  end.

Definition nrows (a : ndarray) : nat := fst (as2d (shape a)).
Definition ncols (a : ndarray) : nat := snd (as2d (shape a)).

(** [a[i, j]] *)
Definition get (a : ndarray) (i j : nat) : C := nth (i * ncols a + j) (data a) C0.

(** A well-formed two-dimensional array of [r] rows and [c] columns. *)
Definition is_matrix (r c : nat) (a : ndarray) : Prop :=
  shape a = [r; c] /\ length (data a) = r * c.

(** The matrix product of two-dimensional operands. *)
Definition mm (a b : ndarray) : ndarray :=
  mat (nrows a) (ncols b)
      (fun i j => bigsum (ncols a) (fun k => Cmul (get a i k) (get b k j))).

(** [a @ b] for operands of one or two dimensions.  A one-dimensional left
    operand is read as a row and a one-dimensional right operand as a
    column, and the dimension so added is dropped from the result; a scalar
    operand and mismatched inner dimensions raise [ValueError].  Stacks of
    matrices (more than two dimensions) do not occur in the channel code
    and are not modelled. *)
Definition matmul (a b : ndarray) : result ndarray :=
  match shape a, shape b with
  | [_; n], [n'; _] => if n =? n' then Ok (mm a b) else Raise ValueError
  | [m; n], [n'] =>
      if n =? n' then
        Ok (mk_array [m]
              (map (fun i => bigsum n (fun k =>
                                Cmul (get a i k) (nth k (data b) C0)))
                   (seq 0 m)))
      else Raise ValueError
  | [n], [n'; p] =>
      if n =? n' then
        Ok (mk_array [p]
              (map (fun j => bigsum n (fun k =>
                                Cmul (nth k (data a) C0) (get b k j)))
                   (seq 0 p)))
      else Raise ValueError
  | [n], [n'] =>
      if n =? n' then
        Ok (scalar (bigsum n (fun k =>
                      Cmul (nth k (data a) C0) (nth k (data b) C0))))
      else Raise ValueError
  | _, _ => Raise ValueError
  end.

(** [z * a] for a number [z]. *)
Definition scale (z : C) (a : ndarray) : ndarray :=
  mk_array (shape a) (map (Cmul z) (data a)).

(** [np.conjugate(a)] *)
Definition np_conjugate (a : ndarray) : ndarray :=
  mk_array (shape a) (map Cconj (data a)).

Definition transpose_axes (axes : list nat) (a : ndarray) : ndarray :=
  let oshape := map (fun ax => nth ax (shape a) 0) axes in
  mk_array oshape
    (map (fun p =>
            let oi := unravel oshape p in
            let ii := map (fun ax => nth (index_of ax axes) oi 0)
                          (seq 0 (length (shape a))) in
            nth (ravel (shape a) ii) (data a) C0)
         (seq 0 (size_of oshape))).

(** [a.transpose(axes)] *)
Definition np_transpose (a : ndarray) (axes : list nat) : result ndarray :=
  if is_axes axes (length (shape a)) then Ok (transpose_axes axes a)
  else Raise ValueError.

(** [a.T] and [a.transpose()]: the axes reversed. *)
Definition np_T (a : ndarray) : ndarray :=
  transpose_axes (rev (seq 0 (length (shape a)))) a.

(** [np.reshape(a, s)] *)
Definition np_reshape (a : ndarray) (s : list nat) : result ndarray :=
  if size_of s =? length (data a) then Ok (mk_array s (data a))
  else Raise ValueError.

Definition add_arrays (a b : ndarray) : ndarray :=
  mk_array (shape a) (map (fun xy => Cadd (fst xy) (snd xy)) (combine (data a) (data b))).

(** [np.sum(l, 0)] for a list of arrays: the arrays are stacked, which
    needs one common shape, and added entry by entry; the empty list gives
    the number [0.0]. *)
Definition np_sum0 (l : list ndarray) : result ndarray :=
  match l with
  | [] => Ok (scalar C0)
  | a :: rest =>
      if forallb (fun b => shape_eqb (shape b) (shape a)) rest
      then Ok (fold_left add_arrays rest a)
      else Raise ValueError
  end.

(** [U[:, i]]: a column of a two-dimensional array, as a one-dimensional
    array. *)
Definition column (U : ndarray) (i : nat) : result ndarray :=
  match shape U with
  | [r; c] =>
      if i <? c then Ok (mk_array [r] (map (fun p => get U p i) (seq 0 r)))
      else Raise IndexError
  | _ => Raise IndexError
  end.

(** ** Helpers imported from [qutipy.general_functions] and [qutipy.states] *)

(** Modelled from the spec: [tensor] of [qutipy.general_functions], the
    matrix tensor (Kronecker) product, here of two operands of at most two
    dimensions; the number [1] is its neutral starting value. *)
Definition tensor (a b : ndarray) : ndarray :=
  let '(r1, c1) := as2d (shape a) in
  let '(r2, c2) := as2d (shape b) in
  let oshape :=
    match Nat.max (length (shape a)) (length (shape b)) with
    | 0 => []
    | 1 => [c1 * c2]
    | _ => [r1 * r2; c1 * c2]
    end in
  mk_array oshape
    (map (fun p =>
            let i := p / (c1 * c2) in
            let j := p mod (c1 * c2) in
            Cmul (nth ((i / r2) * c1 + j / c2) (data a) C0)
                 (nth ((i mod r2) * c2 + j mod c2) (data b) C0))
         (seq 0 ((r1 * r2) * (c1 * c2)))).

(** Modelled from the spec: [dag] of [qutipy.general_functions], the
    conjugate-transpose. *)
Definition dag (a : ndarray) : ndarray := np_T (np_conjugate a).

(** Modelled from the spec: [eye] of [qutipy.general_functions], the
    identity matrix of dimension [d]. *)
Definition eye (d : nat) : ndarray :=
  mat d d (fun i j => if i =? j then C1 else C0).

(** Modelled from the spec: [ket] of [qutipy.general_functions], the
    computational basis vector [|i>] of dimension [dim], as a column. *)
Definition ket (dim i : nat) : ndarray :=
  mat dim 1 (fun r _ => if r =? i then C1 else C0).

(** Modelled from the spec: [Tr] of [qutipy.general_functions], the trace of
    a two-dimensional array. *)
Definition Tr (a : ndarray) : result C :=
  match shape a with
  | [r; c] => Ok (bigsum (Nat.min r c) (fun i => get a i i))
  | _ => Raise ValueError
  end.

(** The entry at the flat position [p] of [sum_i |i>|i>]: one where the two
    indices that [p] encodes agree. *)
Definition ent (dim p : nat) : C := if p / dim =? p mod dim then C1 else C0.

(** Modelled from the spec: [max_ent(dim, normalized=False, as_matrix=False)]
    of [qutipy.states], the unnormalized maximally entangled vector
    [sum_i |i>|i>] of dimension [dim * dim]. *)
Definition max_ent_vector (dim : nat) : ndarray :=
  mat (dim * dim) 1 (fun p _ => ent dim p).

(** Modelled from the spec: [max_ent(dim, normalized=False)] of
    [qutipy.states], the outer product of that vector with itself. *)
Definition max_ent (dim : nat) : ndarray :=
  mm (max_ent_vector dim) (dag (max_ent_vector dim)).

(** ** General functions of [channels.py] *)

(** One pass of the inner loop of [apply_channel]: [st] is the pair of the
    locals [l] and [X]. *)
Definition apply_channel_step (K : list ndarray) (sys dim index : list nat)
    (st : nat * ndarray) (i : nat) : result (nat * ndarray) :=
  let (l, X) := st in
  if py_in (i + 1) sys then
    il <- py_index index l ;;
    k <- py_index K il ;;
    Ok (l + 1, tensor X k)
  else
    d <- py_index dim i ;;
    Ok (l, tensor X (eye d)).

Definition kraus_term (rho k : ndarray) : result ndarray :=
  kr <- matmul k rho ;; matmul kr (dag k).

(** The entry [(i, j)] of [a @ rho @ dag(a)] for [a] of [n] columns, written
    as the sums the two matrix products compute. *)
Definition sandwich (n : nat) (a rho : ndarray) (i j : nat) : C :=
  bigsum n (fun q =>
    Cmul (bigsum n (fun p => Cmul (get a i p) (get rho p q))) (Cconj (get a j q))).

(** [apply_channel(K, rho, sys, dim, adjoint)] for a numeric [rho] (the
    branch for a cvxpy variable converts to a numeric array and calls the
    function again). *)
Definition apply_channel (K : list ndarray) (rho : ndarray)
    (sys dim : option (list nat)) (adjoint : bool) : result ndarray :=
  let K := if adjoint then map dag K else K in
  match sys with
  | None =>
      terms <- mapM (kraus_term rho) K ;;
      np_sum0 terms
  | Some sys =>
      match dim with
      | None => Raise TypeError
      | Some dim =>
          let n := length dim in
          let k := length sys in
          let indices := product (repeat (range (length K)) k) in
          A <- mapM (fun index =>
                       st <- foldM (apply_channel_step K sys dim index)
                                   (range n) (0, scalar C1) ;;
                       Ok (snd st))
                    indices ;;
          terms <- mapM (kraus_term rho) A ;;
          np_sum0 terms
      end
  end.

Definition compose_channels (C : list (list ndarray)) : result (list ndarray) :=
  c0 <- py_index C 0 ;;
  k00 <- py_index c0 0 ;;
  d <- py_index (shape k00) 0 ;;
  let lengths := map (@length ndarray) C in
  let combs := product (map range lengths) in
  mapM (fun comb =>
          foldM (fun tmp i =>
                   c <- py_index C i ;;
                   ci <- py_index comb i ;;
                   k <- py_index c ci ;;
                   matmul k tmp)
                (range (length comb)) (eye d))
       combs.

Definition tensor_channels (C : list (list ndarray)) : result (list ndarray) :=
  let lengths := map (@length ndarray) C in
  let combs := product (map range lengths) in
  mapM (fun comb =>
          foldM (fun tmp i =>
                   c <- py_index C i ;;
                   ci <- py_index comb i ;;
                   k <- py_index c ci ;;
                   Ok (tensor tmp k))
                (range (length comb)) (scalar C1))
       combs.

Definition n_channel_uses (K : list ndarray) (n : nat) : result (list ndarray) :=
  let r := length K in
  let combs := product (repeat (range r) n) in
  mapM (fun comb =>
          foldM (fun tmp i =>
                   ci <- py_index comb i ;;
                   k <- py_index K ci ;;
                   Ok (tensor tmp k))
                (range n) (scalar C1))
       combs.

(** ** Channel representations *)

Definition choi_representation (K : list ndarray) (dA : nat) : result ndarray :=
  let Gamma := max_ent dA in
  apply_channel K Gamma (Some [2]) (Some [dA; dA]) false.

Definition natural_representation (K : list ndarray) : result ndarray :=
  np_sum0 (map (fun k => tensor k (np_conjugate k)) K).

Definition choi_to_natural (C_AB : ndarray) (dA dB : nat) : result ndarray :=
  r4 <- np_reshape C_AB [dA; dB; dA; dB] ;;
  t <- np_transpose r4 [0; 2; 1; 3] ;;
  r2 <- np_reshape t [dA * dA; dB * dB] ;;
  Ok (np_T r2).

(** ** Products of chosen operators *)

(** The operators [K_1[i_1], ..., K_n[i_n]] that an index tuple picks from a
    list of Kraus lists. *)
Definition choose (Cs : list (list ndarray)) (comb : list nat) : list ndarray :=
  map (fun Ki => nth (snd Ki) (fst Ki) (scalar C0)) (combine Cs comb).

(** [A_n @ ... @ A_1] for the operators [A_1, ..., A_n] in the order in which
    they are applied. *)
Definition composite (ops : list ndarray) : ndarray :=
  match ops with
  | [] => scalar C1
  | a :: rest => fold_left (fun acc b => mm b acc) rest a
  end.

(** The same product as Python evaluates the expression [A_n @ ... @ A_1],
    from the left. *)
Definition left_product (ops : list ndarray) : ndarray :=
  match rev ops with
  | [] => scalar C1
  | a :: rest => fold_left mm rest a
  end.

End Arrays.

(** ** Code that calls scipy, cvxpy and the sampling helpers *)

(** What [prob.value] holds after a solve: a float, possibly infinite. *)
Inductive pyfloat : Type :=
| Finite (q : Q)
| PosInf
| NegInf
| NaN.

(** The status strings cvxpy reports after [prob.solve] returns. *)
Inductive cvx_status : Type :=
| st_optimal
| st_optimal_inaccurate
| st_infeasible
| st_infeasible_inaccurate
| st_unbounded
| st_unbounded_inaccurate.

Record solve_report : Type := mk_report { status : cvx_status; value : pyfloat }.

Inductive var_attr : Type :=
| attr_complex
| attr_PSD.

Section Backends.

Context {scalars : Scalar}.

(** The semidefinite program as cvxpy receives it. *)
Inductive cvx_expr : Type :=
| EVariable (name : string) (rows cols : nat) (attr : var_attr)
| EConstant (a : ndarray)
| EKron (a b : cvx_expr)
| EBmat (b11 b12 b21 b22 : cvx_expr)
| EHerm (a : cvx_expr)
| ETrace (a : cvx_expr)
| EReal (a : cvx_expr)
| EMatmul (a b : cvx_expr)
| EAdd (a b : cvx_expr)
| EScale (q : Q) (a : cvx_expr).

Inductive cvx_constraint : Type :=
| CPsd (a : cvx_expr)
| CEq (a : cvx_expr) (n : nat).

Record cvx_problem : Type :=
  mk_problem { maximize : cvx_expr; constraints : list cvx_constraint }.

(** What the file calls outside itself: scipy.linalg and numpy.linalg
    ([eig], [sqrtm], [inv], [allclose]); [qutipy.linalg],
    [qutipy.general_functions] and [qutipy.states] ([gram_schmidt], [vec],
    [partial_trace], [syspermute]); the random generator, as its state [rng]
    and [random_density_matrix]; and [prob.solve(verbose, eps)] of cvxpy,
    which raises, or returns with a status and a value stored in the
    problem. *)
Class Backend : Type := {
  eig : ndarray -> result (ndarray * ndarray);
  sqrtm : ndarray -> result ndarray;
  inv : ndarray -> result ndarray;
  allclose : ndarray -> ndarray -> result bool;
  gram_schmidt : list ndarray -> nat -> result (list ndarray);
  vec : ndarray -> result ndarray;
  partial_trace : ndarray -> list nat -> list nat -> result ndarray;
  syspermute : ndarray -> list nat -> list nat -> result ndarray;
  rng : Type;
  random_density_matrix : nat -> rng -> result (ndarray * rng);
  cvx_solve : cvx_problem -> bool -> Q -> result solve_report
}.

Context {backend : Backend}.

Definition choi_to_kraus (P : ndarray) (dA dB : nat) : result (list ndarray) :=
  DU <- eig P ;;
  let (D, U) := DU in
  U_cols <- py_index (shape U) 1 ;;
  uud <- matmul U (dag U) ;;
  check1 <- allclose (eye (dA * dB)) uud ;;
  udu <- matmul (dag U) U ;;
  check2 <- allclose (eye (dA * dB)) udu ;;
  U <- (if check1 && check2 then Ok U
        else
          cols <- mapM (column U) (range U_cols) ;;
          C <- gram_schmidt cols (dA * dB) ;;
          terms <- mapM (fun i =>
                           ci <- py_index C i ;;
                           Ok (tensor (dag (ket U_cols i)) ci))
                        (range U_cols) ;;
          np_sum0 terms) ;;
  mapM (fun i =>
          Col <- column U i ;;
          Di <- py_index (data D) i ;;
          r <- np_reshape Col [dA; dB] ;;
          let K_tmp := scale (Csqrt Di) r in
          Ok (np_T K_tmp))
       (range U_cols).

Definition choi_to_stinespring (C_AB : ndarray) (dA dB : nat) : result ndarray :=
  s <- sqrtm C_AB ;;
  C_AB_purif <- vec s ;;
  let gamma := max_ent_vector dA in
  matmul (tensor (dag gamma) (eye (dB * (dA * dB))))
         (tensor (eye dA) C_AB_purif).

Definition diamond_problem (J : ndarray) (dA dB : nat) : cvx_problem :=
  let X := EVariable "X" (dA * dB) (dA * dB) attr_complex in
  let rho0 := EVariable "rho0" dA dA attr_PSD in
  let rho1 := EVariable "rho1" dA dA attr_PSD in
  let M := EBmat (EKron (EConstant (eye dB)) rho0) X
                 (EHerm X) (EKron (EConstant (eye dB)) rho1) in
  let c := [CPsd M; CEq (ETrace rho0) 1; CEq (ETrace rho1) 1] in
  let obj :=
    EAdd (EScale (1 # 2) (EReal (ETrace (EMatmul (EConstant (dag J)) X))))
         (EScale (1 # 2) (EReal (ETrace (EMatmul (EConstant J) (EHerm X))))) in
  mk_problem obj c.

Definition diamond_norm (J : ndarray) (dA dB : nat) (display : bool)
  : result pyfloat :=
  J <- syspermute J [2; 1] [dA; dB] ;;
  let prob := diamond_problem J dA dB in
  report <- cvx_solve prob display (1 # 10000000) ;;
  Ok (value report).

(** ** Random channels *)

(** What [random_CP_map] hands back: an array, a list of Kraus operators,
    or a Python string. *)
Inductive cp_map_value : Type :=
| AsArray (a : ndarray)
| AsKraus (K : list ndarray)
| AsString (s : string).

Definition TP_unital_message : string :=
  "Input and output dimensions must match for a TP and unital CP map!".

(** The normalisation of the sampled Choi matrix; [inr] is the [return] in
    the middle of the function. *)
Definition normalise_choi (C_AB : ndarray) (dA dB : nat) (TP unital : bool)
  : result (ndarray + string) :=
  if negb TP && negb unital then Ok (inl C_AB)
  else if TP && negb unital then
    C_A <- partial_trace C_AB [2] [dA; dB] ;;
    s <- sqrtm C_A ;;
    si <- inv s ;;
    let C_A_inv_sq := tensor si (eye dB) in
    l <- matmul C_A_inv_sq C_AB ;;
    r <- matmul l C_A_inv_sq ;;
    Ok (inl r)
  else if negb TP && unital then
    C_B <- partial_trace C_AB [1] [dA; dB] ;;
    s <- sqrtm C_B ;;
    si <- inv s ;;
    let C_B_inv_sq := tensor (eye dA) si in
    l <- matmul C_B_inv_sq C_AB ;;
    r <- matmul l C_B_inv_sq ;;
    Ok (inl r)
  else if TP && unital then
    if negb (dA =? dB) then Ok (inr TP_unital_message)
    else Ok (inl C_AB)
  else Ok (inl C_AB).

(** The message printed for an unknown [return_as] goes to the standard
    output and is not part of the value. *)
Definition random_CP_map (dA dB : nat) (TP unital : bool) (return_as : string)
    (g : rng) : result (cp_map_value * rng) :=
  sample <- random_density_matrix (dA * dB) g ;;
  let (C_AB, g) := sample in
  norm <- normalise_choi C_AB dA dB TP unital ;;
  match norm with
  | inr msg => Ok (AsString msg, g)
  | inl C_AB =>
      if String.eqb return_as "choi" then Ok (AsArray C_AB, g)
      else if String.eqb return_as "kraus" then
        K <- choi_to_kraus C_AB dA dB ;; Ok (AsKraus K, g)
      else if String.eqb return_as "natural" then
        N <- choi_to_natural C_AB dA dB ;; Ok (AsArray N, g)
      else if String.eqb return_as "stinespring" then
        V <- choi_to_stinespring C_AB dA dB ;; Ok (AsArray V, g)
      else Ok (AsArray C_AB, g)
  end.

Definition random_quantum_channel (dA dB : nat) (unital : bool)
    (return_as : string) (g : rng) : result (cp_map_value * rng) :=
  random_CP_map dA dB true unital return_as g.

(** [[random_density_matrix(d) for i in range(n)]] *)
Fixpoint sample_states (n d : nat) (g : rng) : result (list ndarray * rng) :=
  match n with
  | 0 => Ok ([], g)
  | S n' =>
      s <- random_density_matrix d g ;;
      rest <- sample_states n' d (snd s) ;;
      Ok (fst s :: fst rest, snd rest)
  end.

Definition random_POVM (d num_elem : nat) (via_choi : bool) (g : rng)
  : result (list ndarray * rng) :=
  let M := [] in
  if via_choi then
    Cg <- random_quantum_channel d num_elem false "choi" g ;;
    match fst Cg with
    | AsArray C =>
        M <- foldM (fun M i =>
                      l <- matmul (tensor (eye d) (dag (ket num_elem i))) C ;;
                      Mi <- matmul l (tensor (eye d) (ket num_elem i)) ;;
                      Ok (M ++ [Mi]))
                   (range num_elem) M ;;
        Ok (M, snd Cg)
    | _ => Raise TypeError
    end
  else
    Sg <- sample_states num_elem d g ;;
    let Ss := fst Sg in
    R <- np_sum0 Ss ;;
    s <- sqrtm R ;;
    R_inv_sq <- inv s ;;
    M <- foldM (fun M i =>
                  Si <- py_index Ss i ;;
                  l <- matmul R_inv_sq Si ;;
                  Mi <- matmul l R_inv_sq ;;
                  Ok M)
               (range num_elem) M ;;
    Ok (M, snd Sg).

End Backends.

(** ** Scaling, and maps applied one after the other *)

Section MoreChannels.

Context {scalars : Scalar}.

Definition channel_scalar_multiply (K : list ndarray) (x : C) : list ndarray :=
  map (fun k => scale (Csqrt x) k) K.

(** [apply_channel(Kn, ... apply_channel(K1, rho))] for [Cs = [K1, ..., Kn]]. *)
Definition apply_in_sequence (Cs : list (list ndarray)) (rho : ndarray)
  : result ndarray :=
  foldM (fun r K => apply_channel K r None None false) Cs rho.

(** The operators that extend each operator of [L] by every choice from the
    Kraus lists [Cs]. *)
Definition extend_by (L : list ndarray) (Cs : list (list ndarray)) : list ndarray :=
  flat_map (fun a =>
              map (fun comb => fold_left (fun acc b => mm b acc) (choose Cs comb) a)
                  (product (map range (map (@length ndarray) Cs))))
           L.

End MoreChannels.


(** ** Numbers with subtraction, division, the imaginary unit and equality *)

Class Numbers {scalars : Scalar} : Type := {
  Csub : C -> C -> C;
  Cdiv : C -> C -> C;
  Ci : C;
  Ceqb : C -> C -> bool;
  Csub_add : forall x y, Cadd (Csub x y) y = x;
  Cdiv_mul : forall q y, y <> C0 -> Cdiv (Cmul q y) y = q;
  Ci_square : Cadd (Cmul Ci Ci) C1 = C0;
  Ci_conj : Cadd (Cconj Ci) Ci = C0;
  Ceqb_eq : forall x y, Ceqb x y = true <-> x = y
}.

(** ** Other channels *)

Section OtherChannels.

Context {scalars : Scalar}.
Context {numbers : Numbers}.

(** [np.array([[a, b], [c, d]])] *)
Definition matrix2 (a b c d : C) : ndarray := mk_array [2; 2] [a; b; c; d].

Definition phase_damping_channel (p : C) : list ndarray :=
  let K1 := matrix2 C1 C0 C0 (Csqrt p) in
  let K2 := matrix2 C0 C0 C0 (Csqrt (Csub C1 p)) in
  [K1; K2].

Definition amplitude_damping_channel (gamma : C) : list ndarray :=
  let A1 := matrix2 C1 C0 C0 (Csqrt (Csub C1 gamma)) in
  let A2 := matrix2 C0 (Csqrt gamma) C0 C0 in
  [A1; A2].

Definition generalized_amplitude_damping_channel (gamma N : C) : list ndarray :=
  if Ceqb N C0 then amplitude_damping_channel gamma
  else if Ceqb N C1 then
    let A1 := matrix2 (Csqrt (Csub C1 gamma)) C0 C0 C1 in
    let A2 := matrix2 C0 C0 (Csqrt gamma) C0 in
    [A1; A2]
  else
    let A1 := scale (Csqrt (Csub C1 N)) (matrix2 C1 C0 C0 (Csqrt (Csub C1 gamma))) in
    let A2 := scale (Csqrt (Csub C1 N)) (matrix2 C0 (Csqrt gamma) C0 C0) in
    let A3 := scale (Csqrt N) (matrix2 (Csqrt (Csub C1 gamma)) C0 C0 C1) in
    let A4 := scale (Csqrt N) (matrix2 C0 C0 (Csqrt gamma) C0) in
    [A1; A2; A3; A4].

End OtherChannels.


(** ** Isometric extensions and Pauli channels *)

Section PauliChannels.

Context {scalars : Scalar}.
Context {numbers : Numbers}.
Context {backend : Backend}.

(** [sum_i dag(K_i) @ K_i], the matrix that the trace-preservation condition
    compares with the identity. *)
Definition kraus_sum (K : list ndarray) : result ndarray :=
  terms <- mapM (fun k => matmul (dag k) k) K ;; np_sum0 terms.

(** What else these functions call outside the file: [random_state_vector]
    of [qutipy.states], [discrete_Weyl_Z] of [qutipy.weyl] and
    [matrix_power] of numpy.linalg. *)
Class IsometryBackend : Type := {
  random_state_vector : nat -> rng -> result (ndarray * rng);
  discrete_Weyl_Z : nat -> result ndarray;
  matrix_power : ndarray -> nat -> result ndarray
}.

Context {isometry_backend : IsometryBackend}.

(** The size two dimensions broadcast to. *)
Definition broadcast_dim (a b : nat) : option nat :=
  if a =? b then Some a
  else if a =? 1 then Some b
  else if b =? 1 then Some a
  else None.

(** [a + b] for arrays of at most two dimensions, with numpy's
    broadcasting of dimensions of size one. *)
Definition np_add (a b : ndarray) : result ndarray :=
  let (r1, c1) := as2d (shape a) in
  let (r2, c2) := as2d (shape b) in
  match broadcast_dim r1 r2, broadcast_dim c1 c2 with
  | Some r, Some c =>
      let oshape :=
        match Nat.max (length (shape a)) (length (shape b)) with
        | 0 => []
        | 1 => [c]
        | _ => [r; c]
        end in
      Ok (mk_array oshape
            (map (fun p =>
                    let i := p / c in
                    let j := p mod c in
                    Cadd (nth ((if r1 =? 1 then 0 else i) * c1 +
                               (if c1 =? 1 then 0 else j)) (data a) C0)
                         (nth ((if r2 =? 1 then 0 else i) * c2 +
                               (if c2 =? 1 then 0 else j)) (data b) C0))
                 (seq 0 (r * c))))
  | _, _ => Raise ValueError
  end.

(** What [generate_channel_isometry] returns: [V], or the pair of [V] and
    [U]. *)
Inductive isometry_value : Type :=
| IsoV (V : ndarray)
| IsoVU (V U : ndarray).

(** The loop that appends [n] random state vectors to [states]. *)
Fixpoint append_random_states (n dim : nat) (states : list ndarray) (g : rng)
  : result (list ndarray * rng) :=
  match n with
  | 0 => Ok (states, g)
  | S n' =>
      s <- random_state_vector dim g ;;
      append_random_states n' dim (states ++ [fst s]) (snd s)
  end.

(** Modelled from the spec: the basis [ket] with its index checked.  The
    vector is built by writing a one into [dim] zeros, which raises
    [IndexError] for an index that is not below [dim]; the other calls of
    [ket] in this file take their index from [range(dim)]. *)
Definition py_ket (dim i : nat) : result ndarray :=
  if i <? dim then Ok (ket dim i) else Raise IndexError.

Definition generate_channel_isometry (K : list ndarray) (dA dB : nat) (g : rng)
  : result (isometry_value * rng) :=
  let dimE := length K in
  terms <- mapM (fun i => Ki <- py_index K i ;; Ok (tensor Ki (ket dimE i)))
                (range dimE) ;;
  V <- np_sum0 terms ;;
  if dA =? dB then
    ket0 <- py_ket dimE 0 ;;
    let U := tensor V (dag ket0) in
    states <- mapM (fun i => matmul V (ket dA i)) (range dA) ;;
    sg <- append_random_states (dA * dimE - dA) (dA * dimE) states g ;;
    let (states, g) := sg in
    states_new <- gram_schmidt states (dA * dimE) ;;
    cU <- foldM (fun cU i =>
                   foldM (fun cU j =>
                            let (count, U) := (cU : nat * ndarray) in
                            s <- py_index states_new count ;;
                            U <- np_add U (tensor (tensor s (dag (ket dA i)))
                                                  (dag (ket dimE j))) ;;
                            Ok (count + 1, U))
                         (seq 1 (dimE - 1)) cU)
                (range dA) (dA, U) ;;
    Ok (IsoVU V (snd cU), g)
  else Ok (IsoV V, g).

Definition Pauli_channel (px py pz : C) (g : rng)
  : result ((list ndarray * ndarray * ndarray) * rng) :=
  let pI := Csub (Csub (Csub C1 px) py) pz in
  let Sx := matrix2 C0 C1 C1 C0 in
  let Sy := matrix2 C0 (Csub C0 Ci) Ci C0 in
  let Sz := matrix2 C1 C0 C0 (Csub C0 C1) in
  let K := [scale (Csqrt pI) (eye 2); scale (Csqrt px) Sx;
            scale (Csqrt py) Sy; scale (Csqrt pz) Sz] in
  r <- generate_channel_isometry K 2 2 g ;;
  match fst r with
  | IsoVU V U => Ok ((K, V, U), snd r)
  | IsoV _ => Raise TypeError
  end.

Definition depolarizing_channel (p : C) (g : rng)
  : result ((list ndarray * ndarray * ndarray) * rng) :=
  let three := Cadd (Cadd C1 C1) C1 in
  Pauli_channel (Cdiv p three) (Cdiv p three) (Cdiv p three) g.

Definition bit_flip_channel (p : C) (g : rng)
  : result ((list ndarray * ndarray * ndarray) * rng) :=
  Pauli_channel p C0 C0 g.

Definition BB84_channel (Q : C) (g : rng)
  : result ((list ndarray * ndarray * ndarray) * rng) :=
  Pauli_channel (Csub Q (Cmul Q Q)) (Cmul Q Q) (Csub Q (Cmul Q Q)) g.

(** What [dephasing_channel] returns: the triple of [Pauli_channel] for
    [d = 2], a list of Kraus operators otherwise. *)
Inductive dephasing_value : Type :=
| DephasingTriple (KVU : list ndarray * ndarray * ndarray)
| DephasingKraus (K : list ndarray).

(** [p] is a number for [d = 2] and a list of [d] numbers otherwise;
    subtracting a list from a number and indexing a number raise
    [TypeError]. *)
Definition dephasing_channel (p : C + list C) (d : nat) (g : rng)
  : result (dephasing_value * rng) :=
  if d =? 2 then
    match p with
    | inl p =>
        r <- Pauli_channel C0 C0 p g ;;
        Ok (DephasingTriple (fst r), snd r)
    | inr _ => Raise TypeError
    end
  else
    K <- mapM (fun k =>
                 pk <- match p with
                       | inl _ => Raise TypeError
                       | inr p => py_index p k
                       end ;;
                 Z <- discrete_Weyl_Z d ;;
                 Zk <- matrix_power Z k ;;
                 Ok (scale (Csqrt pk) Zk))
              (range d) ;;
    Ok (DephasingKraus K, g).

End PauliChannels.


(** ** Concrete inputs over the Gaussian integers *)

(** The Gaussian integer [re + im * i], as a scalar. *)
Definition gauss (re im : Z) : @C GaussInt := (re, im).

Definition gauss_matrix (r c : nat) (entries : list (Z * Z)) : @ndarray GaussInt :=
  @mk_array GaussInt [r; c] entries.

(** The Kraus operators [|0><0|] and [|0><1|] of the qubit reset channel. *)
Definition reset_K0 : @ndarray GaussInt :=
  gauss_matrix 2 2 [(1, 0); (0, 0); (0, 0); (0, 0)]%Z.

Definition reset_K1 : @ndarray GaussInt :=
  gauss_matrix 2 2 [(0, 0); (1, 0); (0, 0); (0, 0)]%Z.

Definition reset_channel : list (@ndarray GaussInt) := [reset_K0; reset_K1].

(** Two operators from a qubit to a qutrit. *)
Definition qutrit_K0 : @ndarray GaussInt :=
  gauss_matrix 3 2 [(1, 2); (0, 1); (3, 0); (0, -1); (2, 2); (5, 0)]%Z.

Definition qutrit_K1 : @ndarray GaussInt :=
  gauss_matrix 3 2 [(0, 2); (1, 1); (3, 1); (0, -1); (2, 0); (5, 7)]%Z.

Definition qutrit_map : list (@ndarray GaussInt) := [qutrit_K0; qutrit_K1].

(** A Hermitian 2 x 2 matrix and a 4 x 4 matrix. *)
Definition rho_qubit : @ndarray GaussInt :=
  gauss_matrix 2 2 [(1, 0); (0, 1); (0, -1); (2, 0)]%Z.

Definition rho_two_qubits : @ndarray GaussInt :=
  @mat GaussInt 4 4 (fun i j => (Z.of_nat (i + j), (Z.of_nat i - Z.of_nat j)%Z)).

(** The pure state [|0><0|] of dimension [n]. *)
Definition ket0_state (n : nat) : @ndarray GaussInt :=
  @mat GaussInt n n (fun i j => if (i =? 0) && (j =? 0) then (1, 0)%Z else (0, 0)%Z).

(** Equality of arrays of Gaussian integers, entry by entry. *)
Definition gauss_eqb (x y : Z * Z) : bool :=
  ((fst x =? fst y)%Z && (snd x =? snd y)%Z)%bool.

Definition gauss_array_eqb (a b : @ndarray GaussInt) : bool :=
  shape_eqb (shape a) (shape b) &&
  forallb (fun xy => gauss_eqb (fst xy) (snd xy)) (combine (data a) (data b)).

(** The eigenpairs of a diagonal matrix: its diagonal and the identity. *)
Definition diagonal_eig (P : @ndarray GaussInt)
  : result (@ndarray GaussInt * @ndarray GaussInt) :=
  Ok (@mk_array GaussInt [nrows P] (map (fun i => get P i i) (seq 0 (nrows P))),
      eye (nrows P)).

(** A backend to run the code with: [eig] is exact on diagonal matrices and
    [allclose] is exact equality; the sampler always draws [|0><0|];
    [sqrtm] and [inv] are the identity function, which is what they are on
    the identity matrix; [syspermute] is the identity function, which is
    what it is on subsystems of dimension one; there is no solver. *)
Definition test_backend : @Backend GaussInt :=
  {| eig := diagonal_eig;
     sqrtm := fun a => Ok a;
     inv := fun a => Ok a;
     allclose := fun a b => Ok (gauss_array_eqb a b);
     gram_schmidt := fun _ _ => Raise ValueError;
     vec := fun _ => Raise ValueError;
     partial_trace := fun _ _ _ => Raise ValueError;
     syspermute := fun J _ _ => Ok J;
     rng := nat;
     random_density_matrix := fun n g => Ok (ket0_state n, Datatypes.S g);
     cvx_solve := fun _ _ _ => Raise SolverError |}.

(** The Gaussian integers with subtraction, the imaginary unit and
    equality; the quotient is exact when the divisor divides. *)
Definition gauss_sub (x y : Z * Z) : Z * Z :=
  ((fst x - fst y)%Z, (snd x - snd y)%Z).

Definition gauss_div (x y : Z * Z) : Z * Z :=
  let n := (fst y * fst y + snd y * snd y)%Z in
  let z := gauss_mul x (gauss_conj y) in
  ((fst z / n)%Z, (snd z / n)%Z).

Definition gauss_numbers : @Numbers GaussInt.
Proof.
  refine {| Csub := gauss_sub : @C GaussInt -> @C GaussInt -> @C GaussInt;
            Cdiv := gauss_div : @C GaussInt -> @C GaussInt -> @C GaussInt;
            Ci := (0%Z, 1%Z) : @C GaussInt;
            Ceqb := gauss_eqb : @C GaussInt -> @C GaussInt -> bool |}.
  - abstract (intros [a b] [c d]; cbn; unfold gauss_add, gauss_sub;
              cbn [fst snd]; f_equal; ring).
  - abstract (intros [a b] [c d] H; cbn; unfold gauss_div, gauss_mul, gauss_conj;
              cbn [fst snd];
              assert (Hn : (c * c + d * d)%Z <> 0%Z)
                by (intros E; apply H; cbn;
                    assert (c = 0%Z) by nia; assert (d = 0%Z) by nia;
                    subst; reflexivity);
              f_equal;
              [ replace ((a * c - b * d) * c - (a * d + b * c) * - d)%Z
                  with (a * (c * c + d * d))%Z by ring
              | replace ((a * c - b * d) * - d + (a * d + b * c) * c)%Z
                  with (b * (c * c + d * d))%Z by ring ];
              apply Z.div_mul; exact Hn).
  - reflexivity.
  - reflexivity.
  - abstract (intros [a b] [c d]; unfold gauss_eqb; cbn [fst snd];
              rewrite andb_true_iff, !Z.eqb_eq; split;
              [ intros [-> ->]; reflexivity
              | intros E; injection E as -> ->; split; reflexivity ]).
Defined.

(** ** Concrete inputs over the Gaussian rationals *)

(** The Gaussian rationals, in lowest terms: scalars that compute and in
    which the squares of [3/5] and [4/5] add up to one. *)
Definition rat_add (x y : Qc * Qc) : Qc * Qc :=
  ((fst x + fst y)%Qc, (snd x + snd y)%Qc).

Definition rat_mul (x y : Qc * Qc) : Qc * Qc :=
  ((fst x * fst y - snd x * snd y)%Qc, (fst x * snd y + snd x * fst y)%Qc).

Definition rat_conj (x : Qc * Qc) : Qc * Qc := (fst x, (- snd x)%Qc).

(** The square root of a non-negative rational whose numerator and
    denominator are perfect squares. *)
Definition rat_sqrt (x : Qc * Qc) : Qc * Qc :=
  (Q2Qc (Z.sqrt (Qnum (this (fst x))) # Pos.sqrt (Qden (this (fst x)))),
   Q2Qc 0).

Definition GaussRat : Scalar.
Proof.
  refine {| C := (Qc * Qc)%type; C0 := (Q2Qc 0, Q2Qc 0); C1 := (Q2Qc 1, Q2Qc 0);
            Cadd := rat_add; Cmul := rat_mul;
            Cconj := rat_conj; Csqrt := rat_sqrt |}.
  - abstract (constructor; intros;
              repeat match goal with x : (Qc * Qc)%type |- _ => destruct x end;
              unfold rat_add, rat_mul; cbn [fst snd]; f_equal; ring).
  - abstract (intros [a b] [c d]; unfold rat_conj, rat_add; cbn [fst snd];
              f_equal; ring).
  - abstract (intros [a b] [c d]; unfold rat_conj, rat_mul; cbn [fst snd];
              f_equal; ring).
  - abstract (unfold rat_conj; cbn [fst snd]; f_equal; ring).
  - abstract (unfold rat_conj; cbn [fst snd]; f_equal; ring).
Defined.

Definition rat_sub (x y : Qc * Qc) : Qc * Qc :=
  ((fst x - fst y)%Qc, (snd x - snd y)%Qc).

Definition rat_div (x y : Qc * Qc) : Qc * Qc :=
  let n := (fst y * fst y + snd y * snd y)%Qc in
  let z := rat_mul x (rat_conj y) in
  ((fst z / n)%Qc, (snd z / n)%Qc).

Definition rat_eqb (x y : Qc * Qc) : bool :=
  Qc_eq_bool (fst x) (fst y) && Qc_eq_bool (snd x) (snd y).

Definition rat_numbers : @Numbers GaussRat.
Proof.
  refine {| Csub := rat_sub : @C GaussRat -> @C GaussRat -> @C GaussRat;
            Cdiv := rat_div : @C GaussRat -> @C GaussRat -> @C GaussRat;
            Ci := (Q2Qc 0, Q2Qc 1) : @C GaussRat;
            Ceqb := rat_eqb : @C GaussRat -> @C GaussRat -> bool |}.
  - abstract (intros [a b] [c d]; cbn; unfold rat_add, rat_sub; cbn [fst snd];
              f_equal; ring).
  - abstract (intros [a b] [c d] H; cbn; unfold rat_div, rat_mul, rat_conj;
              cbn [fst snd];
              assert (Hsq : forall x y : Q, (x * x + y * y == 0)%Q -> (x == 0)%Q)
                by (intros x y E;
                    assert (Hx : (0 <= x * x)%Q) by nra;
                    assert (Hy : (0 <= y * y)%Q) by nra;
                    assert (E0 : (x * x == 0)%Q) by lra;
                    apply Qmult_integral in E0; destruct E0; assumption);
              assert (Hqc : forall u v : Qc,
                         (u * u + v * v)%Qc = Q2Qc 0 -> u = Q2Qc 0)
                by (intros u v E; apply Qc_is_canon;
                    change (this (Q2Qc 0)) with 0%Q;
                    apply (Hsq (this u) (this v));
                    transitivity (this (u * u + v * v)%Qc);
                    [ unfold Qcplus, Qcmult, Q2Qc; cbn [this];
                      rewrite !Qred_correct; reflexivity
                    | rewrite E; reflexivity ]);
              assert (Hn : (c * c + d * d)%Qc <> Q2Qc 0)
                by (intros E; apply H; cbn;
                    rewrite (Hqc c d E);
                    rewrite (Hqc d c) by (rewrite <- E; ring);
                    reflexivity);
              f_equal; field; exact Hn).
  - abstract (cbn; unfold rat_add, rat_mul; cbn [fst snd]; f_equal; ring).
  - abstract (cbn; unfold rat_add, rat_conj; cbn [fst snd]; f_equal; ring).
  - abstract (intros [a b] [c d]; unfold rat_eqb; cbn [fst snd];
              rewrite andb_true_iff; split;
              [ intros [E1 E2]; apply Qc_eq_bool_correct in E1;
                apply Qc_eq_bool_correct in E2; subst; reflexivity
              | intros E; injection E as -> ->;
                unfold Qc_eq_bool;
                destruct (Qc_eq_dec c c) as [_|N]; [|contradiction];
                destruct (Qc_eq_dec d d) as [_|N]; [|contradiction];
                split; reflexivity ]).
Defined.

(** The rational [n / d], as a scalar. *)
Definition rat (n : Z) (d : positive) : @C GaussRat := (Q2Qc (n # d), Q2Qc 0).

Definition rat_matrix (r c : nat) (entries : list (@C GaussRat))
  : @ndarray GaussRat :=
  @mk_array GaussRat [r; c] entries.

(** Equality of arrays of Gaussian rationals, entry by entry. *)
Fixpoint rat_list_eqb (l l' : list (Qc * Qc)) : bool :=
  match l, l' with
  | [], [] => true
  | x :: r, y :: r' => rat_eqb x y && rat_list_eqb r r'
  | _, _ => false
  end.

Definition rat_array_eqb (a b : @ndarray GaussRat) : bool :=
  shape_eqb (shape a) (shape b) && rat_list_eqb (data a) (data b).

Fixpoint rat_arrays_eqb (l l' : list (@ndarray GaussRat)) : bool :=
  match l, l' with
  | [], [] => true
  | a :: r, b :: r' => rat_array_eqb a b && rat_arrays_eqb r r'
  | _, _ => false
  end.

(** ** Backend functions that are exact on diagonal matrices *)

Section DiagonalBackend.

Context {scalars : Scalar}.
Context {numbers : Numbers}.

Definition is_diagonal (a : ndarray) : bool :=
  forallb (fun i => forallb (fun j => (i =? j) || Ceqb (get a i j) C0)
                            (seq 0 (ncols a)))
          (seq 0 (nrows a)).

(** [sqrtm] of a diagonal matrix: the square roots of its diagonal. *)
Definition diagonal_sqrtm (a : ndarray) : result ndarray :=
  if is_diagonal a then
    Ok (mat (nrows a) (ncols a)
            (fun i j => if i =? j then Csqrt (get a i i) else C0))
  else Raise LinAlgError.

(** [inv] of a diagonal matrix: the inverses of its diagonal, and
    [LinAlgError] when one of them is zero. *)
Definition diagonal_inv (a : ndarray) : result ndarray :=
  if is_diagonal a &&
     forallb (fun i => negb (Ceqb (get a i i) C0)) (seq 0 (nrows a))
  then
    Ok (mat (nrows a) (ncols a)
            (fun i j => if i =? j then Cdiv C1 (get a i i) else C0))
  else Raise LinAlgError.

(** [partial_trace] over one of two subsystems. *)
Definition partial_trace_of_two (a : ndarray) (sys dims : list nat)
  : result ndarray :=
  match sys, dims with
  | [2], [dA; dB] =>
      Ok (mat dA dA (fun i j =>
            bigsum dB (fun b => get a (i * dB + b) (j * dB + b))))
  | [1], [dA; dB] =>
      Ok (mat dB dB (fun i j =>
            bigsum dA (fun x => get a (x * dB + i) (x * dB + j))))
  | _, _ => Raise ValueError
  end.

(** The next array of a tape, when it has the shape asked for. *)
Definition next_on_tape (s : list nat) (g : list ndarray)
  : result (ndarray * list ndarray) :=
  match g with
  | [] => Raise ValueError
  | a :: g' => if shape_eqb (shape a) s then Ok (a, g') else Raise ValueError
  end.

End DiagonalBackend.

(** A backend over the Gaussian rationals whose random source is a tape of
    arrays: each draw returns the next array of the tape.  [sqrtm] and
    [inv] are exact on diagonal matrices and raise on others;
    [partial_trace] handles two subsystems; [gram_schmidt] is the identity
    function, which is what it is on an orthonormal list.  The
    eigensolver, [allclose], [vec], [syspermute] and the solver are not
    available. *)
Definition rat_backend : @Backend GaussRat :=
  {| eig := fun _ => Raise LinAlgError;
     sqrtm := diagonal_sqrtm (numbers := rat_numbers);
     inv := diagonal_inv (numbers := rat_numbers);
     allclose := fun _ _ => Raise ValueError;
     gram_schmidt := fun l _ => Ok l;
     vec := fun _ => Raise ValueError;
     partial_trace := partial_trace_of_two;
     syspermute := fun _ _ _ => Raise ValueError;
     rng := list (@ndarray GaussRat);
     random_density_matrix := fun n g => next_on_tape [n; n] g;
     cvx_solve := fun _ _ _ => Raise SolverError |}.

Definition rat_isometry_backend : @IsometryBackend GaussRat rat_backend :=
  {| random_state_vector := fun n (g : @rng GaussRat rat_backend) =>
       next_on_tape [n; 1] g;
     discrete_Weyl_Z := fun _ => Raise ValueError;
     matrix_power := fun _ _ => Raise ValueError |}.

(** A density matrix of two qubits whose first marginal is
    [diag(9/25, 16/25)]. *)
Definition two_qubit_state : @ndarray GaussRat :=
  rat_matrix 4 4
    [rat 9 50; rat 3 50; rat 1 50; rat 0 1;
     rat 3 50; rat 9 50; rat 0 1; rat (-1) 50;
     rat 1 50; rat 0 1; rat 16 50; rat 4 50;
     rat 0 1; rat (-1) 50; rat 4 50; rat 16 50].

(** The Choi matrix that [random_quantum_channel] makes of it. *)
Definition two_qubit_choi : @ndarray GaussRat :=
  rat_matrix 4 4
    [rat 1 2; rat 1 6; rat 1 24; rat 0 1;
     rat 1 6; rat 1 2; rat 0 1; rat (-1) 24;
     rat 1 24; rat 0 1; rat 1 2; rat 1 8;
     rat 0 1; rat (-1) 24; rat 1 8; rat 1 2].

(** The array of [n] rows whose columns are given by their nonzero
    entries, as pairs of a row and a value. *)
Definition sparse_columns (n : nat) (cols : list (list (nat * @C GaussRat)))
  : @ndarray GaussRat :=
  @mat GaussRat n (length cols)
    (fun r c =>
       match find (fun e => fst e =? r) (nth c cols []) with
       | Some e => snd e
       | None => C0
       end).

(** Two operators from a qubit to a qutrit. *)
Definition qutrit_rat_map : list (@ndarray GaussRat) :=
  [rat_matrix 3 2 [rat 1 2; rat 0 1; rat 0 1; rat 1 3; rat 1 5; rat 2 7];
   rat_matrix 3 2 [rat 0 1; rat 1 1; rat 2 3; rat 0 1; rat 1 4; rat 1 9]].

(** The bit-flip channel with [p = 9/25]: its operators, its isometry, an
    orthonormal completion of the columns of the isometry, and the unitary
    built from them. *)
Definition bit_flip_K : list (@ndarray GaussRat) :=
  [rat_matrix 2 2 [rat 4 5; rat 0 1; rat 0 1; rat 4 5];
   rat_matrix 2 2 [rat 0 1; rat 3 5; rat 3 5; rat 0 1];
   rat_matrix 2 2 [rat 0 1; rat 0 1; rat 0 1; rat 0 1];
   rat_matrix 2 2 [rat 0 1; rat 0 1; rat 0 1; rat 0 1]].

Definition bit_flip_V : @ndarray GaussRat :=
  sparse_columns 8 [[(0, rat 4 5); (5, rat 3 5)];
                    [(1, rat 3 5); (4, rat 4 5)]].

Definition bit_flip_tape : list (@ndarray GaussRat) :=
  [sparse_columns 8 [[(0, rat 3 5); (5, rat (-4) 5)]];
   sparse_columns 8 [[(2, rat 1 1)]];
   sparse_columns 8 [[(3, rat 1 1)]];
   sparse_columns 8 [[(1, rat 4 5); (4, rat (-3) 5)]];
   sparse_columns 8 [[(6, rat 1 1)]];
   sparse_columns 8 [[(7, rat 1 1)]]].

Definition bit_flip_U : @ndarray GaussRat :=
  sparse_columns 8 [[(0, rat 4 5); (5, rat 3 5)];
                    [(0, rat 3 5); (5, rat (-4) 5)];
                    [(2, rat 1 1)];
                    [(3, rat 1 1)];
                    [(1, rat 3 5); (4, rat 4 5)];
                    [(1, rat 4 5); (4, rat (-3) 5)];
                    [(6, rat 1 1)];
                    [(7, rat 1 1)]].

(** The same for the dephasing channel with [p = 9/25]. *)
Definition dephasing_K : list (@ndarray GaussRat) :=
  [rat_matrix 2 2 [rat 4 5; rat 0 1; rat 0 1; rat 4 5];
   rat_matrix 2 2 [rat 0 1; rat 0 1; rat 0 1; rat 0 1];
   rat_matrix 2 2 [rat 0 1; rat 0 1; rat 0 1; rat 0 1];
   rat_matrix 2 2 [rat 3 5; rat 0 1; rat 0 1; rat (-3) 5]].

Definition dephasing_V : @ndarray GaussRat :=
  sparse_columns 8 [[(0, rat 4 5); (3, rat 3 5)];
                    [(4, rat 4 5); (7, rat (-3) 5)]].

Definition dephasing_tape : list (@ndarray GaussRat) :=
  [sparse_columns 8 [[(0, rat 3 5); (3, rat (-4) 5)]];
   sparse_columns 8 [[(1, rat 1 1)]];
   sparse_columns 8 [[(2, rat 1 1)]];
   sparse_columns 8 [[(4, rat 3 5); (7, rat 4 5)]];
   sparse_columns 8 [[(5, rat 1 1)]];
   sparse_columns 8 [[(6, rat 1 1)]]].

Definition dephasing_U : @ndarray GaussRat :=
  sparse_columns 8 [[(0, rat 4 5); (3, rat 3 5)];
                    [(0, rat 3 5); (3, rat (-4) 5)];
                    [(1, rat 1 1)];
                    [(2, rat 1 1)];
                    [(4, rat 4 5); (7, rat (-3) 5)];
                    [(4, rat 3 5); (7, rat 4 5)];
                    [(5, rat 1 1)];
                    [(6, rat 1 1)]].

(** * Properties *)

(** ** Index arithmetic *)

Lemma div_mul_add (n i j : nat) : j < n -> (i * n + j) / n = i.
Proof.
  intros H. rewrite Nat.div_add_l by lia. rewrite Nat.div_small by lia. lia.
Qed.

Lemma mod_mul_add (n i j : nat) : j < n -> (i * n + j) mod n = j.
Proof.
  intros H. rewrite Nat.add_comm, Nat.Div0.mod_add. apply Nat.mod_small; lia.
Qed.

Lemma div_lt_rows (r c p : nat) : p < r * c -> p / c < r.
Proof.
  intros H. apply Nat.Div0.div_lt_upper_bound. lia.
Qed.

Lemma mod_lt_cols (r c p : nat) : p < r * c -> p mod c < c.
Proof.
  intros H. apply Nat.mod_upper_bound. destruct c; lia.
Qed.

Lemma div_mod_flat (c p : nat) : p / c * c + p mod c = p.
Proof.
  pose proof (Nat.div_mod_eq p c). lia.
Qed.

Lemma flat_lt (r c i j : nat) : i < r -> j < c -> i * c + j < r * c.
Proof. intros. nia. Qed.

(** ** The error monad *)

Lemma Ok_inj {A : Type} (a b : A) : Ok a = Ok b -> a = b.
Proof. intros H. injection H as H. exact H. Qed.

Lemma mapM_ok {A B : Type} (f : A -> result B) (g : A -> B) (l : list A) :
  (forall x, In x l -> f x = Ok (g x)) -> mapM f l = Ok (map g l).
Proof.
  induction l as [|x xs IH]; intros H; simpl; [reflexivity|].
  rewrite (H x) by (left; reflexivity). simpl.
  rewrite IH by (intros y Hy; apply H; right; exact Hy). reflexivity.
Qed.

Lemma mapM_ext {A B : Type} (f g : A -> result B) (l : list A) :
  (forall x, In x l -> f x = g x) -> mapM f l = mapM g l.
Proof.
  induction l as [|x xs IH]; intros H; simpl; [reflexivity|].
  rewrite (H x) by (left; reflexivity).
  rewrite IH by (intros y Hy; apply H; right; exact Hy). reflexivity.
Qed.

Lemma mapM_map {A B D : Type} (f : B -> result D) (h : A -> B) (l : list A) :
  mapM f (map h l) = mapM (fun x => f (h x)) l.
Proof.
  induction l as [|x xs IH]; simpl; [reflexivity|]. rewrite IH. reflexivity.
Qed.

Lemma foldM_ext {A B : Type} (f g : B -> A -> result B) (l : list A) (acc : B) :
  (forall b x, In x l -> f b x = g b x) -> foldM f l acc = foldM g l acc.
Proof.
  revert acc. induction l as [|x xs IH]; intros acc H; simpl; [reflexivity|].
  rewrite (H acc x) by (left; reflexivity).
  destruct (g acc x); simpl; [|reflexivity].
  apply IH. intros b y Hy. apply H. right. exact Hy.
Qed.

Lemma foldM_app {A B : Type} (f : B -> A -> result B) (l1 l2 : list A) (acc : B) :
  foldM f (l1 ++ l2) acc = (b <- foldM f l1 acc ;; foldM f l2 b).
Proof.
  revert acc. induction l1 as [|x xs IH]; intros acc; simpl; [reflexivity|].
  destruct (f acc x); simpl; [apply IH|reflexivity].
Qed.

Lemma py_index_lt {A : Type} (l : list A) (i : nat) (d : A) :
  i < length l -> py_index l i = Ok (nth i l d).
Proof.
  intros H. unfold py_index. rewrite (nth_error_nth' l d H). reflexivity.
Qed.

Lemma py_index_range (n i : nat) : i < n -> py_index (range n) i = Ok i.
Proof.
  intros H. unfold range. rewrite (py_index_lt _ _ 0) by (rewrite length_seq; exact H).
  rewrite seq_nth by exact H. reflexivity.
Qed.

(** ** [itertools.product] *)

Lemma product_length {A : Type} (ls : list (list A)) :
  length (product ls) = fold_right Nat.mul 1 (map (@length A) ls).
Proof.
  induction ls as [|l rest IH]; simpl; [reflexivity|].
  rewrite <- IH. induction l as [|x xs IHl]; simpl; [reflexivity|].
  rewrite length_app, length_map, IHl. reflexivity.
Qed.

Lemma product_In {A : Type} (ls : list (list A)) (t : list A) :
  In t (product ls) <-> Forall2 (fun x l => In x l) t ls.
Proof.
  revert t. induction ls as [|l rest IH]; intros t; simpl.
  - split.
    + intros [<-|[]]. constructor.
    + intros H. inversion H. left. reflexivity.
  - rewrite in_flat_map. split.
    + intros [x [Hx Ht]]. apply in_map_iff in Ht. destruct Ht as [t' [<- Ht']].
      constructor; [exact Hx|]. apply IH. exact Ht'.
    + intros H. inversion H as [|x l' t' rest' Hx Ht']; subst.
      exists x. split; [exact Hx|]. apply in_map. apply IH. exact Ht'.
Qed.

Lemma product_repeat_length {A : Type} (l : list A) (n : nat) :
  length (product (repeat l n)) = length l ^ n.
Proof.
  rewrite product_length. induction n as [|n IH]; simpl; [reflexivity|].
  rewrite IH. reflexivity.
Qed.

Lemma seq_offset (a n : nat) : seq a n = map (fun j => a + j) (seq 0 n).
Proof.
  revert a. induction n as [|n IH]; intros a; simpl; [reflexivity|].
  rewrite Nat.add_0_r. f_equal. rewrite (IH (S a)), (IH 1), map_map.
  apply map_ext. intros j. lia.
Qed.

Lemma shape_eqb_refl (s : list nat) : shape_eqb s s = true.
Proof.
  unfold shape_eqb. destruct (list_eq_dec Nat.eq_dec s s) as [_|H];
    [reflexivity|exfalso; apply H; reflexivity].
Qed.

Lemma shape_eqb_eq (s t : list nat) : shape_eqb s t = true -> s = t.
Proof.
  unfold shape_eqb. destruct (list_eq_dec Nat.eq_dec s t) as [H|_];
    [intros _; exact H|discriminate].
Qed.

Lemma nth_map_seq {A : Type} (g : nat -> A) (n k : nat) (d : A) :
  k < n -> nth k (map g (seq 0 n)) d = g k.
Proof.
  intros H. rewrite (nth_indep _ d (g 0)) by (rewrite length_map, length_seq; exact H).
  rewrite (map_nth g (seq 0 n) 0), seq_nth by exact H. reflexivity.
Qed.

Section ArrayFacts.

Context {scalars : Scalar}.

Add Ring scalar_ring : C_sring.

(** ** Finite sums *)

Lemma sum_over_nil {A : Type} (f : A -> C) : sum_over [] f = C0.
Proof. reflexivity. Qed.

Lemma sum_over_cons {A : Type} (x : A) (l : list A) (f : A -> C) :
  sum_over (x :: l) f = Cadd (f x) (sum_over l f).
Proof. reflexivity. Qed.

Lemma sum_over_app {A : Type} (l1 l2 : list A) (f : A -> C) :
  sum_over (l1 ++ l2) f = Cadd (sum_over l1 f) (sum_over l2 f).
Proof.
  induction l1 as [|x xs IH]; simpl.
  - rewrite sum_over_nil. ring.
  - rewrite !sum_over_cons, IH. ring.
Qed.

Lemma sum_over_ext {A : Type} (l : list A) (f g : A -> C) :
  (forall x, In x l -> f x = g x) -> sum_over l f = sum_over l g.
Proof.
  intros H. unfold sum_over. f_equal. apply map_ext_in. exact H.
Qed.

Lemma sum_over_zero {A : Type} (l : list A) : sum_over l (fun _ => C0) = C0.
Proof.
  induction l as [|x xs IH]; [reflexivity|]. rewrite sum_over_cons, IH. ring.
Qed.

Lemma sum_over_add {A : Type} (l : list A) (f g : A -> C) :
  sum_over l (fun x => Cadd (f x) (g x)) = Cadd (sum_over l f) (sum_over l g).
Proof.
  induction l as [|x xs IH]; [rewrite !sum_over_nil; ring|].
  rewrite !sum_over_cons, IH. ring.
Qed.

Lemma sum_over_mul_l {A : Type} (l : list A) (z : C) (f : A -> C) :
  Cmul z (sum_over l f) = sum_over l (fun x => Cmul z (f x)).
Proof.
  induction l as [|x xs IH]; [rewrite !sum_over_nil; ring|].
  rewrite !sum_over_cons, <- IH. ring.
Qed.

Lemma sum_over_mul_r {A : Type} (l : list A) (z : C) (f : A -> C) :
  Cmul (sum_over l f) z = sum_over l (fun x => Cmul (f x) z).
Proof.
  induction l as [|x xs IH]; [rewrite !sum_over_nil; ring|].
  rewrite !sum_over_cons, <- IH. ring.
Qed.

Lemma sum_over_conj {A : Type} (l : list A) (f : A -> C) :
  Cconj (sum_over l f) = sum_over l (fun x => Cconj (f x)).
Proof.
  induction l as [|x xs IH]; [apply Cconj_0|].
  rewrite !sum_over_cons, Cconj_add, IH. reflexivity.
Qed.

Lemma sum_over_swap {A B : Type} (la : list A) (lb : list B) (f : A -> B -> C) :
  sum_over la (fun a => sum_over lb (fun b => f a b)) =
  sum_over lb (fun b => sum_over la (fun a => f a b)).
Proof.
  induction la as [|a la IH].
  - rewrite sum_over_nil. symmetry. apply sum_over_zero.
  - rewrite sum_over_cons, IH. rewrite <- sum_over_add. reflexivity.
Qed.

Lemma bigsum_ext (n : nat) (f g : nat -> C) :
  (forall i, i < n -> f i = g i) -> bigsum n f = bigsum n g.
Proof.
  intros H. apply sum_over_ext. intros i Hi. apply in_seq in Hi. apply H. lia.
Qed.

Lemma bigsum_S (n : nat) (f : nat -> C) :
  bigsum (S n) f = Cadd (bigsum n f) (f n).
Proof.
  unfold bigsum. rewrite seq_S, sum_over_app. simpl.
  rewrite sum_over_cons, sum_over_nil. ring.
Qed.

Lemma bigsum_zero (n : nat) : bigsum n (fun _ => C0) = C0.
Proof. apply sum_over_zero. Qed.

(** A sum that a Kronecker delta collapses to one term. *)
Lemma bigsum_delta (n i0 : nat) (f : nat -> C) :
  i0 < n -> bigsum n (fun i => if i =? i0 then f i else C0) = f i0.
Proof.
  induction n as [|n IH]; intros H; [lia|].
  rewrite bigsum_S. destruct (Nat.eq_dec i0 n) as [->|Hne].
  - rewrite Nat.eqb_refl.
    rewrite (bigsum_ext n _ (fun _ => C0)).
    + rewrite bigsum_zero. ring.
    + intros i Hi. destruct (Nat.eqb_spec i n); [lia|reflexivity].
  - rewrite IH by lia. destruct (Nat.eqb_spec n i0); [lia|]. ring.
Qed.

(** A sum over a flat index is a double sum over the row and the column. *)
Lemma bigsum_flat (m n : nat) (f : nat -> C) :
  bigsum (m * n) f = bigsum m (fun i => bigsum n (fun j => f (i * n + j))).
Proof.
  induction m as [|m IH]; [reflexivity|].
  rewrite bigsum_S, <- IH.
  replace (S m * n) with (m * n + n) by lia.
  unfold bigsum at 1. rewrite seq_app, sum_over_app. f_equal.
  unfold bigsum, sum_over. f_equal.
  simpl. rewrite (seq_offset (m * n)), map_map. reflexivity.
Qed.

(** ** Two-dimensional arrays *)

Lemma mat_ext (r c : nat) (f g : nat -> nat -> C) :
  (forall i j, i < r -> j < c -> f i j = g i j) -> mat r c f = mat r c g.
Proof.
  intros H. unfold mat. f_equal. apply map_ext_in. intros p Hp.
  apply in_seq in Hp. apply H.
  - apply div_lt_rows. lia.
  - apply (mod_lt_cols r). lia.
Qed.

Lemma is_matrix_mat (r c : nat) (f : nat -> nat -> C) : is_matrix r c (mat r c f).
Proof.
  split; [reflexivity|]. simpl. rewrite length_map, length_seq. reflexivity.
Qed.

Lemma get_mat (r c : nat) (f : nat -> nat -> C) (i j : nat) :
  i < r -> j < c -> get (mat r c f) i j = f i j.
Proof.
  intros Hi Hj. unfold get, ncols. simpl.
  rewrite nth_map_seq by (apply flat_lt; assumption).
  rewrite div_mul_add, mod_mul_add by exact Hj. reflexivity.
Qed.

Lemma mat_eta (r c : nat) (a : ndarray) :
  is_matrix r c a -> a = mat r c (get a).
Proof.
  intros [Hs Hl]. destruct a as [s d]. simpl in *. subst s.
  unfold mat. f_equal. unfold get, ncols. simpl.
  apply (nth_ext _ _ C0 C0).
  - rewrite length_map, length_seq. exact Hl.
  - intros p Hp. rewrite nth_map_seq by lia.
    rewrite div_mod_flat. reflexivity.
Qed.

Lemma is_matrix_rows (r c : nat) (a : ndarray) : is_matrix r c a -> nrows a = r.
Proof. intros [Hs _]. unfold nrows. rewrite Hs. reflexivity. Qed.

Lemma is_matrix_cols (r c : nat) (a : ndarray) : is_matrix r c a -> ncols a = c.
Proof. intros [Hs _]. unfold ncols. rewrite Hs. reflexivity. Qed.

Lemma matmul_mat (m n p : nat) (a b : ndarray) :
  is_matrix m n a -> is_matrix n p b ->
  matmul a b =
  Ok (mat m p (fun i j => bigsum n (fun k => Cmul (get a i k) (get b k j)))).
Proof.
  intros Ha Hb. unfold matmul, mm.
  rewrite (is_matrix_rows _ _ _ Ha), (is_matrix_cols _ _ _ Ha),
    (is_matrix_cols _ _ _ Hb).
  destruct Ha as [-> _], Hb as [-> _]. rewrite Nat.eqb_refl. reflexivity.
Qed.

Lemma mm_mat (m n p : nat) (a b : ndarray) :
  is_matrix m n a -> is_matrix n p b ->
  mm a b = mat m p (fun i j => bigsum n (fun k => Cmul (get a i k) (get b k j))).
Proof.
  intros Ha Hb. unfold mm.
  rewrite (is_matrix_rows _ _ _ Ha), (is_matrix_cols _ _ _ Ha),
    (is_matrix_cols _ _ _ Hb). reflexivity.
Qed.

Lemma nth_map_conj (d : list C) (k : nat) :
  nth k (map Cconj d) C0 = Cconj (nth k d C0).
Proof.
  rewrite <- Cconj_0 at 1. apply map_nth.
Qed.

Lemma np_T_matrix (r c : nat) (a : ndarray) :
  is_matrix r c a -> np_T a = mat c r (fun i j => get a j i).
Proof.
  intros [Hs Hl]. unfold np_T, transpose_axes, mat. rewrite Hs. simpl.
  rewrite !Nat.mul_1_r. f_equal. apply map_ext_in. intros p Hp.
  apply in_seq in Hp. unfold get, ncols. rewrite Hs. simpl.
  change (fst (Nat.divmod (p mod r) 0 0 0)) with (p mod r / 1).
  rewrite Nat.div_1_r. f_equal. lia.
Qed.

Lemma dag_matrix (r c : nat) (a : ndarray) :
  is_matrix r c a -> dag a = mat c r (fun i j => Cconj (get a j i)).
Proof.
  intros [Hs Hl]. unfold dag.
  rewrite (np_T_matrix r c) by (split; simpl; [exact Hs|rewrite length_map; exact Hl]).
  apply mat_ext. intros i j _ _. unfold get, ncols. simpl. apply nth_map_conj.
Qed.

Lemma np_conjugate_matrix (r c : nat) (a : ndarray) :
  is_matrix r c a -> np_conjugate a = mat r c (fun i j => Cconj (get a i j)).
Proof.
  intros Ha. rewrite (mat_eta r c a Ha) at 1. unfold np_conjugate, mat. simpl.
  rewrite map_map. reflexivity.
Qed.

Lemma tensor_matrix (r1 c1 r2 c2 : nat) (a b : ndarray) :
  is_matrix r1 c1 a -> is_matrix r2 c2 b ->
  tensor a b =
  mat (r1 * r2) (c1 * c2)
      (fun i j => Cmul (get a (i / r2) (j / c2)) (get b (i mod r2) (j mod c2))).
Proof.
  intros [Ha _] [Hb _]. unfold tensor, mat, get, ncols. rewrite Ha, Hb. reflexivity.
Qed.

(** The number [1] is neutral for [tensor]. *)
Lemma tensor_scalar_1_l (r c : nat) (b : ndarray) :
  is_matrix r c b -> tensor (scalar C1) b = b.
Proof.
  intros Hb. rewrite (mat_eta r c b Hb) at 2. destruct Hb as [Hs Hl].
  unfold tensor, mat, get, ncols. rewrite Hs. simpl.
  rewrite !Nat.add_0_r. f_equal. apply map_ext_in. intros p Hp.
  apply in_seq in Hp.
  assert (Hi : p / c < r) by (apply div_lt_rows; lia).
  assert (Hj : p mod c < c) by (apply (mod_lt_cols r); lia).
  rewrite (Nat.div_small (p / c) r), (Nat.div_small (p mod c) c) by assumption.
  rewrite (Nat.mod_small (p / c) r), (Nat.mod_small (p mod c) c) by assumption.
  simpl. ring.
Qed.

(** ** Sums of arrays *)

Lemma add_arrays_mat (r c : nat) (f g : nat -> nat -> C) :
  add_arrays (mat r c f) (mat r c g) = mat r c (fun i j => Cadd (f i j) (g i j)).
Proof.
  unfold add_arrays, mat. simpl. f_equal.
  induction (seq 0 (r * c)) as [|p ps IH]; simpl; [reflexivity|].
  rewrite IH. reflexivity.
Qed.

Lemma fold_add_arrays_mat {A : Type} (r c : nat) (f : A -> nat -> nat -> C)
    (l : list A) (g : nat -> nat -> C) :
  fold_left add_arrays (map (fun k => mat r c (f k)) l) (mat r c g) =
  mat r c (fun i j => Cadd (g i j) (sum_over l (fun k => f k i j))).
Proof.
  revert g. induction l as [|x xs IH]; intros g; simpl.
  - apply mat_ext. intros i j _ _. rewrite sum_over_nil. ring.
  - rewrite add_arrays_mat, IH. apply mat_ext. intros i j _ _.
    rewrite sum_over_cons. ring.
Qed.

Lemma np_sum0_mat {A : Type} (r c : nat) (f : A -> nat -> nat -> C) (l : list A) :
  l <> [] ->
  np_sum0 (map (fun k => mat r c (f k)) l) =
  Ok (mat r c (fun i j => sum_over l (fun k => f k i j))).
Proof.
  destruct l as [|x xs]; intros H; [congruence|]. simpl.
  replace (forallb _ _) with true.
  - rewrite fold_add_arrays_mat. reflexivity.
  - symmetry. apply forallb_forall. intros b Hb.
    apply in_map_iff in Hb. destruct Hb as [k [<- _]].
    apply shape_eqb_refl.
Qed.

(** ** One Kraus term [k @ rho @ dag(k)] *)

Lemma kraus_term_mat (m n : nat) (k rho : ndarray) :
  is_matrix m n k -> is_matrix n n rho ->
  kraus_term rho k = Ok (mat m m (sandwich n k rho)).
Proof.
  intros Hk Hrho. unfold kraus_term.
  rewrite (matmul_mat m n n) by assumption. simpl.
  rewrite (matmul_mat m n m); [|apply is_matrix_mat|].
  - f_equal. apply mat_ext. intros i j Hi Hj. unfold sandwich.
    apply bigsum_ext. intros q Hq.
    rewrite get_mat by assumption.
    rewrite (dag_matrix m n) by assumption.
    rewrite get_mat by assumption. reflexivity.
  - rewrite (dag_matrix m n) by assumption. apply is_matrix_mat.
Qed.

Lemma apply_channel_full (m n : nat) (K : list ndarray) (rho : ndarray) :
  K <> [] -> Forall (is_matrix m n) K -> is_matrix n n rho ->
  apply_channel K rho None None false =
  Ok (mat m m (fun i j => sum_over K (fun k => sandwich n k rho i j))).
Proof.
  intros Hne HK Hrho. unfold apply_channel.
  rewrite (mapM_ok _ (fun k => mat m m (sandwich n k rho))).
  - simpl. apply np_sum0_mat. exact Hne.
  - intros k Hk. apply kraus_term_mat; [|exact Hrho].
    rewrite Forall_forall in HK. apply HK. exact Hk.
Qed.

(** ** A map on the second of two subsystems *)

Lemma product_singleton {A : Type} (l : list A) :
  product [l] = map (fun x => [x]) l.
Proof.
  simpl. induction l as [|x xs IH]; simpl; [reflexivity|]. rewrite IH. reflexivity.
Qed.

Lemma mapM_py_index_from {A B : Type} (g : A -> result B) (pre K : list A) :
  mapM (fun i => k <- py_index (pre ++ K) i ;; g k) (seq (length pre) (length K)) =
  mapM g K.
Proof.
  revert pre. induction K as [|x xs IH]; intros pre; simpl; [reflexivity|].
  unfold py_index at 1. rewrite nth_error_app2 by lia.
  rewrite Nat.sub_diag. simpl.
  specialize (IH (pre ++ [x])). rewrite <- app_assoc, length_app in IH.
  simpl in IH. rewrite Nat.add_1_r in IH. rewrite IH. reflexivity.
Qed.

Lemma mapM_py_index {A B : Type} (g : A -> result B) (K : list A) :
  mapM (fun i => k <- py_index K i ;; g k) (range (length K)) = mapM g K.
Proof. exact (mapM_py_index_from g [] K). Qed.

(** The operator the code builds for one Kraus operator [k] placed on the
    second of two subsystems, the first of dimension [dA]. *)
Lemma apply_channel_second_operators (K : list ndarray) (dA : nat) :
  mapM (fun index =>
          st <- foldM (apply_channel_step K [2] [dA; dA] index) (range 2)
                      (0, scalar C1) ;;
          Ok (snd st))
       (product (repeat (range (length K)) 1)) =
  Ok (map (fun k => tensor (tensor (scalar C1) (eye dA)) k) K).
Proof.
  change (repeat (range (length K)) 1) with [range (length K)].
  rewrite product_singleton, mapM_map.
  rewrite <- (mapM_ok (fun k => Ok (tensor (tensor (scalar C1) (eye dA)) k)))
    by reflexivity.
  rewrite <- (mapM_py_index (fun k => Ok (tensor (tensor (scalar C1) (eye dA)) k)) K).
  apply mapM_ext. intros x _.
  cbn. destruct (py_index K x); reflexivity.
Qed.

Lemma apply_channel_second (K : list ndarray) (rho : ndarray) (dA : nat) :
  apply_channel K rho (Some [2]) (Some [dA; dA]) false =
  (terms <- mapM (kraus_term rho)
                 (map (fun k => tensor (tensor (scalar C1) (eye dA)) k) K) ;;
   np_sum0 terms).
Proof.
  unfold apply_channel.
  change (length [dA; dA]) with 2. change (length [2]) with 1.
  rewrite apply_channel_second_operators. reflexivity.
Qed.

Lemma tensor_channels_identity (K : list ndarray) (dA : nat) :
  tensor_channels [[eye dA]; K] =
  Ok (map (fun k => tensor (tensor (scalar C1) (eye dA)) k) K).
Proof.
  unfold tensor_channels.
  change (map range (map (@length ndarray) [[eye dA]; K]))
    with [[0]; range (length K)].
  change (product [[0]; range (length K)])
    with (map (cons 0) (product [range (length K)]) ++ []).
  rewrite app_nil_r, product_singleton, !map_map, mapM_map.
  rewrite <- (mapM_ok (fun k => Ok (tensor (tensor (scalar C1) (eye dA)) k)))
    by reflexivity.
  rewrite <- (mapM_py_index (fun k => Ok (tensor (tensor (scalar C1) (eye dA)) k)) K).
  apply mapM_ext. intros x _.
  cbn. destruct (py_index K x); reflexivity.
Qed.

(** Applying a map to the second subsystem is applying its tensor product
    with the identity map, whatever the operands are. *)
Lemma apply_channel_second_tensor (K : list ndarray) (rho : ndarray) (dA : nat) :
  apply_channel K rho (Some [2]) (Some [dA; dA]) false =
  (TK <- tensor_channels [[eye dA]; K] ;; apply_channel TK rho None None false).
Proof.
  rewrite apply_channel_second, tensor_channels_identity. reflexivity.
Qed.

Lemma tensor_eye_matrix (dA dB dA' : nat) (k : ndarray) :
  is_matrix dB dA' k ->
  tensor (tensor (scalar C1) (eye dA)) k =
  mat (dA * dB) (dA * dA')
      (fun i j => Cmul (if i / dB =? j / dA' then C1 else C0)
                       (get k (i mod dB) (j mod dA'))).
Proof.
  intros Hk. rewrite (tensor_scalar_1_l dA dA) by apply is_matrix_mat.
  rewrite (tensor_matrix dA dA dB dA') by (exact Hk || apply is_matrix_mat).
  apply mat_ext. intros i j Hi Hj. unfold eye. rewrite get_mat.
  - reflexivity.
  - apply div_lt_rows. lia.
  - apply div_lt_rows. lia.
Qed.

Lemma apply_channel_second_mat (dA dB : nat) (K : list ndarray) (rho : ndarray) :
  K <> [] -> Forall (is_matrix dB dA) K -> is_matrix (dA * dA) (dA * dA) rho ->
  apply_channel K rho (Some [2]) (Some [dA; dA]) false =
  Ok (mat (dA * dB) (dA * dB)
          (fun i j => sum_over K (fun k =>
             sandwich (dA * dA) (tensor (tensor (scalar C1) (eye dA)) k) rho i j))).
Proof.
  intros Hne HK Hrho. rewrite apply_channel_second, mapM_map.
  rewrite (mapM_ok _ (fun k => mat (dA * dB) (dA * dB)
      (sandwich (dA * dA) (tensor (tensor (scalar C1) (eye dA)) k) rho))).
  - simpl. apply np_sum0_mat. exact Hne.
  - intros k Hk. apply kraus_term_mat; [|exact Hrho].
    rewrite Forall_forall in HK. rewrite (tensor_eye_matrix dA dB dA) by auto.
    apply is_matrix_mat.
Qed.

(** C2: on a state of two subsystems of dimension [dA], applying the map
    with Kraus operators [K] (each [dB] x [dA]) to the second subsystem
    returns the same array as applying the Kraus list
    [tensor_channels([[eye(dA)], K])] to the whole state. *)
Theorem partial_application_consistency (dA dB : nat) (K : list ndarray)
    (rho : ndarray) :
  1 <= dA ->
  Forall (is_matrix dB dA) K ->
  is_matrix (dA * dA) (dA * dA) rho ->
  exists out,
    apply_channel K rho (Some [2]) (Some [dA; dA]) false = Ok out /\
    (TK <- tensor_channels [[eye dA]; K] ;;
     apply_channel TK rho None None false) = Ok out.
Proof.
  intros _ HK Hrho. rewrite <- apply_channel_second_tensor.
  destruct K as [|k K'].
  - exists (scalar C0). split; reflexivity.
  - eexists. split; apply (apply_channel_second_mat dA dB); (congruence || assumption).
Qed.

(** ** Row-major indexing *)

Lemma ravel_lt (s idx : list nat) :
  Forall2 lt idx s -> ravel s idx < size_of s.
Proof.
  intros H. induction H as [|i d idx' s' Hi _ IH]; simpl; [lia|].
  fold (size_of s'). nia.
Qed.

Lemma unravel_ravel (s idx : list nat) :
  Forall2 lt idx s -> unravel s (ravel s idx) = idx.
Proof.
  intros H. induction H as [|i d idx' s' Hi Hrest IH]; simpl; [reflexivity|].
  fold (size_of s'). pose proof (ravel_lt _ _ Hrest) as Hlt.
  rewrite div_mul_add, mod_mul_add by exact Hlt. rewrite IH. reflexivity.
Qed.

(** ** The Choi matrix of a Kraus list *)

Lemma ent_conj (dim p : nat) : Cconj (ent dim p) = ent dim p.
Proof.
  unfold ent. destruct (p / dim =? p mod dim); [apply Cconj_1|apply Cconj_0].
Qed.

Lemma max_ent_mat (dA : nat) :
  max_ent dA =
  mat (dA * dA) (dA * dA) (fun p q => Cmul (ent dA p) (Cconj (ent dA q))).
Proof.
  unfold max_ent, max_ent_vector.
  rewrite (mm_mat (dA * dA) 1 (dA * dA)).
  - apply mat_ext. intros p q Hp Hq.
    rewrite (dag_matrix (dA * dA) 1) by apply is_matrix_mat.
    unfold bigsum, sum_over. simpl. rewrite !get_mat by lia. ring.
  - apply is_matrix_mat.
  - rewrite (dag_matrix (dA * dA) 1) by apply is_matrix_mat. apply is_matrix_mat.
Qed.

(** [a @ rho @ dag(a)] for a rank-one [rho = u u^dagger] is the outer product
    of [a u] with itself. *)
Lemma sandwich_rank_one (n : nat) (a rho : ndarray) (u : nat -> C) (i j : nat) :
  (forall p q, p < n -> q < n -> get rho p q = Cmul (u p) (Cconj (u q))) ->
  sandwich n a rho i j =
  Cmul (bigsum n (fun p => Cmul (get a i p) (u p)))
       (Cconj (bigsum n (fun q => Cmul (get a j q) (u q)))).
Proof.
  intros Hrho. unfold sandwich, bigsum.
  rewrite sum_over_conj, sum_over_mul_l.
  apply sum_over_ext. intros q Hq. apply in_seq in Hq.
  rewrite (sum_over_ext _ _ (fun p => Cmul (Cmul (get a i p) (u p)) (Cconj (u q)))).
  - rewrite <- sum_over_mul_r, Cconj_mul. ring.
  - intros p Hp. apply in_seq in Hp. rewrite Hrho by lia. ring.
Qed.

(** The extended operator [eye(dA) (x) k] sends the maximally entangled
    vector to the entries of [k], read column by column. *)
Lemma extended_operator_on_ent (dA dB : nat) (k : ndarray) (i : nat) :
  is_matrix dB dA k -> i < dA * dB ->
  bigsum (dA * dA)
         (fun p => Cmul (get (tensor (tensor (scalar C1) (eye dA)) k) i p) (ent dA p)) =
  get k (i mod dB) (i / dB).
Proof.
  intros Hk Hi. rewrite (tensor_eye_matrix dA dB dA) by exact Hk.
  assert (Ha : i / dB < dA) by (apply div_lt_rows; lia).
  rewrite bigsum_flat.
  rewrite (bigsum_ext dA _
    (fun x => if x =? i / dB then get k (i mod dB) x else C0)).
  - apply bigsum_delta. exact Ha.
  - intros x Hx.
    rewrite (bigsum_ext dA _
      (fun y => if y =? x
                then Cmul (if i / dB =? x then C1 else C0) (get k (i mod dB) y)
                else C0)).
    + rewrite bigsum_delta by exact Hx. rewrite (Nat.eqb_sym x).
      destruct (i / dB =? x); ring.
    + intros y Hy. rewrite get_mat by (try exact Hi; apply flat_lt; assumption).
      unfold ent. rewrite !div_mul_add, mod_mul_add by exact Hy.
      rewrite (Nat.eqb_sym y). destruct (x =? y); ring.
Qed.

Lemma choi_representation_mat (dA dB : nat) (K : list ndarray) :
  K <> [] -> Forall (is_matrix dB dA) K ->
  choi_representation K dA =
  Ok (mat (dA * dB) (dA * dB)
          (fun i j => sum_over K (fun k =>
             Cmul (get k (i mod dB) (i / dB)) (Cconj (get k (j mod dB) (j / dB)))))).
Proof.
  intros Hne HK. unfold choi_representation.
  rewrite (apply_channel_second_mat dA dB) by
    (try assumption; rewrite max_ent_mat; apply is_matrix_mat).
  f_equal. apply mat_ext. intros i j Hi Hj.
  apply sum_over_ext. intros k Hk. rewrite Forall_forall in HK.
  rewrite (sandwich_rank_one _ _ _ (ent dA)).
  - rewrite !(extended_operator_on_ent dA dB) by auto. reflexivity.
  - intros p q Hp Hq. rewrite max_ent_mat, get_mat by assumption. reflexivity.
Qed.

(** ** The reshuffle of [choi_to_natural] *)

Lemma choi_to_natural_mat (dA dB : nat) (F : nat -> nat -> C) :
  choi_to_natural (mat (dA * dB) (dA * dB) F) dA dB =
  Ok (mat (dB * dB) (dA * dA)
          (fun i j => F (j / dA * dB + i / dB) (j mod dA * dB + i mod dB))).
Proof.
  unfold choi_to_natural, np_reshape.
  replace (size_of [dA; dB; dA; dB] =? _) with true
    by (symmetry; apply Nat.eqb_eq; simpl; rewrite length_map, length_seq; ring).
  cbn [bind]. unfold np_transpose.
  change (is_axes [0; 2; 1; 3] _) with true. cbn [bind].
  replace (size_of [dA * dA; dB * dB] =? _) with true
    by (symmetry; apply Nat.eqb_eq; simpl;
        rewrite length_map, length_seq; simpl; ring).
  cbn [bind]. f_equal.
  rewrite (np_T_matrix (dA * dA) (dB * dB)) by
    (split; [reflexivity|]; simpl; rewrite length_map, length_seq; simpl; ring).
  apply mat_ext. intros i j Hi Hj.
  assert (Ha : j / dA < dA) by (apply div_lt_rows; lia).
  assert (Ha' : j mod dA < dA) by (apply (mod_lt_cols dA); lia).
  assert (Hb : i / dB < dB) by (apply div_lt_rows; lia).
  assert (Hb' : i mod dB < dB) by (apply (mod_lt_cols dB); lia).
  pose proof (div_mod_flat dA j) as Ej. pose proof (div_mod_flat dB i) as Ei.
  set (a := j / dA) in *. set (a' := j mod dA) in *.
  set (b := i / dB) in *. set (b' := i mod dB) in *.
  assert (Hidx : Forall2 lt [a; a'; b; b'] [dA; dA; dB; dB]) by (repeat constructor; assumption).
  pose proof (ravel_lt _ _ Hidx) as Hp.
  assert (Ep : j * (dB * dB) + i = ravel [dA; dA; dB; dB] [a; a'; b; b'])
    by (simpl; rewrite <- Ej, <- Ei; ring).
  unfold get, ncols. cbn [shape data as2d snd transpose_axes map nth length seq mat].
  rewrite Ep, nth_map_seq by exact Hp.
  rewrite unravel_ravel by exact Hidx.
  cbn [index_of Nat.eqb nth].
  assert (Hidx' : Forall2 lt [a; b; a'; b'] [dA; dB; dA; dB]) by (repeat constructor; assumption).
  pose proof (ravel_lt _ _ Hidx') as Hq.
  assert (Eq : ravel [dA; dB; dA; dB] [a; b; a'; b'] =
               (a * dB + b) * (dA * dB) + (a' * dB + b')) by (simpl; ring).
  rewrite nth_map_seq by (rewrite Eq; apply flat_lt; apply flat_lt; assumption).
  rewrite Eq, div_mul_add, mod_mul_add by (apply flat_lt; assumption).
  reflexivity.
Qed.

Lemma natural_representation_mat (dA dB : nat) (K : list ndarray) :
  K <> [] -> Forall (is_matrix dB dA) K ->
  natural_representation K =
  Ok (mat (dB * dB) (dA * dA)
          (fun i j => sum_over K (fun k =>
             Cmul (get k (i / dB) (j / dA)) (Cconj (get k (i mod dB) (j mod dA)))))).
Proof.
  intros Hne HK. unfold natural_representation.
  rewrite (map_ext_in _ (fun k => mat (dB * dB) (dA * dA)
     (fun i j => Cmul (get k (i / dB) (j / dA)) (Cconj (get k (i mod dB) (j mod dA)))))).
  - apply np_sum0_mat. exact Hne.
  - intros k Hk. rewrite Forall_forall in HK. specialize (HK k Hk).
    rewrite (tensor_matrix dB dA dB dA) by
      (try exact HK; rewrite (np_conjugate_matrix dB dA) by exact HK; apply is_matrix_mat).
    apply mat_ext. intros i j Hi Hj.
    assert (Hb' : i mod dB < dB) by (apply (mod_lt_cols dB); lia).
    assert (Ha' : j mod dA < dA) by (apply (mod_lt_cols dA); lia).
    rewrite (np_conjugate_matrix dB dA) by exact HK.
    rewrite (get_mat dB dA) by assumption.
    reflexivity.
Qed.

(** C3 (amended): for a nonempty Kraus list whose operators are all
    [dB] x [dA], [choi_to_natural(choi_representation(K, dA), dA, dB)], the
    reshuffle of the indices of the Choi matrix, is the natural
    representation [sum_i K_i (x) conj(K_i)] that
    [natural_representation(K)] returns. *)
Theorem choi_to_natural_agrees (dA dB : nat) (K : list ndarray) :
  K <> [] ->
  Forall (is_matrix dB dA) K ->
  exists N,
    (J <- choi_representation K dA ;; choi_to_natural J dA dB) = Ok N /\
    natural_representation K = Ok N.
Proof.
  intros Hne HK. eexists. split.
  - rewrite (choi_representation_mat dA dB) by assumption. cbn [bind].
    apply choi_to_natural_mat.
  - rewrite (natural_representation_mat dA dB) by assumption.
    f_equal. apply mat_ext. intros i j Hi Hj.
    assert (Ha : j / dA < dA) by (apply div_lt_rows; lia).
    assert (Ha' : j mod dA < dA) by (apply (mod_lt_cols dA); lia).
    assert (Hb : i / dB < dB) by (apply div_lt_rows; lia).
    assert (Hb' : i mod dB < dB) by (apply (mod_lt_cols dB); lia).
    apply sum_over_ext. intros k _.
    rewrite !div_mul_add, !mod_mul_add by assumption. reflexivity.
Qed.

(** ** Composition *)

Lemma mm_eye_r (d : nat) (k : ndarray) : is_matrix d d k -> mm k (eye d) = k.
Proof.
  intros Hk. rewrite (mm_mat d d d) by (exact Hk || apply is_matrix_mat).
  etransitivity; [|symmetry; apply (mat_eta d d k Hk)].
  apply mat_ext. intros i j Hi Hj.
  rewrite (bigsum_ext d _ (fun q => if q =? j then get k i q else C0)).
  - apply bigsum_delta. exact Hj.
  - intros q Hq. unfold eye. rewrite get_mat by assumption.
    destruct (q =? j); ring.
Qed.

Lemma is_matrix_mm (m n p : nat) (a b : ndarray) :
  is_matrix m n a -> is_matrix n p b -> is_matrix m p (mm a b).
Proof.
  intros Ha Hb. rewrite (mm_mat m n p) by assumption. apply is_matrix_mat.
Qed.

Lemma matmul_mm (m n p : nat) (a b : ndarray) :
  is_matrix m n a -> is_matrix n p b -> matmul a b = Ok (mm a b).
Proof.
  intros [Ha _] [Hb _]. unfold matmul. rewrite Ha, Hb, Nat.eqb_refl. reflexivity.
Qed.

Lemma py_index_app {A : Type} (pre suf : list A) (x : A) :
  py_index (pre ++ x :: suf) (length pre) = Ok x.
Proof.
  unfold py_index. rewrite nth_error_app2 by lia. rewrite Nat.sub_diag. reflexivity.
Qed.

(** The loop of [compose_channels] from position [length cpre] on. *)
Lemma compose_loop_from (d : nat) (Cpre Csuf : list (list ndarray))
    (cpre csuf : list nat) (acc : ndarray) :
  length Cpre = length cpre ->
  Forall2 (fun i K => i < length K) csuf Csuf ->
  Forall (Forall (is_matrix d d)) Csuf ->
  is_matrix d d acc ->
  foldM (fun tmp i =>
           c <- py_index (Cpre ++ Csuf) i ;;
           ci <- py_index (cpre ++ csuf) i ;;
           k <- py_index c ci ;;
           matmul k tmp)
        (seq (length cpre) (length csuf)) acc =
  Ok (fold_left (fun acc b => mm b acc) (choose Csuf csuf) acc).
Proof.
  intros Hlen H. revert Cpre cpre acc Hlen.
  induction H as [|i K cs Cs Hi Hrest IH]; intros Cpre cpre acc Hlen HC Hacc.
  - reflexivity.
  - inversion HC as [|? ? HK HCs]; subst.
    assert (Hk : is_matrix d d (nth i K (scalar C0)))
      by (rewrite Forall_forall in HK; apply HK, nth_In, Hi).
    cbn [length seq foldM].
    rewrite <- Hlen at 1. rewrite py_index_app. cbn [bind].
    rewrite py_index_app. cbn [bind].
    rewrite (py_index_lt _ _ (scalar C0)) by exact Hi. cbn [bind].
    rewrite (matmul_mm d d d) by assumption. cbn [bind].
    replace (Cpre ++ K :: Cs) with ((Cpre ++ [K]) ++ Cs)
      by (rewrite <- app_assoc; reflexivity).
    replace (cpre ++ i :: cs) with ((cpre ++ [i]) ++ cs)
      by (rewrite <- app_assoc; reflexivity).
    replace (S (length cpre)) with (length (cpre ++ [i]))
      by (rewrite length_app; simpl; lia).
    rewrite IH.
    + reflexivity.
    + rewrite !length_app. simpl. lia.
    + exact HCs.
    + apply (is_matrix_mm d d d); assumption.
Qed.

Lemma product_ranges_In (Cs : list (list ndarray)) (comb : list nat) :
  In comb (product (map range (map (@length ndarray) Cs))) <->
  Forall2 (fun i K => i < length K) comb Cs.
Proof.
  rewrite product_In. revert comb.
  induction Cs as [|K Cs IH]; intros comb; simpl.
  - split; intros H; inversion H; constructor.
  - split; intros H; inversion H; subst; constructor.
    + match goal with H : In _ (range _) |- _ => apply in_seq in H; lia end.
    + apply IH. assumption.
    + apply in_seq. lia.
    + apply IH. assumption.
Qed.

(** C5 (amended): for a nonempty list [C = [K1, ..., Kn]] of Kraus lists of
    [d] x [d] operators whose first list [K1] is nonempty, [compose_channels]
    returns one operator per index tuple of the Cartesian product of the
    index ranges, [prod_m |K_m|] operators in all, and the operator of the
    tuple [(i_1, ..., i_n)] is [Kn[i_n] @ ... @ K1[i_1]]. *)
Theorem compose_channels_products (d : nat) (Cs : list (list ndarray)) :
  Cs <> [] ->
  hd [] Cs <> [] ->
  Forall (Forall (is_matrix d d)) Cs ->
  let combs := product (map range (map (@length ndarray) Cs)) in
  compose_channels Cs = Ok (map (fun comb => composite (choose Cs comb)) combs) /\
  length combs = fold_right Nat.mul 1 (map (@length ndarray) Cs) /\
  (forall comb, In comb combs <-> Forall2 (fun i K => i < length K) comb Cs).
Proof.
  intros Hne Hhd HC combs. split; [|split].
  - destruct Cs as [|K1 Cs']; [congruence|].
    destruct K1 as [|k00 K1']; [simpl in Hhd; congruence|].
    assert (Hk00 : is_matrix d d k00).
    { inversion HC as [|? ? HK1 _]; subst. inversion HK1; assumption. }
    unfold compose_channels. cbn [py_index nth_error bind].
    destruct Hk00 as [Hs Hl]. rewrite Hs. cbn [py_index nth_error bind].
    fold combs. apply mapM_ok. intros comb Hcomb.
    apply product_ranges_In in Hcomb.
    pose proof (compose_loop_from d [] ((k00 :: K1') :: Cs') [] comb (eye d)
                  eq_refl Hcomb HC (is_matrix_mat d d _)) as Hloop.
    cbn [app length] in Hloop. unfold range at 1. rewrite Hloop.
    f_equal. inversion Hcomb as [|i K cs Cs0 Hi Hrest]; subst.
    unfold choose, composite. cbn [combine map fold_left fst snd].
    rewrite (mm_eye_r d); [reflexivity|].
    inversion HC as [|? ? HK1 _]; subst.
    rewrite Forall_forall in HK1. apply HK1, nth_In, Hi.
  - unfold combs. rewrite product_length, map_map. f_equal.
    etransitivity; [|apply map_id].
    apply map_ext. intros n. unfold range. apply length_seq.
  - intros comb. apply product_ranges_In.
Qed.

(** ** Tensor powers *)

Lemma tensor_is_matrix (r1 c1 r2 c2 : nat) (a b : ndarray) :
  is_matrix r1 c1 a -> is_matrix r2 c2 b ->
  is_matrix (r1 * r2) (c1 * c2) (tensor a b).
Proof.
  intros Ha Hb. rewrite (tensor_matrix r1 c1 r2 c2) by assumption.
  apply is_matrix_mat.
Qed.

(** The loop of [n_channel_uses] from position [length cpre] on, once [tmp]
    holds a matrix. *)
Lemma n_uses_loop_from (dA dB : nat) (K : list ndarray) (csuf cpre : list nat)
    (R Cc : nat) (acc : ndarray) :
  Forall (is_matrix dB dA) K ->
  Forall (fun i => i < length K) csuf ->
  is_matrix R Cc acc ->
  exists X,
    foldM (fun tmp i =>
             ci <- py_index (cpre ++ csuf) i ;;
             k <- py_index K ci ;;
             Ok (tensor tmp k))
          (seq (length cpre) (length csuf)) acc = Ok X /\
    is_matrix (R * dB ^ length csuf) (Cc * dA ^ length csuf) X.
Proof.
  intros HK. revert cpre R Cc acc.
  induction csuf as [|i cs IH]; intros cpre R Cc acc Hc Hacc.
  - exists acc. split; [reflexivity|]. simpl. rewrite !Nat.mul_1_r. exact Hacc.
  - inversion Hc as [|? ? Hi Hcs]; subst.
    assert (Hk : is_matrix dB dA (nth i K (scalar C0)))
      by (rewrite Forall_forall in HK; apply HK, nth_In, Hi).
    cbn [length seq foldM]. rewrite py_index_app. cbn [bind].
    rewrite (py_index_lt _ _ (scalar C0)) by exact Hi. cbn [bind].
    destruct (IH (cpre ++ [i]) (R * dB) (Cc * dA)
                 (tensor acc (nth i K (scalar C0))) Hcs
                 (tensor_is_matrix _ _ _ _ _ _ Hacc Hk)) as [X [HX HXm]].
    exists X. split.
    + rewrite <- app_assoc, length_app in HX. simpl in HX.
      rewrite Nat.add_1_r in HX. exact HX.
    + replace (R * dB ^ S (length cs)) with (R * dB * dB ^ length cs) by (simpl; ring).
      replace (Cc * dA ^ S (length cs)) with (Cc * dA * dA ^ length cs) by (simpl; ring).
      exact HXm.
Qed.

Lemma Forall2_In_repeat {A : Type} (comb l : list A) (n : nat) :
  Forall2 (fun x l' => In x l') comb (repeat l n) ->
  length comb = n /\ Forall (fun x => In x l) comb.
Proof.
  revert comb. induction n as [|n IH]; intros comb H; simpl in H.
  - inversion H. split; [reflexivity|constructor].
  - inversion H as [|x l' cs ls Hx Hrest]; subst.
    destruct (IH cs Hrest) as [Hlen Hall]. split; [simpl; lia|].
    constructor; assumption.
Qed.

(** C9: for a Kraus list [K] of [dB] x [dA] operators and [n >= 1],
    [n_channel_uses(K, n)] returns [|K|^n] operators, each of shape
    [dB^n] x [dA^n]. *)
Theorem n_channel_uses_cardinality (dA dB n : nat) (K : list ndarray) :
  Forall (is_matrix dB dA) K ->
  1 <= n ->
  exists K_n,
    n_channel_uses K n = Ok K_n /\
    length K_n = length K ^ n /\
    Forall (is_matrix (dB ^ n) (dA ^ n)) K_n.
Proof.
  intros HK Hn. unfold n_channel_uses.
  set (combs := product (repeat (range (length K)) n)).
  set (body := fun comb : list nat => foldM _ (range n) (scalar C1)).
  assert (Hbody : forall comb, In comb combs ->
            exists X, body comb = Ok X /\ is_matrix (dB ^ n) (dA ^ n) X).
  { intros comb Hcomb. unfold combs in Hcomb. apply product_In in Hcomb.
    apply Forall2_In_repeat in Hcomb. destruct Hcomb as [Hlen Hall].
    destruct comb as [|i cs]; [simpl in Hlen; lia|].
    inversion Hall as [|? ? Hi Hcs]; subst.
    apply in_seq in Hi.
    assert (Hcs' : Forall (fun i => i < length K) cs).
    { rewrite Forall_forall in *. intros x Hx. specialize (Hcs x Hx).
      apply in_seq in Hcs. lia. }
    assert (Hk : is_matrix dB dA (nth i K (scalar C0)))
      by (rewrite Forall_forall in HK; apply HK, nth_In; lia).
    unfold body, range. cbn [length seq foldM py_index nth_error bind].
    rewrite (py_index_lt _ _ (scalar C0)) by lia. cbn [bind].
    rewrite (tensor_scalar_1_l dB dA) by exact Hk.
    destruct (n_uses_loop_from dA dB K cs [i] dB dA _ HK Hcs' Hk) as [X [HX HXm]].
    exists X. split; [exact HX|]. exact HXm. }
  clearbody body.
  assert (Hlen : length combs = length K ^ n).
  { unfold combs. rewrite product_repeat_length. unfold range.
    rewrite length_seq. reflexivity. }
  rewrite <- Hlen. clear Hlen. induction combs as [|comb rest IH].
  - exists []. repeat split. constructor.
  - destruct (Hbody comb (or_introl eq_refl)) as [X [HX HXm]].
    destruct IH as [Ks [HKs [HKl HKm]]];
      [intros c Hc; apply Hbody; right; exact Hc|].
    exists (X :: Ks). cbn [mapM]. rewrite HX, HKs. cbn [bind length].
    repeat split; [congruence|constructor; assumption].
Qed.

(** ** Trace preservation *)

Lemma mat_entries_eq (r c : nat) (f g : nat -> nat -> C) (i j : nat) :
  mat r c f = mat r c g -> i < r -> j < c -> f i j = g i j.
Proof.
  intros H Hi Hj. rewrite <- (get_mat r c f i j), <- (get_mat r c g i j) by assumption.
  rewrite H. reflexivity.
Qed.

Lemma Tr_mat (d : nat) (f : nat -> nat -> C) :
  Tr (mat d d f) = Ok (bigsum d (fun i => f i i)).
Proof.
  unfold Tr. simpl. rewrite Nat.min_id. f_equal.
  apply bigsum_ext. intros i Hi. apply get_mat; exact Hi.
Qed.

Lemma Tr_matrix (d : nat) (a : ndarray) :
  is_matrix d d a -> Tr a = Ok (bigsum d (fun i => get a i i)).
Proof.
  intros [Hs _]. unfold Tr. rewrite Hs, Nat.min_id. reflexivity.
Qed.

(** The entries of [sum_i dag(K_i) @ K_i]. *)
Lemma kraus_gram_mat (dA dB : nat) (K : list ndarray) :
  K <> [] -> Forall (is_matrix dB dA) K ->
  (terms <- mapM (fun k => matmul (dag k) k) K ;; np_sum0 terms) =
  Ok (mat dA dA (fun q p => sum_over K (fun k =>
        bigsum dB (fun i => Cmul (Cconj (get k i q)) (get k i p))))).
Proof.
  intros Hne HK.
  rewrite (mapM_ok _ (fun k => mat dA dA (fun q p =>
     bigsum dB (fun i => Cmul (Cconj (get k i q)) (get k i p))))).
  - cbn [bind]. apply np_sum0_mat. exact Hne.
  - intros k Hk. rewrite Forall_forall in HK. specialize (HK k Hk).
    rewrite (matmul_mat dA dB dA);
      [|rewrite (dag_matrix dB dA) by exact HK; apply is_matrix_mat|exact HK].
    f_equal. apply mat_ext. intros q p Hq Hp. apply bigsum_ext. intros i Hi.
    rewrite (dag_matrix dB dA) by exact HK. rewrite get_mat by assumption.
    reflexivity.
Qed.

(** [Tr(k rho k^dagger)] as a sum against the entries of [k^dagger k]. *)
Lemma trace_sandwich (m n : nat) (k rho : ndarray) :
  bigsum m (fun i => sandwich n k rho i i) =
  bigsum n (fun q => bigsum n (fun p =>
    Cmul (get rho p q)
         (bigsum m (fun i => Cmul (Cconj (get k i q)) (get k i p))))).
Proof.
  unfold sandwich, bigsum.
  rewrite sum_over_swap. apply sum_over_ext. intros q _.
  rewrite (sum_over_ext _ _ (fun i => sum_over (seq 0 n) (fun p =>
     Cmul (get rho p q) (Cmul (Cconj (get k i q)) (get k i p))))).
  - rewrite sum_over_swap. apply sum_over_ext. intros p _.
    apply eq_sym, sum_over_mul_l.
  - intros i _. rewrite sum_over_mul_r. apply sum_over_ext. intros p _. ring.
Qed.

(** In exact arithmetic: for a Kraus list that satisfies the
    trace-preservation condition [sum_i dag(K_i) @ K_i = eye(dA)] and a
    [dA] x [dA] matrix [rho], [apply_channel(K, rho)] has the trace of
    [rho].  In floating point the two traces agree up to rounding only:
    [K = [0.6 * eye(2), 0.8 * eye(2)]] meets the condition exactly and sends
    [diag(0.1, 0.9)], of trace [1.0], to an array of trace
    [1.0000000000000002]. *)
Lemma trace_preservation (dA dB : nat) (K : list ndarray) (rho : ndarray) :
  Forall (is_matrix dB dA) K ->
  is_matrix dA dA rho ->
  (terms <- mapM (fun k => matmul (dag k) k) K ;; np_sum0 terms) = Ok (eye dA) ->
  exists out t,
    apply_channel K rho None None false = Ok out /\
    Tr out = Ok t /\
    Tr rho = Ok t.
Proof.
  intros HK Hrho HTP.
  assert (Hne : K <> []) by (intros ->; discriminate HTP).
  rewrite (kraus_gram_mat dA dB) in HTP by assumption.
  apply Ok_inj in HTP. unfold eye in HTP.
  exists (mat dB dB (fun i j => sum_over K (fun k => sandwich dA k rho i j))).
  exists (bigsum dA (fun i => get rho i i)).
  split; [apply (apply_channel_full dB dA); assumption|].
  split; [|apply Tr_matrix; exact Hrho].
  rewrite Tr_mat. f_equal.
  unfold bigsum at 1. rewrite sum_over_swap.
  rewrite (sum_over_ext K _ (fun k => bigsum dA (fun q => bigsum dA (fun p =>
     Cmul (get rho p q)
          (bigsum dB (fun i => Cmul (Cconj (get k i q)) (get k i p)))))))
    by (intros k _; apply (trace_sandwich dB dA)).
  unfold bigsum at 1. rewrite sum_over_swap.
  apply sum_over_ext. intros q Hq. apply in_seq in Hq.
  unfold bigsum at 1. rewrite sum_over_swap.
  rewrite (sum_over_ext _ _ (fun p => if p =? q then get rho p q else C0)).
  - apply (bigsum_delta dA q (fun p => get rho p q)). lia.
  - intros p Hp. apply in_seq in Hp.
    rewrite <- sum_over_mul_l.
    pose proof (mat_entries_eq dA dA _ _ q p HTP) as E. cbv beta in E.
    rewrite E by lia. rewrite (Nat.eqb_sym p q). destruct (q =? p); ring.
Qed.

(** ** The matrix product is associative *)

Lemma mm_assoc (m n p q : nat) (a b c : ndarray) :
  is_matrix m n a -> is_matrix n p b -> is_matrix p q c ->
  mm (mm a b) c = mm a (mm b c).
Proof.
  intros Ha Hb Hc.
  rewrite (mm_mat m p q (mm a b) c) by (try apply (is_matrix_mm m n p); assumption).
  rewrite (mm_mat m n q a (mm b c)) by (try apply (is_matrix_mm n p q); assumption).
  apply mat_ext. intros i j Hi Hj.
  rewrite (bigsum_ext p _ (fun k => bigsum n (fun l =>
     Cmul (get a i l) (Cmul (get b l k) (get c k j))))).
  - rewrite (bigsum_ext n _ (fun l => bigsum p (fun k =>
       Cmul (get a i l) (Cmul (get b l k) (get c k j))))).
    + unfold bigsum. apply sum_over_swap.
    + intros l Hl. rewrite (mm_mat n p q) by assumption.
      rewrite get_mat by assumption. unfold bigsum. apply sum_over_mul_l.
  - intros k Hk. rewrite (mm_mat m n p) by assumption.
    rewrite get_mat by assumption. unfold bigsum. rewrite sum_over_mul_r.
    apply sum_over_ext. intros l _. ring.
Qed.

Lemma fold_left_mm_matrix (d : nat) (l : list ndarray) (a : ndarray) :
  Forall (is_matrix d d) l -> is_matrix d d a ->
  is_matrix d d (fold_left mm l a).
Proof.
  intros Hl. revert a. induction Hl as [|b l Hb _ IH]; intros a Ha; simpl.
  - exact Ha.
  - apply IH. apply (is_matrix_mm d d d); assumption.
Qed.

Lemma mm_fold_left_mm (d : nat) (l : list ndarray) (x y : ndarray) :
  Forall (is_matrix d d) l -> is_matrix d d x -> is_matrix d d y ->
  mm x (fold_left mm l y) = fold_left mm l (mm x y).
Proof.
  intros Hl. revert y. induction Hl as [|b l Hb _ IH]; intros y Hx Hy; simpl.
  - reflexivity.
  - rewrite IH by (try apply (is_matrix_mm d d d); assumption).
    rewrite (mm_assoc d d d d) by assumption. reflexivity.
Qed.

(** The product that [compose_channels] accumulates is the product read
    from the left. *)
Lemma composite_left_product (d : nat) (ops : list ndarray) :
  Forall (is_matrix d d) ops -> composite ops = left_product ops.
Proof.
  induction ops as [|an init IH] using rev_ind; intros H; [reflexivity|].
  apply Forall_app in H. destruct H as [Hinit Han].
  inversion Han as [|? ? Han' _]; subst.
  unfold left_product. rewrite rev_app_distr. cbn [rev app].
  destruct init as [|a1 rest].
  - reflexivity.
  - specialize (IH Hinit). unfold composite in *. cbn [app].
    rewrite fold_left_app. cbn [fold_left]. rewrite IH.
    unfold left_product.
    assert (Hrev : Forall (is_matrix d d) (rev (a1 :: rest)))
      by (apply Forall_rev; exact Hinit).
    destruct (rev (a1 :: rest)) as [|b bs] eqn:E.
    + apply (f_equal (@length ndarray)) in E. rewrite length_rev in E. discriminate.
    + inversion Hrev; subst. cbn [fold_left].
      apply (mm_fold_left_mm d); assumption.
Qed.

End ArrayFacts.

(** ** An empty Kraus list *)

Section EmptyKraus.

Context {scalars : Scalar}.

(** C7 (amended): for every matrix [rho], [apply_channel([], rho)] with
    [sys] and [dim] unset raises nothing and returns the number [0.0], the
    sum over an empty list. *)
Theorem apply_channel_empty_kraus (rho : ndarray) (adjoint : bool) :
  apply_channel [] rho None None adjoint = Ok (scalar C0).
Proof.
  destruct adjoint; reflexivity.
Qed.

(** The same on subsystems: with no Kraus operator there is no index tuple. *)
Lemma apply_channel_empty_kraus_sys (rho : ndarray) (s : nat) (sys dim : list nat)
    (adjoint : bool) :
  apply_channel [] rho (Some (s :: sys)) (Some dim) adjoint = Ok (scalar C0).
Proof.
  destruct adjoint; reflexivity.
Qed.

End EmptyKraus.

(** ** The diamond norm, random maps and random measurements *)

Section BackendFacts.

Context {scalars : Scalar}.

Context {backend : Backend}.

(** [diamond_norm] has no status check of its own: when [syspermute] and
    [prob.solve] return, it returns the value that the solve stored in the
    problem, whatever status came with it.  Whether and how the real solve
    fails is decided inside cvxpy and its numerical solver. *)
Lemma diamond_norm_returns_backend_value (J J' : ndarray) (dA dB : nat)
    (display : bool) (report : solve_report) :
  syspermute J [2; 1] [dA; dB] = Ok J' ->
  cvx_solve (diamond_problem J' dA dB) display (1 # 10000000) = Ok report ->
  diamond_norm J dA dB display = Ok (value report).
Proof.
  intros HJ Hsolve. unfold diamond_norm. rewrite HJ. cbn [bind].
  rewrite Hsolve. reflexivity.
Qed.

(** An exception of [prob.solve] reaches the caller unchanged. *)
Lemma diamond_norm_propagates_exception (J J' : ndarray) (dA dB : nat)
    (display : bool) (e : pyerror) :
  syspermute J [2; 1] [dA; dB] = Ok J' ->
  cvx_solve (diamond_problem J' dA dB) display (1 # 10000000) = Raise e ->
  diamond_norm J dA dB display = Raise e.
Proof.
  intros HJ Hsolve. unfold diamond_norm. rewrite HJ. cbn [bind].
  rewrite Hsolve. reflexivity.
Qed.

(** C8 (amended): for [dA <> dB], [random_CP_map(dA, dB, TP=True,
    unital=True)] returns a message string as an ordinary value. *)
Theorem random_CP_map_TP_unital_mismatch (dA dB : nat) (return_as : string)
    (g g' : rng) (C_AB : ndarray) :
  dA <> dB ->
  random_density_matrix (dA * dB) g = Ok (C_AB, g') ->
  random_CP_map dA dB true true return_as g =
  Ok (AsString TP_unital_message, g').
Proof.
  intros Hne Hsample. unfold random_CP_map. rewrite Hsample. cbn [bind].
  unfold normalise_choi. cbn [negb andb].
  destruct (Nat.eqb_spec dA dB) as [E|_]; [contradiction|]. reflexivity.
Qed.

Lemma sample_states_length (n d : nat) (g g' : rng) (Ss : list ndarray) :
  sample_states n d g = Ok (Ss, g') -> length Ss = n.
Proof.
  revert g g' Ss. induction n as [|n IH]; intros g g' Ss H; simpl in H.
  - injection H as <- _. reflexivity.
  - destruct (random_density_matrix d g) as [[rho g1]|e]; [|discriminate].
    cbn [bind snd fst] in H.
    destruct (sample_states n d g1) as [[rest g2]|e] eqn:E;
      [|discriminate].
    cbn [bind snd fst] in H. injection H as <- _. simpl. f_equal.
    apply (IH g1 g2). exact E.
Qed.

(** The loop of the pretty-good-measurement branch leaves [M] as it is. *)
Lemma pgm_loop_keeps_M (d : nat) (Ss : list ndarray) (Ri : ndarray)
    (M : list ndarray) (l : list nat) :
  Forall (is_matrix d d) Ss -> is_matrix d d Ri ->
  Forall (fun i => i < length Ss) l ->
  foldM (fun M i =>
           Si <- py_index Ss i ;;
           l <- matmul Ri Si ;;
           Mi <- matmul l Ri ;;
           Ok M)
        l M = Ok M.
Proof.
  intros HS HRi Hl. induction Hl as [|i l Hi _ IH]; [reflexivity|].
  cbn [foldM]. rewrite (py_index_lt _ _ (scalar C0)) by exact Hi. cbn [bind].
  assert (HSi : is_matrix d d (nth i Ss (scalar C0)))
    by (rewrite Forall_forall in HS; apply HS, nth_In, Hi).
  rewrite (matmul_mm d d d) by assumption. cbn [bind].
  rewrite (matmul_mm d d d) by (try apply (is_matrix_mm d d d); assumption).
  cbn [bind]. exact IH.
Qed.

(** C10: for [d >= 1] and [num_elem >= 1], when the sampled states are
    [d] x [d] and the inverse square root of their sum is computed,
    [random_POVM(d, num_elem, via_choi=False)] returns the empty list. *)
Theorem random_POVM_pgm_returns_empty (d num_elem : nat) (g g' : rng)
    (Ss : list ndarray) :
  1 <= d ->
  1 <= num_elem ->
  sample_states num_elem d g = Ok (Ss, g') ->
  Forall (is_matrix d d) Ss ->
  (forall R, np_sum0 Ss = Ok R ->
     exists s Ri, sqrtm R = Ok s /\ inv s = Ok Ri /\ is_matrix d d Ri) ->
  random_POVM d num_elem false g = Ok ([], g').
Proof.
  intros _ Hn Hsample HS Hinv. unfold random_POVM. rewrite Hsample.
  cbn [bind fst snd].
  pose proof (sample_states_length _ _ _ _ _ Hsample) as Hlen.
  assert (Hne : Ss <> []) by (intros ->; simpl in Hlen; lia).
  assert (HR : np_sum0 Ss = Ok (mat d d (fun i j => sum_over Ss (fun k => get k i j)))).
  { rewrite <- (map_id Ss) at 1.
    rewrite (map_ext_in _ (fun k => mat d d (get k))).
    - apply np_sum0_mat. exact Hne.
    - intros k Hk. rewrite Forall_forall in HS. apply (mat_eta d d). apply HS, Hk. }
  destruct (Hinv _ HR) as [s [Ri [Hs [HRi HRim]]]].
  rewrite HR. cbn [bind]. rewrite Hs. cbn [bind]. rewrite HRi. cbn [bind].
  rewrite (pgm_loop_keeps_M d); try assumption.
  - reflexivity.
  - apply Forall_forall. intros i Hi. apply in_seq in Hi. lia.
Qed.

(** Whatever the backend does, this branch never returns a list with an
    element in it. *)
Lemma pgm_loop_result (Ss : list ndarray) (Ri : ndarray) (l : list nat)
    (M M' : list ndarray) :
  foldM (fun M i =>
           Si <- py_index Ss i ;;
           l <- matmul Ri Si ;;
           Mi <- matmul l Ri ;;
           Ok M)
        l M = Ok M' ->
  M' = M.
Proof.
  revert M. induction l as [|i l IH]; intros M H; cbn [foldM] in H.
  - apply Ok_inj in H. symmetry. exact H.
  - destruct (py_index Ss i) as [Si|e]; [|discriminate H]. cbn [bind] in H.
    destruct (matmul Ri Si) as [x|e]; [|discriminate H]. cbn [bind] in H.
    destruct (matmul x Ri) as [y|e]; [|discriminate H]. cbn [bind] in H.
    apply IH. exact H.
Qed.

Lemma random_POVM_pgm_never_populated (d num_elem : nat) (g g' : rng)
    (M : list ndarray) :
  random_POVM d num_elem false g = Ok (M, g') -> M = [].
Proof.
  unfold random_POVM. intros H.
  destruct (sample_states num_elem d g) as [[Ss g1]|e]; [|discriminate H].
  cbn [bind fst snd] in H.
  destruct (np_sum0 Ss) as [R|e]; [|discriminate H]. cbn [bind] in H.
  destruct (sqrtm R) as [s|e]; [|discriminate H]. cbn [bind] in H.
  destruct (inv s) as [Ri|e]; [|discriminate H]. cbn [bind] in H.
  destruct (foldM _ (range num_elem) []) as [M0|e] eqn:E; [|discriminate H].
  cbn [bind] in H. apply Ok_inj in H. injection H as <- _.
  apply (pgm_loop_result Ss Ri (range num_elem)). exact E.
Qed.

End BackendFacts.

(** ** From a Choi matrix to Kraus operators and back, in exact arithmetic *)

Section ExactDecomposition.

Context {scalars : Scalar}.
Context {backend : Backend}.

Add Ring scalar_ring' : C_sring.


Lemma scale_mat (z : C) (r c : nat) (f : nat -> nat -> C) :
  scale z (mat r c f) = mat r c (fun i j => Cmul z (f i j)).
Proof.
  unfold scale, mat. simpl. rewrite map_map. reflexivity.
Qed.



End ExactDecomposition.


(** * Further properties *)

Section MoreFacts.

Context {scalars : Scalar}.

Add Ring scalar_ring_more : C_sring.

(** ** Sums over lists built from lists *)

Lemma sum_over_map {A B : Type} (h : A -> B) (l : list A) (f : B -> C) :
  sum_over (map h l) f = sum_over l (fun x => f (h x)).
Proof. unfold sum_over. rewrite map_map. reflexivity. Qed.

Lemma sum_over_flat_map {A B : Type} (h : A -> list B) (l : list A) (f : B -> C) :
  sum_over (flat_map h l) f = sum_over l (fun x => sum_over (h x) f).
Proof.
  induction l as [|x xs IH]; [reflexivity|].
  simpl. rewrite sum_over_app, sum_over_cons, IH. reflexivity.
Qed.

Lemma map_nth_range {A : Type} (K : list A) (d : A) :
  map (fun j => nth j K d) (range (length K)) = K.
Proof.
  apply (nth_ext _ _ d d).
  - unfold range. rewrite length_map, length_seq. reflexivity.
  - intros n Hn. unfold range in *. rewrite length_map, length_seq in Hn.
    apply (nth_map_seq (fun j => nth j K d)). exact Hn.
Qed.

Lemma flat_map_nth_range {A B : Type} (f : A -> list B) (K : list A) (d : A) :
  flat_map (fun j => f (nth j K d)) (range (length K)) = flat_map f K.
Proof.
  transitivity (flat_map f (map (fun j => nth j K d) (range (length K)))).
  - rewrite !flat_map_concat_map, map_map. reflexivity.
  - rewrite map_nth_range. reflexivity.
Qed.

(** ** Adjoints, products and sums of matrices *)

Lemma is_matrix_dag (r c : nat) (a : ndarray) :
  is_matrix r c a -> is_matrix c r (dag a).
Proof.
  intros Ha. rewrite (dag_matrix r c) by exact Ha. apply is_matrix_mat.
Qed.

Lemma get_dag (r c : nat) (a : ndarray) (i j : nat) :
  is_matrix r c a -> i < c -> j < r -> get (dag a) i j = Cconj (get a j i).
Proof.
  intros Ha Hi Hj. rewrite (dag_matrix r c) by exact Ha.
  rewrite get_mat by assumption. reflexivity.
Qed.

Lemma get_mm (m n p : nat) (a b : ndarray) (i j : nat) :
  is_matrix m n a -> is_matrix n p b -> i < m -> j < p ->
  get (mm a b) i j = bigsum n (fun k => Cmul (get a i k) (get b k j)).
Proof.
  intros Ha Hb Hi Hj. rewrite (mm_mat m n p) by assumption.
  rewrite get_mat by assumption. reflexivity.
Qed.

Lemma dag_mm (m n p : nat) (a b : ndarray) :
  is_matrix m n a -> is_matrix n p b -> dag (mm a b) = mm (dag b) (dag a).
Proof.
  intros Ha Hb.
  rewrite (dag_matrix m p) by (apply (is_matrix_mm m n p); assumption).
  rewrite (mm_mat p n m (dag b) (dag a)) by (apply is_matrix_dag; assumption).
  apply mat_ext. intros i j Hi Hj.
  rewrite (get_mm m n p) by assumption.
  unfold bigsum. rewrite sum_over_conj. apply sum_over_ext.
  intros k Hk. apply in_seq in Hk.
  rewrite (get_dag n p), (get_dag m n) by (assumption || lia).
  rewrite Cconj_mul. ring.
Qed.

Lemma sandwich_mm (m n : nat) (k rho : ndarray) :
  is_matrix m n k -> is_matrix n n rho ->
  mm (mm k rho) (dag k) = mat m m (sandwich n k rho).
Proof.
  intros Hk Hrho. apply Ok_inj.
  rewrite <- (kraus_term_mat m n) by assumption. unfold kraus_term.
  rewrite (matmul_mm m n n) by assumption. cbn [bind].
  rewrite (matmul_mm m n m);
    [reflexivity|apply (is_matrix_mm m n n); assumption|apply is_matrix_dag; assumption].
Qed.

(** [(k2 k1) rho (k2 k1)^dagger = k2 (k1 rho k1^dagger) k2^dagger] *)
Lemma sandwich_compose (d : nat) (k1 k2 rho : ndarray) (i j : nat) :
  is_matrix d d k1 -> is_matrix d d k2 -> is_matrix d d rho ->
  i < d -> j < d ->
  sandwich d (mm k2 k1) rho i j = sandwich d k2 (mat d d (sandwich d k1 rho)) i j.
Proof.
  intros H1 H2 Hrho Hi Hj. apply (mat_entries_eq d d); try assumption.
  pose proof (is_matrix_dag _ _ _ H1) as H1d.
  pose proof (is_matrix_dag _ _ _ H2) as H2d.
  assert (H21 : is_matrix d d (mm k2 k1)) by (apply (is_matrix_mm d d d); assumption).
  assert (H1r : is_matrix d d (mm k1 rho)) by (apply (is_matrix_mm d d d); assumption).
  rewrite <- (sandwich_mm d d) by assumption.
  rewrite <- (sandwich_mm d d k2) by (try apply is_matrix_mat; assumption).
  rewrite <- (sandwich_mm d d k1) by assumption.
  rewrite (dag_mm d d d) by assumption.
  rewrite <- (mm_assoc d d d d (mm (mm k2 k1) rho)) by
    (try apply (is_matrix_mm d d d); assumption).
  f_equal.
  rewrite (mm_assoc d d d d k2 k1 rho) by assumption.
  rewrite (mm_assoc d d d d k2 (mm k1 rho)) by assumption.
  reflexivity.
Qed.

Lemma sandwich_sum {A : Type} (n : nat) (k rho : ndarray) (l : list A)
    (M : A -> ndarray) (i j : nat) :
  (forall p q, p < n -> q < n ->
     get rho p q = sum_over l (fun x => get (M x) p q)) ->
  sandwich n k rho i j = sum_over l (fun x => sandwich n k (M x) i j).
Proof.
  intros H. unfold sandwich, bigsum. rewrite sum_over_swap.
  apply sum_over_ext. intros q Hq. apply in_seq in Hq.
  rewrite <- sum_over_mul_r. f_equal.
  rewrite sum_over_swap. apply sum_over_ext. intros p Hp. apply in_seq in Hp.
  rewrite H by lia. apply sum_over_mul_l.
Qed.

(** The entry of [k rho k^dagger] is linear in [rho]. *)
Lemma sandwich_linear (n : nat) (k rho rho1 rho2 : ndarray) (z : C) (i j : nat) :
  (forall p q, p < n -> q < n ->
     get rho p q = Cadd (Cmul z (get rho1 p q)) (get rho2 p q)) ->
  sandwich n k rho i j =
  Cadd (Cmul z (sandwich n k rho1 i j)) (sandwich n k rho2 i j).
Proof.
  intros H. unfold sandwich, bigsum.
  rewrite sum_over_mul_l, <- sum_over_add.
  apply sum_over_ext. intros q Hq. apply in_seq in Hq.
  rewrite (sum_over_ext _ _ (fun p =>
     Cadd (Cmul z (Cmul (get k i p) (get rho1 p q)))
          (Cmul (get k i p) (get rho2 p q)))).
  - rewrite sum_over_add, <- sum_over_mul_l. ring.
  - intros p Hp. apply in_seq in Hp. rewrite H by lia. ring.
Qed.

(** ** [apply_channel] is linear in the state *)

Lemma add_scale_matrix (r c : nat) (z : C) (a b : ndarray) :
  is_matrix r c a -> is_matrix r c b ->
  add_arrays (scale z a) b =
  mat r c (fun i j => Cadd (Cmul z (get a i j)) (get b i j)).
Proof.
  intros Ha Hb. rewrite (mat_eta r c a Ha) at 1. rewrite (mat_eta r c b Hb) at 1.
  rewrite scale_mat, add_arrays_mat. reflexivity.
Qed.

(** In exact arithmetic: [apply_channel(K, z * rho1 + rho2)] is
    [z * apply_channel(K, rho1) + apply_channel(K, rho2)], for operators of
    one shape and square states of the matching dimension. *)
Lemma apply_channel_linear (m n : nat) (K : list ndarray)
    (rho1 rho2 : ndarray) (z : C) :
  Forall (is_matrix m n) K ->
  is_matrix n n rho1 ->
  is_matrix n n rho2 ->
  exists o1 o2,
    apply_channel K rho1 None None false = Ok o1 /\
    apply_channel K rho2 None None false = Ok o2 /\
    apply_channel K (add_arrays (scale z rho1) rho2) None None false =
      Ok (add_arrays (scale z o1) o2).
Proof.
  intros HK H1 H2. destruct K as [|k0 K'].
  - exists (scalar C0), (scalar C0). repeat split.
    unfold apply_channel, add_arrays, scale. cbn. unfold scalar.
    do 3 f_equal. ring.
  - set (K := k0 :: K') in *.
    assert (Hne : K <> []) by discriminate.
    assert (H12 : is_matrix n n (add_arrays (scale z rho1) rho2))
      by (rewrite (add_scale_matrix n n) by assumption; apply is_matrix_mat).
    do 2 eexists. split; [apply (apply_channel_full m n); assumption|].
    split; [apply (apply_channel_full m n); assumption|].
    rewrite (apply_channel_full m n) by assumption. f_equal.
    rewrite scale_mat, add_arrays_mat.
    apply mat_ext. intros i j Hi Hj.
    rewrite sum_over_mul_l, <- sum_over_add.
    apply sum_over_ext. intros k _. apply sandwich_linear.
    intros p q Hp Hq. rewrite (add_scale_matrix n n) by assumption.
    rewrite get_mat by assumption. reflexivity.
Qed.

(** ** Composition is application in sequence *)

Lemma extend_by_nil (L : list ndarray) : extend_by L [] = L.
Proof.
  unfold extend_by. simpl. induction L as [|a L IH]; simpl; [reflexivity|].
  rewrite IH. reflexivity.
Qed.

Lemma flat_map_flat_map {A B D : Type} (f : B -> list D) (g : A -> list B)
    (l : list A) :
  flat_map f (flat_map g l) = flat_map (fun x => flat_map f (g x)) l.
Proof.
  induction l as [|x xs IH]; simpl; [reflexivity|].
  rewrite flat_map_app, IH. reflexivity.
Qed.

Lemma flat_map_map {A B D : Type} (f : B -> list D) (h : A -> B) (l : list A) :
  flat_map f (map h l) = flat_map (fun x => f (h x)) l.
Proof.
  induction l as [|x xs IH]; simpl; [reflexivity|]. rewrite IH. reflexivity.
Qed.

Lemma flat_map_ext_In {A B : Type} (f g : A -> list B) (l : list A) :
  (forall x, In x l -> f x = g x) -> flat_map f l = flat_map g l.
Proof.
  induction l as [|x xs IH]; intros H; simpl; [reflexivity|].
  rewrite (H x) by (left; reflexivity).
  rewrite IH by (intros y Hy; apply H; right; exact Hy). reflexivity.
Qed.

Lemma map_flat_map {A B D : Type} (f : B -> D) (g : A -> list B) (l : list A) :
  map f (flat_map g l) = flat_map (fun x => map f (g x)) l.
Proof.
  induction l as [|x xs IH]; simpl; [reflexivity|].
  rewrite map_app, IH. reflexivity.
Qed.

Lemma extend_by_cons (L K : list ndarray) (Cs : list (list ndarray)) :
  extend_by L (K :: Cs) =
  extend_by (flat_map (fun a => map (fun k => mm k a) K) L) Cs.
Proof.
  unfold extend_by. rewrite flat_map_flat_map.
  apply flat_map_ext. intros a.
  rewrite flat_map_map.
  rewrite <- (flat_map_nth_range _ K (scalar C0)).
  cbn [map product]. rewrite map_flat_map.
  apply flat_map_ext. intros j. rewrite map_map. reflexivity.
Qed.

Lemma apply_channel_extend_step (d : nat) (L K : list ndarray) (rho : ndarray) :
  L <> [] -> K <> [] ->
  Forall (is_matrix d d) L -> Forall (is_matrix d d) K -> is_matrix d d rho ->
  apply_channel (flat_map (fun a => map (fun k => mm k a) K) L) rho
                None None false =
  (o <- apply_channel L rho None None false ;;
   apply_channel K o None None false).
Proof.
  intros HLne HKne HL HK Hrho.
  rewrite (apply_channel_full d d L) by assumption. cbn [bind].
  rewrite (apply_channel_full d d K) by (try apply is_matrix_mat; assumption).
  rewrite (apply_channel_full d d).
  - f_equal. apply mat_ext. intros i j Hi Hj.
    rewrite sum_over_flat_map.
    rewrite (sum_over_ext K _ (fun k => sum_over L (fun a =>
       sandwich d k (mat d d (sandwich d a rho)) i j))).
    + rewrite sum_over_swap. apply sum_over_ext. intros a Ha.
      rewrite sum_over_map. apply sum_over_ext. intros k Hk.
      rewrite Forall_forall in HL, HK.
      apply sandwich_compose; auto.
    + intros k _. apply sandwich_sum. intros p q Hp Hq.
      rewrite get_mat by assumption. apply sum_over_ext. intros a _.
      rewrite get_mat by assumption. reflexivity.
  - destruct L as [|a L']; [congruence|]. destruct K as [|k K']; [congruence|].
    discriminate.
  - apply Forall_forall. intros x Hx. apply in_flat_map in Hx.
    destruct Hx as [a [Ha Hx]]. apply in_map_iff in Hx. destruct Hx as [k [<- Hk]].
    rewrite Forall_forall in HL, HK. apply (is_matrix_mm d d d); auto.
  - exact Hrho.
Qed.

Lemma apply_channel_extend_by (d : nat) (Cs : list (list ndarray)) :
  Forall (fun K => K <> [] /\ Forall (is_matrix d d) K) Cs ->
  forall (L : list ndarray) (rho : ndarray),
  L <> [] -> Forall (is_matrix d d) L -> is_matrix d d rho ->
  apply_channel (extend_by L Cs) rho None None false =
  (o <- apply_channel L rho None None false ;; apply_in_sequence Cs o).
Proof.
  intros HCs. induction HCs as [|K Cs [HKne HK] _ IH]; intros L rho HLne HL Hrho.
  - rewrite extend_by_nil. unfold apply_in_sequence. cbn [foldM].
    destruct (apply_channel L rho None None false); reflexivity.
  - rewrite extend_by_cons, IH.
    + rewrite (apply_channel_extend_step d) by assumption.
      rewrite (apply_channel_full d d L) by assumption. cbn [bind].
      unfold apply_in_sequence. cbn [foldM]. reflexivity.
    + destruct L as [|a L']; [congruence|]. destruct K as [|k K']; [congruence|].
      discriminate.
    + apply Forall_forall. intros x Hx. apply in_flat_map in Hx.
      destruct Hx as [a [Ha Hx]]. apply in_map_iff in Hx.
      destruct Hx as [k [<- Hk]].
      rewrite Forall_forall in HL, HK. apply (is_matrix_mm d d d); auto.
    + exact Hrho.
Qed.

Lemma compose_channels_extend_by (d : nat) (K1 : list ndarray)
    (Cs : list (list ndarray)) :
  K1 <> [] -> Forall (is_matrix d d) K1 ->
  Forall (fun K => K <> [] /\ Forall (is_matrix d d) K) Cs ->
  compose_channels (K1 :: Cs) = Ok (extend_by K1 Cs).
Proof.
  intros Hne HK1 HCs.
  assert (HC : Forall (Forall (is_matrix d d)) (K1 :: Cs)).
  { constructor; [exact HK1|]. eapply Forall_impl; [|exact HCs].
    intros K [_ H]. exact H. }
  destruct K1 as [|k00 K1']; [congruence|].
  assert (Hk00 : is_matrix d d k00) by (inversion HK1; assumption).
  unfold compose_channels. cbn [py_index nth_error bind].
  destruct Hk00 as [Hs Hl]. rewrite Hs. cbn [py_index nth_error bind].
  set (K1 := k00 :: K1') in *.
  rewrite (mapM_ok _ (fun comb =>
     fold_left (fun acc b => mm b acc) (choose (K1 :: Cs) comb) (eye d))).
  - f_equal. unfold extend_by.
    rewrite <- (flat_map_nth_range _ K1 (scalar C0)).
    cbn [map product]. rewrite map_flat_map.
    apply flat_map_ext_In. intros i Hi. apply in_seq in Hi.
    rewrite map_map. apply map_ext. intros comb.
    unfold choose. cbn [combine map fold_left fst snd].
    rewrite (mm_eye_r d); [reflexivity|].
    rewrite Forall_forall in HK1. apply HK1, nth_In. lia.
  - intros comb Hcomb. apply product_ranges_In in Hcomb.
    pose proof (compose_loop_from d [] (K1 :: Cs) [] comb (eye d)
                  eq_refl Hcomb HC (is_matrix_mat d d _)) as Hloop.
    cbn [app length] in Hloop. unfold range at 1. exact Hloop.
Qed.

(** In exact arithmetic: for Kraus lists [K1, ..., Kn] of [d] x [d] operators, none of them
    empty, applying [compose_channels([K1, ..., Kn])] to a [d] x [d] state
    gives what applying [K1], then [K2], ..., then [Kn] gives. *)
Lemma compose_channels_sequential (d : nat) (Cs : list (list ndarray))
    (rho : ndarray) :
  Cs <> [] ->
  Forall (fun K => K <> [] /\ Forall (is_matrix d d) K) Cs ->
  is_matrix d d rho ->
  exists out,
    (K_n <- compose_channels Cs ;; apply_channel K_n rho None None false) = Ok out /\
    apply_in_sequence Cs rho = Ok out.
Proof.
  intros Hne HCs Hrho. destruct Cs as [|K1 Cs']; [congruence|].
  inversion HCs as [|? ? [HK1ne HK1] HCs']; subst.
  rewrite (compose_channels_extend_by d) by assumption. cbn [bind].
  rewrite (apply_channel_extend_by d Cs' HCs' K1 rho) by assumption.
  unfold apply_in_sequence at 2. cbn [foldM].
  fold (apply_in_sequence Cs').
  rewrite (apply_channel_full d d K1) by assumption. cbn [bind].
  assert (Hseq : forall Cs r, Forall (fun K => K <> [] /\ Forall (is_matrix d d) K) Cs ->
            is_matrix d d r -> exists out, apply_in_sequence Cs r = Ok out).
  { clear. intros Cs r H. revert r. induction H as [|K Cs [HKne HK] _ IH]; intros r Hr.
    - exists r. reflexivity.
    - unfold apply_in_sequence. cbn [foldM].
      rewrite (apply_channel_full d d K) by assumption. cbn [bind].
      apply IH. apply is_matrix_mat. }
  match goal with
  | |- exists out, apply_in_sequence Cs' ?r = _ /\ _ =>
      destruct (Hseq Cs' r HCs' (is_matrix_mat d d _)) as [out Hout]
  end.
  exists out. split; exact Hout.
Qed.

(** ** Mismatched dimensions *)

Lemma matmul_error (a b : ndarray) (e : pyerror) :
  matmul a b = Raise e -> e = ValueError.
Proof.
  unfold matmul. intros H.
  destruct (shape a) as [|? [|? [|? ?]]]; try (injection H as <-; reflexivity);
  destruct (shape b) as [|? [|? [|? ?]]]; try (injection H as <-; reflexivity);
  (destruct (_ =? _); [discriminate|injection H as <-; reflexivity]).
Qed.

Lemma kraus_term_error (rho k : ndarray) (e : pyerror) :
  kraus_term rho k = Raise e -> e = ValueError.
Proof.
  unfold kraus_term. intros H.
  destruct (matmul k rho) as [kr|e'] eqn:E; cbn [bind] in H.
  - apply (matmul_error _ _ _ H).
  - injection H as <-. apply (matmul_error _ _ _ E).
Qed.

Lemma mapM_kraus_term_mismatch (rho k : ndarray) (K : list ndarray) :
  In k K -> kraus_term rho k = Raise ValueError ->
  mapM (kraus_term rho) K = Raise ValueError.
Proof.
  intros Hin Hk. induction K as [|x K IH]; [contradiction|].
  cbn [mapM]. destruct (kraus_term rho x) as [y|e] eqn:E; cbn [bind].
  - destruct Hin as [->|Hin]; [congruence|]. rewrite (IH Hin). reflexivity.
  - f_equal. apply (kraus_term_error _ _ _ E).
Qed.

(** X4: when some Kraus operator has a number of columns other than the
    number of rows of [rho], [apply_channel(K, rho)] raises [ValueError]. *)
Theorem apply_channel_dimension_mismatch (K : list ndarray) (k rho : ndarray)
    (m n p q : nat) :
  In k K ->
  shape k = [m; n] ->
  shape rho = [p; q] ->
  n <> p ->
  apply_channel K rho None None false = Raise ValueError.
Proof.
  intros Hin Hk Hrho Hne. unfold apply_channel.
  rewrite (mapM_kraus_term_mismatch rho k); [reflexivity|exact Hin|].
  unfold kraus_term, matmul. rewrite Hk, Hrho.
  destruct (Nat.eqb_spec n p); [contradiction|reflexivity].
Qed.

(** ** No subsystem selected *)

Lemma tensor_eye_eye (a b : nat) : tensor (eye a) (eye b) = eye (a * b).
Proof.
  rewrite (tensor_matrix a a b b) by apply is_matrix_mat.
  apply mat_ext. intros i j Hi Hj. unfold eye.
  assert (Hia : i / b < a) by (apply div_lt_rows; exact Hi).
  assert (Hja : j / b < a) by (apply div_lt_rows; exact Hj).
  assert (Hib : i mod b < b) by (apply (mod_lt_cols a); exact Hi).
  assert (Hjb : j mod b < b) by (apply (mod_lt_cols a); exact Hj).
  rewrite !get_mat by assumption.
  pose proof (div_mod_flat b i) as Ei. pose proof (div_mod_flat b j) as Ej.
  destruct (Nat.eqb_spec (i / b) (j / b)) as [E1|E1];
    destruct (Nat.eqb_spec (i mod b) (j mod b)) as [E2|E2];
    destruct (Nat.eqb_spec i j) as [E|E]; try ring;
    exfalso; try (apply E; rewrite <- Ei, <- Ej, E1, E2; reflexivity);
    subst j; contradiction.
Qed.

Lemma dag_eye (d : nat) : dag (eye d) = eye d.
Proof.
  rewrite (dag_matrix d d) by apply is_matrix_mat.
  apply mat_ext. intros i j Hi Hj. unfold eye. rewrite get_mat by assumption.
  rewrite (Nat.eqb_sym j i). destruct (i =? j); [apply Cconj_1|apply Cconj_0].
Qed.

Lemma mm_eye_right (m d : nat) (k : ndarray) :
  is_matrix m d k -> mm k (eye d) = k.
Proof.
  intros Hk. rewrite (mm_mat m d d) by (exact Hk || apply is_matrix_mat).
  etransitivity; [|symmetry; apply (mat_eta m d k Hk)].
  apply mat_ext. intros i j Hi Hj.
  rewrite (bigsum_ext d _ (fun q => if q =? j then get k i q else C0)).
  - apply bigsum_delta. exact Hj.
  - intros q Hq. unfold eye. rewrite get_mat by assumption.
    destruct (q =? j); ring.
Qed.

Lemma mm_eye_left (d n : nat) (k : ndarray) :
  is_matrix d n k -> mm (eye d) k = k.
Proof.
  intros Hk. rewrite (mm_mat d d n) by (exact Hk || apply is_matrix_mat).
  etransitivity; [|symmetry; apply (mat_eta d n k Hk)].
  apply mat_ext. intros i j Hi Hj.
  rewrite (bigsum_ext d _ (fun q => if q =? i then get k q j else C0)).
  - apply (bigsum_delta d i (fun q => get k q j)). exact Hi.
  - intros q Hq. unfold eye. rewrite get_mat by assumption.
    rewrite (Nat.eqb_sym i q). destruct (q =? i); ring.
Qed.

Lemma kraus_term_eye (d : nat) (rho : ndarray) :
  is_matrix d d rho -> kraus_term rho (eye d) = Ok rho.
Proof.
  intros Hrho. unfold kraus_term.
  rewrite (matmul_mm d d d) by (exact Hrho || apply is_matrix_mat). cbn [bind].
  rewrite (mm_eye_left d d) by exact Hrho. rewrite dag_eye.
  rewrite (matmul_mm d d d) by (exact Hrho || apply is_matrix_mat).
  rewrite (mm_eye_right d d) by exact Hrho. reflexivity.
Qed.

(** The inner loop with no subsystem selected, from position [length pre]. *)
Lemma identity_loop_from (K : list ndarray) (index pre suf : list nat)
    (l a : nat) :
  foldM (apply_channel_step K [] (pre ++ suf) index)
        (seq (length pre) (length suf)) (l, eye a) =
  Ok (l, eye (a * size_of suf)).
Proof.
  revert pre a. induction suf as [|d suf IH]; intros pre a.
  - simpl. rewrite Nat.mul_1_r. reflexivity.
  - cbn [length seq foldM]. unfold apply_channel_step at 1.
    cbn [py_in existsb]. rewrite py_index_app. cbn [bind].
    rewrite tensor_eye_eye.
    replace (pre ++ d :: suf) with ((pre ++ [d]) ++ suf)
      by (rewrite <- app_assoc; reflexivity).
    replace (S (length pre)) with (length (pre ++ [d]))
      by (rewrite length_app; simpl; lia).
    rewrite IH. do 3 f_equal. simpl. fold (size_of suf). ring.
Qed.

(** X3: with [sys = []] and a nonempty [dim], [apply_channel] returns [rho]
    itself, whatever the Kraus list is (the empty list included), when
    [rho] is square of dimension the product of [dim]. *)
Theorem apply_channel_no_subsystem (K : list ndarray) (rho : ndarray)
    (dim : list nat) (adjoint : bool) :
  dim <> [] ->
  is_matrix (size_of dim) (size_of dim) rho ->
  apply_channel K rho (Some []) (Some dim) adjoint = Ok rho.
Proof.
  intros Hne Hrho. unfold apply_channel.
  destruct dim as [|d0 dim']; [congruence|].
  cbn [length repeat product mapM range seq foldM].
  unfold apply_channel_step at 1. cbn [py_in existsb py_index nth_error bind].
  rewrite (tensor_scalar_1_l d0 d0) by apply is_matrix_mat.
  pose proof (identity_loop_from (if adjoint then map dag K else K) []
                [d0] dim' 0 d0) as Hloop.
  cbn [app length] in Hloop. rewrite Hloop. cbn [bind snd mapM].
  change (d0 * size_of dim') with (size_of (d0 :: dim')).
  rewrite (kraus_term_eye _ rho Hrho). reflexivity.
Qed.

(** ** Tensor products of maps *)

Lemma tensor_loop_from (Cpre Csuf : list (list ndarray)) (cpre csuf : list nat)
    (acc : ndarray) :
  length Cpre = length cpre ->
  Forall2 (fun i K => i < length K) csuf Csuf ->
  foldM (fun tmp i =>
           c <- py_index (Cpre ++ Csuf) i ;;
           ci <- py_index (cpre ++ csuf) i ;;
           k <- py_index c ci ;;
           Ok (tensor tmp k))
        (seq (length cpre) (length csuf)) acc =
  Ok (fold_left tensor (choose Csuf csuf) acc).
Proof.
  intros Hlen H. revert Cpre cpre acc Hlen.
  induction H as [|i K cs Cs Hi Hrest IH]; intros Cpre cpre acc Hlen.
  - reflexivity.
  - cbn [length seq foldM].
    rewrite <- Hlen at 1. rewrite py_index_app. cbn [bind].
    rewrite py_index_app. cbn [bind].
    rewrite (py_index_lt _ _ (scalar C0)) by exact Hi. cbn [bind].
    replace (Cpre ++ K :: Cs) with ((Cpre ++ [K]) ++ Cs)
      by (rewrite <- app_assoc; reflexivity).
    replace (cpre ++ i :: cs) with ((cpre ++ [i]) ++ cs)
      by (rewrite <- app_assoc; reflexivity).
    replace (S (length cpre)) with (length (cpre ++ [i]))
      by (rewrite length_app; simpl; lia).
    rewrite IH by (rewrite !length_app; simpl; lia). reflexivity.
Qed.

Lemma tensor_channels_value (Cs : list (list ndarray)) :
  tensor_channels Cs =
  Ok (map (fun comb => fold_left tensor (choose Cs comb) (scalar C1))
          (product (map range (map (@length ndarray) Cs)))).
Proof.
  unfold tensor_channels. apply mapM_ok. intros comb Hcomb.
  apply product_ranges_In in Hcomb.
  pose proof (tensor_loop_from [] Cs [] comb (scalar C1) eq_refl Hcomb) as Hloop.
  cbn [app length] in Hloop. unfold range at 1. exact Hloop.
Qed.

(** X6: [tensor_channels] never raises: for every list of Kraus lists it
    returns one operator per index tuple, [prod_m |K_m|] in all, the
    operator of a tuple being the tensor product, from the left and
    starting from the number 1, of the operators the tuple picks. *)
Theorem tensor_channels_products (Cs : list (list ndarray)) :
  let combs := product (map range (map (@length ndarray) Cs)) in
  tensor_channels Cs =
    Ok (map (fun comb => fold_left tensor (choose Cs comb) (scalar C1)) combs) /\
  length combs = fold_right Nat.mul 1 (map (@length ndarray) Cs).
Proof.
  intros combs. split.
  - apply tensor_channels_value.
  - unfold combs. rewrite product_length, map_map. f_equal.
    etransitivity; [|apply map_id].
    apply map_ext. intros n. unfold range. apply length_seq.
Qed.

(** X5: [n_channel_uses(K, n)] returns what [tensor_channels] returns on
    [n] copies of [K]. *)
Theorem n_channel_uses_tensor_channels (K : list ndarray) (n : nat) :
  n_channel_uses K n = tensor_channels (repeat K n).
Proof.
  unfold n_channel_uses, tensor_channels.
  rewrite !map_repeat. apply mapM_ext. intros comb Hcomb.
  apply product_In in Hcomb. apply Forall2_In_repeat in Hcomb.
  destruct Hcomb as [Hlen _]. rewrite Hlen.
  apply foldM_ext. intros tmp i Hi. apply in_seq in Hi.
  rewrite (py_index_lt _ _ []) by (rewrite repeat_length; lia).
  rewrite nth_repeat_lt by lia. reflexivity.
Qed.

(** ** The Choi matrix is Hermitian *)

(** X7: for a nonempty list of [dB] x [dA] operators, [choi_representation]
    returns a square matrix of dimension [dA * dB] that equals its own
    conjugate-transpose (conjugation being an involution). *)
Theorem choi_representation_hermitian (dA dB : nat) (K : list ndarray) :
  (forall x : C, Cconj (Cconj x) = x) ->
  K <> [] ->
  Forall (is_matrix dB dA) K ->
  exists J,
    choi_representation K dA = Ok J /\
    is_matrix (dA * dB) (dA * dB) J /\
    dag J = J.
Proof.
  intros Hinv Hne HK. eexists. split; [apply (choi_representation_mat dA dB); assumption|].
  split; [apply is_matrix_mat|].
  rewrite (dag_matrix (dA * dB) (dA * dB)) by apply is_matrix_mat.
  apply mat_ext. intros i j Hi Hj. rewrite get_mat by assumption.
  rewrite sum_over_conj. apply sum_over_ext. intros k _.
  rewrite Cconj_mul, Hinv. ring.
Qed.

(** ** The adjoint of a trace-preserving map is unital *)

Lemma dag_dag (r c : nat) (a : ndarray) :
  (forall x : C, Cconj (Cconj x) = x) ->
  is_matrix r c a -> dag (dag a) = a.
Proof.
  intros Hinv Ha. rewrite (dag_matrix c r) by (apply is_matrix_dag; exact Ha).
  etransitivity; [|symmetry; apply (mat_eta r c a Ha)].
  apply mat_ext. intros i j Hi Hj.
  rewrite (get_dag r c) by assumption. apply Hinv.
Qed.

(** X8: when [sum_i dag(K_i) @ K_i = eye(dA)], the adjoint map sends the
    identity to the identity: [apply_channel(K, eye(dB), adjoint=True)] is
    [eye(dA)]. *)
Theorem adjoint_of_trace_preserving_is_unital (dA dB : nat) (K : list ndarray) :
  (forall x : C, Cconj (Cconj x) = x) ->
  Forall (is_matrix dB dA) K ->
  (terms <- mapM (fun k => matmul (dag k) k) K ;; np_sum0 terms) = Ok (eye dA) ->
  apply_channel K (eye dB) None None true = Ok (eye dA).
Proof.
  intros Hinv HK HTP. rewrite <- HTP. unfold apply_channel.
  rewrite mapM_map. f_equal. apply mapM_ext. intros k Hk.
  rewrite Forall_forall in HK. specialize (HK k Hk).
  unfold kraus_term.
  rewrite (matmul_mm dA dB dB) by (try apply is_matrix_dag; try apply is_matrix_mat; exact HK).
  cbn [bind]. rewrite (mm_eye_right dA dB) by (apply is_matrix_dag; exact HK).
  rewrite (dag_dag dB dA) by assumption. reflexivity.
Qed.

(** ** [choi_to_natural] and the number of entries *)

(** X9: [choi_to_natural(C_AB, dA, dB)] raises [ValueError] exactly when
    [C_AB] does not hold [(dA * dB)^2] entries, and otherwise returns a
    matrix of [dB * dB] rows and [dA * dA] columns; the shape of [C_AB]
    plays no other part. *)
Theorem choi_to_natural_error_iff (C_AB : ndarray) (dA dB : nat) :
  (choi_to_natural C_AB dA dB = Raise ValueError <->
   length (data C_AB) <> (dA * dB) * (dA * dB)) /\
  (length (data C_AB) = (dA * dB) * (dA * dB) ->
   exists N, choi_to_natural C_AB dA dB = Ok N /\
             is_matrix (dB * dB) (dA * dA) N).
Proof.
  unfold choi_to_natural, np_reshape.
  assert (Esz : size_of [dA; dB; dA; dB] = dA * dB * (dA * dB)) by (simpl; ring).
  rewrite Esz.
  destruct (Nat.eqb_spec (dA * dB * (dA * dB)) (length (data C_AB))) as [E|E].
  - cbn [bind]. unfold np_transpose.
    change (is_axes [0; 2; 1; 3] _) with true. cbn [bind].
    replace (size_of [dA * dA; dB * dB] =? _) with true
      by (symmetry; apply Nat.eqb_eq; simpl;
          rewrite length_map, length_seq; simpl; ring).
    cbn [bind]. split.
    + split; [discriminate|intros H; symmetry in E; contradiction].
    + intros _. eexists. split; [reflexivity|].
      split; [reflexivity|].
      unfold np_T, transpose_axes. cbn [data shape length].
      rewrite length_map, length_seq. simpl. ring.
  - cbn [bind]. split.
    + split; [intros _ H; apply E; symmetry; exact H|reflexivity].
    + intros H. symmetry in H. contradiction.
Qed.

(** ** Scaling a map *)

Lemma get_scale (r c : nat) (z : C) (a : ndarray) (i j : nat) :
  is_matrix r c a -> i < r -> j < c ->
  get (scale z a) i j = Cmul z (get a i j).
Proof.
  intros Ha Hi Hj. rewrite (mat_eta r c a Ha) at 1. rewrite scale_mat.
  rewrite get_mat by assumption. reflexivity.
Qed.

Lemma is_matrix_scale (r c : nat) (z : C) (a : ndarray) :
  is_matrix r c a -> is_matrix r c (scale z a).
Proof.
  intros [Hs Hl]. split; simpl; [exact Hs|rewrite length_map; exact Hl].
Qed.

Lemma sandwich_scale (m n : nat) (z : C) (k rho : ndarray) (i j : nat) :
  is_matrix m n k -> i < m -> j < m ->
  sandwich n (scale z k) rho i j =
  Cmul (Cmul z (Cconj z)) (sandwich n k rho i j).
Proof.
  intros Hk Hi Hj. unfold sandwich, bigsum. rewrite sum_over_mul_l.
  apply sum_over_ext. intros q Hq. apply in_seq in Hq.
  rewrite (sum_over_ext _ _ (fun p => Cmul z (Cmul (get k i p) (get rho p q)))).
  - rewrite <- sum_over_mul_l. rewrite (get_scale m n) by (assumption || lia).
    rewrite Cconj_mul. ring.
  - intros p Hp. apply in_seq in Hp.
    rewrite (get_scale m n) by (assumption || lia). ring.
Qed.

(** In exact arithmetic: for [x] with [np.sqrt(x) * conj(np.sqrt(x)) = x] (a non-negative
    real), applying [channel_scalar_multiply(K, x)] gives [x] times what
    applying [K] gives. *)
Lemma channel_scalar_multiply_scales (m n : nat) (K : list ndarray)
    (rho : ndarray) (x : C) :
  Cmul (Csqrt x) (Cconj (Csqrt x)) = x ->
  Forall (is_matrix m n) K ->
  is_matrix n n rho ->
  exists out,
    apply_channel K rho None None false = Ok out /\
    apply_channel (channel_scalar_multiply K x) rho None None false =
      Ok (scale x out).
Proof.
  intros Hx HK Hrho. destruct K as [|k0 K'].
  - exists (scalar C0). split; [reflexivity|].
    unfold channel_scalar_multiply, apply_channel, scale. cbn. unfold scalar.
    do 3 f_equal. ring.
  - set (K := k0 :: K') in *.
    eexists. split; [apply (apply_channel_full m n); (assumption || discriminate)|].
    rewrite (apply_channel_full m n).
    + f_equal. rewrite scale_mat. apply mat_ext. intros i j Hi Hj.
      unfold channel_scalar_multiply. rewrite sum_over_map, sum_over_mul_l.
      apply sum_over_ext. intros k Hk. rewrite Forall_forall in HK.
      rewrite (sandwich_scale m n) by auto. rewrite Hx. reflexivity.
    + discriminate.
    + unfold channel_scalar_multiply. apply Forall_forall. intros y Hy.
      apply in_map_iff in Hy. destruct Hy as [k [<- Hk]].
      rewrite Forall_forall in HK. apply is_matrix_scale. auto.
    + exact Hrho.
Qed.

(** ** The natural representation acts on the row-major vectorisation *)

Lemma column_mat (n : nat) (f : nat -> nat -> C) :
  mat n 1 f = mk_array [n; 1] (map (fun p => f p 0) (seq 0 n)).
Proof.
  unfold mat. rewrite Nat.mul_1_r. f_equal. apply map_ext. intros p.
  rewrite Nat.div_1_r, Nat.mod_1_r. reflexivity.
Qed.

Lemma reshape_to_column (r c : nat) (a : ndarray) :
  is_matrix r c a ->
  np_reshape a [r * c; 1] =
  Ok (mat (r * c) 1 (fun p _ => get a (p / c) (p mod c))).
Proof.
  intros Ha. unfold np_reshape. destruct (Ha) as [Hs Hl].
  replace (size_of [r * c; 1] =? _) with true
    by (symmetry; apply Nat.eqb_eq; rewrite Hl; simpl; ring).
  f_equal. rewrite column_mat. rewrite (mat_eta r c a Ha) at 1. reflexivity.
Qed.

(** In exact arithmetic: the matrix [natural_representation(K)] times the row-major
    vectorisation of [rho] is the row-major vectorisation of
    [apply_channel(K, rho)]. *)
Lemma natural_representation_acts_on_vec (dA dB : nat) (K : list ndarray)
    (rho : ndarray) :
  K <> [] ->
  Forall (is_matrix dB dA) K ->
  is_matrix dA dA rho ->
  exists N out v w,
    natural_representation K = Ok N /\
    apply_channel K rho None None false = Ok out /\
    np_reshape rho [dA * dA; 1] = Ok v /\
    matmul N v = Ok w /\
    np_reshape out [dB * dB; 1] = Ok w.
Proof.
  intros Hne HK Hrho. do 4 eexists.
  split; [apply (natural_representation_mat dA dB); assumption|].
  split; [apply (apply_channel_full dB dA); assumption|].
  split; [apply reshape_to_column; exact Hrho|].
  split; [apply (matmul_mat (dB * dB) (dA * dA) 1); apply is_matrix_mat|].
  rewrite (reshape_to_column dB dB) by apply is_matrix_mat. f_equal.
  apply mat_ext. intros p z Hp Hz.
  assert (Hb : p / dB < dB) by (apply div_lt_rows; exact Hp).
  assert (Hb' : p mod dB < dB) by (apply (mod_lt_cols dB); exact Hp).
  rewrite (get_mat dB dB) by assumption.
  set (b := p / dB) in *. set (b' := p mod dB) in *.
  set (T := fun (k : ndarray) (a a' : nat) =>
              Cmul (Cmul (get k b a) (get rho a a')) (Cconj (get k b' a'))).
  symmetry.
  transitivity (sum_over K (fun k => bigsum dA (fun a' => bigsum dA (fun a => T k a a')))).
  - rewrite (bigsum_ext (dA * dA) _
       (fun q => sum_over K (fun k => T k (q / dA) (q mod dA)))).
    + rewrite bigsum_flat.
      rewrite (bigsum_ext dA _
         (fun a => sum_over K (fun k => bigsum dA (fun a' => T k a a')))).
      * unfold bigsum. rewrite sum_over_swap. apply sum_over_ext. intros k _.
        apply sum_over_swap.
      * intros a Ha. unfold bigsum.
        rewrite (sum_over_ext (seq 0 dA) _
                   (fun a' => sum_over K (fun k => T k a a'))).
        -- apply sum_over_swap.
        -- intros a' Ha'. apply in_seq in Ha'.
           rewrite div_mul_add, mod_mul_add by lia. reflexivity.
    + intros q Hq. rewrite !get_mat by (assumption || lia).
      rewrite sum_over_mul_r. apply sum_over_ext. intros k _. unfold T, b, b'. ring.
  - apply sum_over_ext. intros k _. unfold sandwich. apply bigsum_ext.
    intros a' Ha'. unfold bigsum. rewrite sum_over_mul_r. reflexivity.
Qed.

(** ** The tensor product of two maps acts factor by factor *)

Lemma get_tensor (r1 c1 r2 c2 : nat) (a b : ndarray) (i j : nat) :
  is_matrix r1 c1 a -> is_matrix r2 c2 b -> i < r1 * r2 -> j < c1 * c2 ->
  get (tensor a b) i j =
  Cmul (get a (i / r2) (j / c2)) (get b (i mod r2) (j mod c2)).
Proof.
  intros Ha Hb Hi Hj. rewrite (tensor_matrix r1 c1 r2 c2) by assumption.
  rewrite get_mat by assumption. reflexivity.
Qed.

(** [(a (x) b) (c (x) d) = (a c) (x) (b d)] *)
Lemma tensor_mm (r1 n1 c1 r2 n2 c2 : nat) (a b c d : ndarray) :
  is_matrix r1 n1 a -> is_matrix r2 n2 b ->
  is_matrix n1 c1 c -> is_matrix n2 c2 d ->
  mm (tensor a b) (tensor c d) = tensor (mm a c) (mm b d).
Proof.
  intros Ha Hb Hc Hd.
  rewrite (mm_mat (r1 * r2) (n1 * n2) (c1 * c2)) by
    (apply tensor_is_matrix; assumption).
  rewrite (tensor_matrix r1 c1 r2 c2 (mm a c) (mm b d)) by
    first [apply (is_matrix_mm _ n1); assumption
          |apply (is_matrix_mm _ n2); assumption].
  apply mat_ext. intros i j Hi Hj.
  assert (Hi1 : i / r2 < r1) by (apply div_lt_rows; exact Hi).
  assert (Hi2 : i mod r2 < r2) by (apply (mod_lt_cols r1); exact Hi).
  assert (Hj1 : j / c2 < c1) by (apply div_lt_rows; exact Hj).
  assert (Hj2 : j mod c2 < c2) by (apply (mod_lt_cols c1); exact Hj).
  rewrite (get_mm r1 n1 c1), (get_mm r2 n2 c2) by assumption.
  rewrite bigsum_flat. unfold bigsum. rewrite sum_over_mul_r.
  apply sum_over_ext. intros x Hx. apply in_seq in Hx.
  rewrite sum_over_mul_l.
  apply sum_over_ext. intros y Hy. apply in_seq in Hy.
  rewrite (get_tensor r1 n1 r2 n2), (get_tensor n1 c1 n2 c2) by
    (try assumption; apply flat_lt; lia).
  rewrite !div_mul_add, !mod_mul_add by lia. ring.
Qed.

Lemma dag_tensor (r1 c1 r2 c2 : nat) (a b : ndarray) :
  is_matrix r1 c1 a -> is_matrix r2 c2 b ->
  dag (tensor a b) = tensor (dag a) (dag b).
Proof.
  intros Ha Hb.
  rewrite (dag_matrix (r1 * r2) (c1 * c2)) by (apply tensor_is_matrix; assumption).
  rewrite (tensor_matrix c1 r1 c2 r2 (dag a) (dag b)) by
    (apply is_matrix_dag; assumption).
  apply mat_ext. intros i j Hi Hj.
  assert (Hi1 : i / c2 < c1) by (apply div_lt_rows; exact Hi).
  assert (Hi2 : i mod c2 < c2) by (apply (mod_lt_cols c1); exact Hi).
  assert (Hj1 : j / r2 < r1) by (apply div_lt_rows; exact Hj).
  assert (Hj2 : j mod r2 < r2) by (apply (mod_lt_cols r1); exact Hj).
  rewrite (get_tensor r1 c1 r2 c2) by assumption.
  rewrite (get_dag r1 c1), (get_dag r2 c2) by assumption.
  apply Cconj_mul.
Qed.

Lemma sandwich_tensor (m1 n1 m2 n2 : nat) (k1 k2 rho1 rho2 : ndarray) (i j : nat) :
  is_matrix m1 n1 k1 -> is_matrix m2 n2 k2 ->
  is_matrix n1 n1 rho1 -> is_matrix n2 n2 rho2 ->
  i < m1 * m2 -> j < m1 * m2 ->
  sandwich (n1 * n2) (tensor k1 k2) (tensor rho1 rho2) i j =
  Cmul (sandwich n1 k1 rho1 (i / m2) (j / m2))
       (sandwich n2 k2 rho2 (i mod m2) (j mod m2)).
Proof.
  intros H1 H2 Hr1 Hr2 Hi Hj.
  assert (Hi1 : i / m2 < m1) by (apply div_lt_rows; exact Hi).
  assert (Hi2 : i mod m2 < m2) by (apply (mod_lt_cols m1); exact Hi).
  assert (Hj1 : j / m2 < m1) by (apply div_lt_rows; exact Hj).
  assert (Hj2 : j mod m2 < m2) by (apply (mod_lt_cols m1); exact Hj).
  rewrite <- (get_mat (m1 * m2) (m1 * m2)
                (sandwich (n1 * n2) (tensor k1 k2) (tensor rho1 rho2)) i j)
    by assumption.
  rewrite <- (sandwich_mm (m1 * m2) (n1 * n2)) by (apply tensor_is_matrix; assumption).
  rewrite (tensor_mm m1 n1 n1 m2 n2 n2) by assumption.
  rewrite (dag_tensor m1 n1 m2 n2) by assumption.
  rewrite (tensor_mm m1 n1 m1 m2 n2 m2) by
    first [assumption
          |apply is_matrix_dag; assumption
          |apply (is_matrix_mm _ n1); assumption
          |apply (is_matrix_mm _ n2); assumption].
  rewrite (sandwich_mm m1 n1), (sandwich_mm m2 n2) by assumption.
  rewrite (get_tensor m1 m1 m2 m2) by (try apply is_matrix_mat; assumption).
  rewrite !get_mat by assumption. reflexivity.
Qed.

Lemma tensor_channels_pair (K1 K2 : list ndarray) (r1 c1 r2 c2 : nat) :
  Forall (is_matrix r1 c1) K1 -> Forall (is_matrix r2 c2) K2 ->
  tensor_channels [K1; K2] =
  Ok (flat_map (fun k1 => map (fun k2 => tensor k1 k2) K2) K1).
Proof.
  intros H1 H2. rewrite tensor_channels_value. f_equal.
  rewrite <- (flat_map_nth_range _ K1 (scalar C0)).
  cbn [map product]. rewrite map_flat_map.
  apply flat_map_ext_In. intros i Hi. apply in_seq in Hi.
  rewrite flat_map_concat_map, map_map. cbn [map app].
  rewrite <- (map_nth_range K2 (scalar C0)) at 2.
  rewrite concat_map, !map_map. rewrite <- flat_map_concat_map.
  rewrite <- (app_nil_r (map _ (range (length K2)))).
  induction (range (length K2)) as [|j js IH]; [reflexivity|].
  cbn [flat_map map app]. rewrite app_nil_r in *. f_equal; [|exact IH].
  unfold choose. cbn [combine map fold_left fst snd].
  rewrite (tensor_scalar_1_l r1 c1); [reflexivity|].
  rewrite Forall_forall in H1. apply H1, nth_In. lia.
Qed.

(** In exact arithmetic: on a product state [rho1 (x) rho2], the Kraus list
    [tensor_channels([K1, K2])] gives the tensor product of what [K1] gives
    on [rho1] and what [K2] gives on [rho2]. *)
Lemma tensor_channels_acts_factorwise (m1 n1 m2 n2 : nat)
    (K1 K2 : list ndarray) (rho1 rho2 : ndarray) :
  K1 <> [] -> K2 <> [] ->
  Forall (is_matrix m1 n1) K1 ->
  Forall (is_matrix m2 n2) K2 ->
  is_matrix n1 n1 rho1 ->
  is_matrix n2 n2 rho2 ->
  exists TK o1 o2,
    tensor_channels [K1; K2] = Ok TK /\
    apply_channel K1 rho1 None None false = Ok o1 /\
    apply_channel K2 rho2 None None false = Ok o2 /\
    apply_channel TK (tensor rho1 rho2) None None false = Ok (tensor o1 o2).
Proof.
  intros Hne1 Hne2 H1 H2 Hr1 Hr2. do 3 eexists.
  split; [apply (tensor_channels_pair K1 K2 m1 n1 m2 n2); assumption|].
  split; [apply (apply_channel_full m1 n1); assumption|].
  split; [apply (apply_channel_full m2 n2); assumption|].
  rewrite (apply_channel_full (m1 * m2) (n1 * n2)).
  - f_equal.
    rewrite (tensor_matrix m1 m1 m2 m2 (mat m1 m1 _) (mat m2 m2 _))
      by apply is_matrix_mat.
    apply mat_ext. intros i j Hi Hj.
    assert (Hi1 : i / m2 < m1) by (apply div_lt_rows; exact Hi).
    assert (Hi2 : i mod m2 < m2) by (apply (mod_lt_cols m1); exact Hi).
    assert (Hj1 : j / m2 < m1) by (apply div_lt_rows; exact Hj).
    assert (Hj2 : j mod m2 < m2) by (apply (mod_lt_cols m1); exact Hj).
    rewrite !get_mat by assumption.
    rewrite sum_over_flat_map, sum_over_mul_r.
    apply sum_over_ext. intros k1 Hk1.
    rewrite sum_over_map, sum_over_mul_l.
    apply sum_over_ext. intros k2 Hk2.
    rewrite Forall_forall in H1, H2.
    apply (sandwich_tensor m1 n1 m2 n2); auto.
  - destruct K1 as [|a K1']; [congruence|]. destruct K2 as [|b K2']; [congruence|].
    discriminate.
  - apply Forall_forall. intros x Hx. apply in_flat_map in Hx.
    destruct Hx as [k1 [Hk1 Hx]]. apply in_map_iff in Hx.
    destruct Hx as [k2 [<- Hk2]]. rewrite Forall_forall in H1, H2.
    apply tensor_is_matrix; auto.
  - apply tensor_is_matrix; assumption.
Qed.

(** ** The natural representation of a composition *)

Lemma np_conjugate_mm (m n p : nat) (a b : ndarray) :
  is_matrix m n a -> is_matrix n p b ->
  np_conjugate (mm a b) = mm (np_conjugate a) (np_conjugate b).
Proof.
  intros Ha Hb.
  assert (Hca : is_matrix m n (np_conjugate a))
    by (rewrite (np_conjugate_matrix m n) by exact Ha; apply is_matrix_mat).
  assert (Hcb : is_matrix n p (np_conjugate b))
    by (rewrite (np_conjugate_matrix n p) by exact Hb; apply is_matrix_mat).
  rewrite (np_conjugate_matrix m p) by (apply (is_matrix_mm m n p); assumption).
  rewrite (mm_mat m n p (np_conjugate a)) by assumption.
  apply mat_ext. intros i j Hi Hj. rewrite (get_mm m n p) by assumption.
  unfold bigsum. rewrite sum_over_conj. apply sum_over_ext. intros k Hk.
  apply in_seq in Hk.
  rewrite (np_conjugate_matrix m n a), (np_conjugate_matrix n p b) by assumption.
  rewrite !get_mat by (assumption || lia). apply Cconj_mul.
Qed.

Lemma get_tensor_conjugate (r c : nat) (k : ndarray) (i j : nat) :
  is_matrix r c k -> i < r * r -> j < c * c ->
  get (tensor k (np_conjugate k)) i j =
  Cmul (get k (i / r) (j / c)) (Cconj (get k (i mod r) (j mod c))).
Proof.
  intros Hk Hi Hj.
  assert (Hi2 : i mod r < r) by (apply (mod_lt_cols r); exact Hi).
  assert (Hj2 : j mod c < c) by (apply (mod_lt_cols c); exact Hj).
  rewrite (get_tensor r c r c) by
    (try assumption; rewrite (np_conjugate_matrix r c) by exact Hk; apply is_matrix_mat).
  rewrite (np_conjugate_matrix r c) by exact Hk.
  rewrite (get_mat r c) by assumption. reflexivity.
Qed.

(** In exact arithmetic: for two nonempty Kraus lists of [d] x [d] operators, the natural
    representation of [compose_channels([K1, K2])] is the matrix product of
    the natural representation of [K2] with that of [K1]. *)
Lemma natural_representation_of_composition (d : nat) (K1 K2 : list ndarray) :
  K1 <> [] -> K2 <> [] ->
  Forall (is_matrix d d) K1 ->
  Forall (is_matrix d d) K2 ->
  exists K12 N1 N2 N21,
    compose_channels [K1; K2] = Ok K12 /\
    natural_representation K1 = Ok N1 /\
    natural_representation K2 = Ok N2 /\
    matmul N2 N1 = Ok N21 /\
    natural_representation K12 = Ok N21.
Proof.
  intros Hne1 Hne2 H1 H2.
  assert (Hcomp : compose_channels [K1; K2] =
                  Ok (flat_map (fun a => map (fun k => mm k a) K2) K1)).
  { rewrite (compose_channels_extend_by d) by
      (try assumption; repeat constructor; assumption).
    rewrite extend_by_cons, extend_by_nil. reflexivity. }
  do 4 eexists. split; [exact Hcomp|].
  split; [apply (natural_representation_mat d d); assumption|].
  split; [apply (natural_representation_mat d d); assumption|].
  split; [apply (matmul_mat (d * d) (d * d) (d * d)); apply is_matrix_mat|].
  unfold natural_representation.
  set (T := fun k : ndarray => tensor k (np_conjugate k)).
  assert (HT : forall k, is_matrix d d k -> is_matrix (d * d) (d * d) (T k)).
  { intros k Hk. apply tensor_is_matrix; [exact Hk|].
    rewrite (np_conjugate_matrix d d) by exact Hk. apply is_matrix_mat. }
  rewrite (map_ext_in _ (fun x => mat (d * d) (d * d) (get (T x)))).
  - rewrite np_sum0_mat.
    + f_equal. apply mat_ext. intros i j Hi Hj.
      set (G := fun (k1 k2 : ndarray) (q : nat) =>
                  Cmul (get (T k2) i q) (get (T k1) q j)).
      transitivity (sum_over K1 (fun k1 => sum_over K2 (fun k2 =>
                      sum_over (seq 0 (d * d)) (G k1 k2)))).
      * rewrite sum_over_flat_map. apply sum_over_ext. intros k1 Hk1.
        rewrite sum_over_map. apply sum_over_ext. intros k2 Hk2.
        rewrite Forall_forall in H1, H2.
        pose proof (H1 k1 Hk1) as Hk1m. pose proof (H2 k2 Hk2) as Hk2m.
        assert (Hc1 : is_matrix d d (np_conjugate k1))
          by (rewrite (np_conjugate_matrix d d) by exact Hk1m; apply is_matrix_mat).
        assert (Hc2 : is_matrix d d (np_conjugate k2))
          by (rewrite (np_conjugate_matrix d d) by exact Hk2m; apply is_matrix_mat).
        unfold T at 1. rewrite (np_conjugate_mm d d d) by assumption.
        rewrite <- (tensor_mm d d d d d d) by assumption.
        rewrite (get_mm (d * d) (d * d) (d * d)) by
          (try apply tensor_is_matrix; assumption).
        reflexivity.
      * rewrite (sum_over_swap K1 K2).
        rewrite (sum_over_ext K2 _ (fun k2 =>
           sum_over (seq 0 (d * d)) (fun q => sum_over K1 (fun k1 => G k1 k2 q))))
          by (intros k2 _; apply sum_over_swap).
        rewrite (sum_over_swap K2 (seq 0 (d * d))).
        apply sum_over_ext. intros q Hq. apply in_seq in Hq.
        rewrite !get_mat by (assumption || lia).
        rewrite sum_over_mul_r. apply sum_over_ext. intros k2 Hk2.
        rewrite sum_over_mul_l. apply sum_over_ext. intros k1 Hk1.
        rewrite Forall_forall in H1, H2. unfold G, T.
        rewrite !(get_tensor_conjugate d d) by (auto || lia). reflexivity.
    + destruct K1 as [|a K1']; [congruence|]. destruct K2 as [|b K2']; [congruence|].
      discriminate.
  - intros x Hx. apply (mat_eta (d * d) (d * d)). apply HT.
    apply in_flat_map in Hx. destruct Hx as [k1 [Hk1 Hx]].
    apply in_map_iff in Hx. destruct Hx as [k2 [<- Hk2]].
    rewrite Forall_forall in H1, H2. apply (is_matrix_mm d d d); auto.
Qed.

End MoreFacts.


(** ** More on random maps and random measurements *)

Section MoreBackendFacts.

Context {scalars : Scalar}.
Context {backend : Backend}.

Add Ring scalar_ring_backend : C_sring.

(** X15: a [return_as] that is none of the four formats is no error: the
    Choi representation comes back, as for [return_as = "choi"]. *)
Theorem random_CP_map_unknown_format (dA dB : nat) (TP unital : bool)
    (return_as : string) (g : rng) :
  return_as <> "kraus"%string ->
  return_as <> "natural"%string ->
  return_as <> "stinespring"%string ->
  random_CP_map dA dB TP unital return_as g =
  random_CP_map dA dB TP unital "choi" g.
Proof.
  intros Hk Hn Hs. unfold random_CP_map.
  destruct (random_density_matrix (dA * dB) g) as [[C_AB g1]|e]; [|reflexivity].
  cbn [bind]. destruct (normalise_choi C_AB dA dB TP unital) as [[J|msg]|e];
    cbn [bind]; try reflexivity.
  apply String.eqb_neq in Hk, Hn, Hs. rewrite Hk, Hn, Hs.
  change (String.eqb "choi" "choi") with true. cbv iota.
  destruct (String.eqb return_as "choi"); reflexivity.
Qed.

(** The block [(I (x) <i|) C (I (x) |i>)] of a matrix on two subsystems of
    dimensions [d] and [n]. *)
Lemma bra_block_left (d n i : nat) (Cm : ndarray) :
  i < n -> is_matrix (d * n) (d * n) Cm ->
  mm (tensor (eye d) (dag (ket n i))) Cm =
  mat (d * 1) (d * n) (fun a c => get Cm (a * n + i) c).
Proof.
  intros Hi HC.
  assert (Hbra : is_matrix 1 n (dag (ket n i)))
    by (apply is_matrix_dag; apply is_matrix_mat).
  rewrite (mm_mat (d * 1) (d * n) (d * n)) by
    first [exact HC|apply tensor_is_matrix; [apply is_matrix_mat|exact Hbra]].
  apply mat_ext. intros a c Ha Hc.
  rewrite bigsum_flat.
  rewrite (bigsum_ext d _ (fun x => if x =? a then get Cm (x * n + i) c else C0)).
  - apply (bigsum_delta d a (fun x => get Cm (x * n + i) c)). lia.
  - intros x Hx.
    rewrite (bigsum_ext n _ (fun y =>
       if y =? i then (if x =? a then get Cm (x * n + y) c else C0) else C0)).
    + apply (bigsum_delta n i
               (fun y => if x =? a then get Cm (x * n + y) c else C0)). exact Hi.
    + intros y Hy.
      rewrite (get_tensor d d 1 n) by
        (try apply is_matrix_mat; try exact Hbra; try exact Ha; apply flat_lt; assumption).
      rewrite div_mul_add, mod_mul_add by exact Hy.
      rewrite Nat.div_1_r, Nat.mod_1_r.
      rewrite (get_dag n 1) by (try apply is_matrix_mat; lia).
      unfold eye, ket. rewrite !get_mat by lia.
      rewrite (Nat.eqb_sym a x).
      destruct (x =? a); destruct (y =? i);
        rewrite ?Cconj_1, ?Cconj_0; ring.
Qed.

Lemma ket_block_right (d n i : nat) (L : ndarray) :
  i < n -> is_matrix (d * 1) (d * n) L ->
  mm L (tensor (eye d) (ket n i)) =
  mat (d * 1) (d * 1) (fun a a' => get L a (a' * n + i)).
Proof.
  intros Hi HL.
  rewrite (mm_mat (d * 1) (d * n) (d * 1)) by
    (try exact HL; apply tensor_is_matrix; apply is_matrix_mat).
  apply mat_ext. intros a a' Ha Ha'.
  rewrite bigsum_flat.
  rewrite (bigsum_ext d _ (fun x => if x =? a' then get L a (x * n + i) else C0)).
  - apply (bigsum_delta d a' (fun x => get L a (x * n + i))). lia.
  - intros x Hx.
    rewrite (bigsum_ext n _ (fun y =>
       if y =? i then (if x =? a' then get L a (x * n + y) else C0) else C0)).
    + apply (bigsum_delta n i
               (fun y => if x =? a' then get L a (x * n + y) else C0)). exact Hi.
    + intros y Hy.
      rewrite (get_tensor d d n 1) by
        (try apply is_matrix_mat; try exact Ha'; apply flat_lt; assumption).
      rewrite div_mul_add, mod_mul_add by exact Hy.
      rewrite Nat.div_1_r, Nat.mod_1_r.
      unfold eye, ket. rewrite !get_mat by lia.
      destruct (x =? a'); destruct (y =? i); ring.
Qed.

Lemma mat_dims_eq (r r' c c' : nat) (f : nat -> nat -> C) :
  r = r' -> c = c' -> mat r c f = mat r' c' f.
Proof. intros -> ->. reflexivity. Qed.

Lemma povm_loop (d n : nat) (Cm : ndarray) (l : list nat) (M : list ndarray) :
  is_matrix (d * n) (d * n) Cm ->
  Forall (fun i => i < n) l ->
  foldM (fun M i =>
           l <- matmul (tensor (eye d) (dag (ket n i))) Cm ;;
           Mi <- matmul l (tensor (eye d) (ket n i)) ;;
           Ok (M ++ [Mi]))
        l M =
  Ok (M ++ map (fun i => mat d d (fun a a' => get Cm (a * n + i) (a' * n + i))) l).
Proof.
  intros HC Hl. revert M. induction Hl as [|i l Hi _ IH]; intros M.
  - simpl. rewrite app_nil_r. reflexivity.
  - cbn [foldM map].
    assert (Hbra : is_matrix (d * 1) (d * n) (tensor (eye d) (dag (ket n i))))
      by (apply tensor_is_matrix; [|apply is_matrix_dag]; apply is_matrix_mat).
    assert (Hket : is_matrix (d * n) (d * 1) (tensor (eye d) (ket n i)))
      by (apply tensor_is_matrix; apply is_matrix_mat).
    rewrite (matmul_mm (d * 1) (d * n) (d * n)) by assumption. cbn [bind].
    rewrite bra_block_left by assumption.
    rewrite (matmul_mm (d * 1) (d * n) (d * 1)) by (try apply is_matrix_mat; assumption).
    cbn [bind]. rewrite ket_block_right by (try apply is_matrix_mat; assumption).
    rewrite IH. rewrite <- app_assoc. cbn [app]. do 3 f_equal.
    rewrite (mat_dims_eq (d * 1) d (d * 1) d) by lia.
    apply mat_ext. intros a a' Ha Ha'.
    rewrite get_mat by (try lia; apply flat_lt; assumption). reflexivity.
Qed.

(** X14: when the sampled channel has the Choi matrix [C], square of
    dimension [d * num_elem], [random_POVM(d, num_elem)] returns [num_elem]
    elements, the [i]-th being the [d] x [d] block of [C] at the output
    index [i]: its entry [(a, a')] is [C[a * num_elem + i, a' * num_elem + i]]. *)
Theorem random_POVM_via_choi_blocks (d num_elem : nat) (g g' : rng)
    (Cm : ndarray) :
  random_quantum_channel d num_elem false "choi" g = Ok (AsArray Cm, g') ->
  is_matrix (d * num_elem) (d * num_elem) Cm ->
  random_POVM d num_elem true g =
  Ok (map (fun i => mat d d (fun a a' =>
                      get Cm (a * num_elem + i) (a' * num_elem + i)))
          (range num_elem), g').
Proof.
  intros Hchan HC. unfold random_POVM. rewrite Hchan. cbn [bind fst snd].
  rewrite (povm_loop d num_elem Cm (range num_elem) []).
  - reflexivity.
  - exact HC.
  - apply Forall_forall. intros i Hi. apply in_seq in Hi. lia.
Qed.

End MoreBackendFacts.


(** ** Numbers with subtraction form a ring *)

Section NumberFacts.

Context {scalars : Scalar}.
Context {numbers : Numbers}.

Section SemiRing.

Add Ring scalar_ring_numbers : C_sring.

Lemma Cadd_cancel_r (x y z : C) : Cadd x z = Cadd y z -> x = y.
Proof.
  intros H.
  transitivity (Cadd (Cadd x z) (Csub C0 z)).
  - transitivity (Cadd x (Cadd (Csub C0 z) z)); [rewrite Csub_add; ring|ring].
  - rewrite H.
    transitivity (Cadd y (Cadd (Csub C0 z) z)); [ring|rewrite Csub_add; ring].
Qed.

Lemma Csub_def (x y : C) : Csub x y = Cadd x (Cmul (Csub C0 C1) y).
Proof.
  apply (Cadd_cancel_r _ _ y). rewrite Csub_add.
  transitivity (Cadd x (Cmul (Cadd (Csub C0 C1) C1) y)); [|ring].
  rewrite Csub_add. ring.
Qed.

Lemma numbers_ring :
  ring_theory C0 C1 Cadd Cmul Csub (fun x => Csub C0 x) eq.
Proof.
  destruct C_sring.
  constructor; auto.
  - intros x y. rewrite (Csub_def x y), (Csub_def C0 y).
    rewrite SRadd_0_l. reflexivity.
  - intros x. rewrite SRadd_comm. apply Csub_add.
Qed.

End SemiRing.

Add Ring numbers_ring_facts : numbers_ring.

Lemma Cconj_sub (x y : C) : Cconj (Csub x y) = Csub (Cconj x) (Cconj y).
Proof.
  transitivity (Csub (Cadd (Cconj (Csub x y)) (Cconj y)) (Cconj y)); [ring|].
  rewrite <- Cconj_add, Csub_add. reflexivity.
Qed.

Lemma Cconj_i : Cconj Ci = Csub C0 Ci.
Proof.
  transitivity (Csub (Cadd (Cconj Ci) Ci) Ci); [ring|].
  rewrite Ci_conj. reflexivity.
Qed.

Lemma Ci_mul : Cmul Ci Ci = Csub C0 C1.
Proof.
  transitivity (Csub (Cadd (Cmul Ci Ci) C1) C1); [ring|].
  rewrite Ci_square. reflexivity.
Qed.

Lemma Csub_0_r (x : C) : Csub x C0 = x.
Proof. ring. Qed.

Lemma list4_eq {A : Type} (a b c d a' b' c' d' : A) :
  a = a' -> b = b' -> c = c' -> d = d' -> [a; b; c; d] = [a'; b'; c'; d'].
Proof. intros -> -> -> ->. reflexivity. Qed.

End NumberFacts.

(** Both sides of an equation between 2 x 2 arrays are computed down to
    their four entries, with the conjugations pushed to the atoms. *)
Ltac entries :=
  cbv -[C Cadd Cmul Cconj Csqrt Csub Cdiv Ci C0 C1];
  rewrite ?Cconj_mul, ?Cconj_sub, ?Cconj_0, ?Cconj_1, ?Cconj_i;
  do 2 f_equal; apply list4_eq.

(** ** The damping channels *)

Section DampingFacts.

Context {scalars : Scalar}.
Context {numbers : Numbers}.

Add Ring numbers_ring_damping : numbers_ring.

(** X16 (phase_damping_channel): when [sqrt] returns square roots of [p] and
    of [1 - p], the two operators satisfy [sum_i dag(K_i) @ K_i = eye(2)]. *)
Theorem phase_damping_channel_trace_preserving (p : C) :
  Cmul (Csqrt p) (Cconj (Csqrt p)) = p ->
  Cmul (Csqrt (Csub C1 p)) (Cconj (Csqrt (Csub C1 p))) = Csub C1 p ->
  kraus_sum (phase_damping_channel p) = Ok (eye 2).
Proof.
  intros H1 H2. unfold phase_damping_channel. entries; ring [H1 H2].
Qed.

(** X17 (phase_damping_channel): the channel returns the upper left entry
    of a 2 x 2 array as it is, the entry beside it times [conj(sqrt(p))]
    and the entry below it times [sqrt(p)]; the lower right entry [d]
    becomes [sqrt(p) * d * conj(sqrt(p)) +
    sqrt(1 - p) * d * conj(sqrt(1 - p))].  The other products of the two
    matrix products have a factor zero, so that this is what the code
    computes in floating point as well. *)
Theorem phase_damping_channel_action (p a b c d : C) :
  apply_channel (phase_damping_channel p) (matrix2 a b c d) None None false =
  Ok (matrix2 a
        (Cmul b (Cconj (Csqrt p)))
        (Cmul (Csqrt p) c)
        (Cadd (Cmul (Cmul (Csqrt p) d) (Cconj (Csqrt p)))
              (Cmul (Cmul (Csqrt (Csub C1 p)) d)
                    (Cconj (Csqrt (Csub C1 p)))))).
Proof.
  unfold phase_damping_channel. entries; ring.
Qed.

(** X18 (amplitude_damping_channel): when [sqrt] returns square roots of
    [gamma] and of [1 - gamma], the two operators satisfy
    [sum_i dag(A_i) @ A_i = eye(2)]. *)
Theorem amplitude_damping_channel_trace_preserving (gamma : C) :
  Cmul (Csqrt gamma) (Cconj (Csqrt gamma)) = gamma ->
  Cmul (Csqrt (Csub C1 gamma)) (Cconj (Csqrt (Csub C1 gamma))) = Csub C1 gamma ->
  kraus_sum (amplitude_damping_channel gamma) = Ok (eye 2).
Proof.
  intros H1 H2. unfold amplitude_damping_channel. entries; ring [H1 H2].
Qed.

(** X19 (amplitude_damping_channel): the channel adds
    [sqrt(gamma) * d * conj(sqrt(gamma))] to the upper left entry [a] of a
    2 x 2 array, returns the entry beside it times [conj(sqrt(1 - gamma))]
    and the entry below it times [sqrt(1 - gamma)], and turns the lower
    right entry [d] into [sqrt(1 - gamma) * d * conj(sqrt(1 - gamma))].
    The other products have a factor zero, so that this is what the code
    computes in floating point as well. *)
Theorem amplitude_damping_channel_action (gamma a b c d : C) :
  apply_channel (amplitude_damping_channel gamma) (matrix2 a b c d)
                None None false =
  Ok (matrix2
        (Cadd a (Cmul (Cmul (Csqrt gamma) d) (Cconj (Csqrt gamma))))
        (Cmul b (Cconj (Csqrt (Csub C1 gamma))))
        (Cmul (Csqrt (Csub C1 gamma)) c)
        (Cmul (Cmul (Csqrt (Csub C1 gamma)) d)
              (Cconj (Csqrt (Csub C1 gamma))))).
Proof.
  unfold amplitude_damping_channel. entries; ring.
Qed.

(** X20 (generalized_amplitude_damping_channel): for [N = 1] the function
    takes its second branch, and when [sqrt] returns square roots of
    [gamma] and of [1 - gamma] the two operators of that branch satisfy
    [sum_i dag(A_i) @ A_i = eye(2)]. *)
Theorem generalized_amplitude_damping_one_trace_preserving (gamma : C) :
  C1 <> C0 ->
  Cmul (Csqrt gamma) (Cconj (Csqrt gamma)) = gamma ->
  Cmul (Csqrt (Csub C1 gamma)) (Cconj (Csqrt (Csub C1 gamma))) = Csub C1 gamma ->
  generalized_amplitude_damping_channel gamma C1 =
    [matrix2 (Csqrt (Csub C1 gamma)) C0 C0 C1;
     matrix2 C0 C0 (Csqrt gamma) C0] /\
  kraus_sum (generalized_amplitude_damping_channel gamma C1) = Ok (eye 2).
Proof.
  intros H10 H1 H2. unfold generalized_amplitude_damping_channel.
  destruct (Ceqb C1 C0) eqn:E0; [apply Ceqb_eq in E0; contradiction|].
  destruct (Ceqb C1 C1) eqn:E1.
  - split; [reflexivity|]. entries; ring [H1 H2].
  - assert (E : Ceqb C1 C1 = true) by (apply Ceqb_eq; reflexivity).
    rewrite E in E1. discriminate.
Qed.

(** In exact arithmetic: in each of the three branches, when [sqrt] returns
    square roots of [gamma], [1 - gamma], [N] and [1 - N], the operators
    satisfy [sum_i dag(A_i) @ A_i = eye(2)].  In the branch of four
    operators the code's sum is rounded. *)
Lemma generalized_amplitude_damping_trace_preserving (gamma N : C) :
  Cmul (Csqrt gamma) (Cconj (Csqrt gamma)) = gamma ->
  Cmul (Csqrt (Csub C1 gamma)) (Cconj (Csqrt (Csub C1 gamma))) = Csub C1 gamma ->
  Cmul (Csqrt N) (Cconj (Csqrt N)) = N ->
  Cmul (Csqrt (Csub C1 N)) (Cconj (Csqrt (Csub C1 N))) = Csub C1 N ->
  kraus_sum (generalized_amplitude_damping_channel gamma N) = Ok (eye 2).
Proof.
  intros H1 H2 H3 H4. unfold generalized_amplitude_damping_channel.
  destruct (Ceqb N C0); [|destruct (Ceqb N C1)].
  - unfold amplitude_damping_channel. entries; ring [H1 H2].
  - entries; ring [H1 H2].
  - entries; ring [H1 H2 H3 H4].
Qed.

End DampingFacts.
(** ** Isometric extensions *)

Section IsometryFacts.

Context {scalars : Scalar}.
Context {numbers : Numbers}.
Context {backend : Backend}.
Context {isometry_backend : IsometryBackend}.

Add Ring numbers_ring_isometry : numbers_ring.

Lemma bind_ok_inv {A B : Type} (c : result A) (k : A -> result B) (y : B) :
  bind c k = Ok y -> exists x, c = Ok x /\ k x = Ok y.
Proof. destruct c as [x|e]; simpl; intros H; [eauto|discriminate]. Qed.

Lemma sum_over_nth {A : Type} (K : list A) (d : A) (f : A -> C) :
  sum_over K f = bigsum (length K) (fun e => f (nth e K d)).
Proof.
  rewrite <- (map_nth_range K d) at 1. rewrite sum_over_map. reflexivity.
Qed.

Lemma isometry_terms (dA dB : nat) (K : list ndarray) :
  Forall (is_matrix dB dA) K ->
  mapM (fun i => Ki <- py_index K i ;; Ok (tensor Ki (ket (length K) i)))
       (range (length K)) =
  Ok (map (fun i => mat (dB * length K) (dA * 1) (fun r c =>
          Cmul (get (nth i K (scalar C0)) (r / length K) (c / 1))
               (get (ket (length K) i) (r mod length K) (c mod 1)))) (range (length K))).
Proof.
  intros HK. apply mapM_ok.
  intros i Hi. unfold range in Hi. apply in_seq in Hi.
  rewrite (py_index_lt K i (scalar C0)) by lia. cbn [bind]. f_equal.
  apply tensor_matrix; [|apply is_matrix_mat].
  rewrite Forall_forall in HK. apply HK. apply nth_In. lia.
Qed.

(** The matrix [V = sum_i K_i (x) |i>]: row [b * dimE + e] of [V] is row [b]
    of [K_e]. *)
Lemma isometry_V (dA dB : nat) (K : list ndarray) :
  K <> [] ->
  np_sum0 (map (fun i => mat (dB * length K) (dA * 1) (fun r c =>
          Cmul (get (nth i K (scalar C0)) (r / length K) (c / 1))
               (get (ket (length K) i) (r mod length K) (c mod 1)))) (range (length K))) =
  Ok (mat (dB * length K) dA
          (fun r c => get (nth (r mod length K) K (scalar C0)) (r / length K) c)).
Proof.
  intros Hne.
  assert (Hlen : 0 < length K) by (destruct K; [congruence|simpl; lia]).
  rewrite (np_sum0_mat (dB * length K) (dA * 1)
             (fun i r c =>
                Cmul (get (nth i K (scalar C0)) (r / length K) (c / 1))
                     (get (ket (length K) i) (r mod length K) (c mod 1)))).
  - f_equal. rewrite Nat.mul_1_r. apply mat_ext. intros r c Hr Hc.
    change (sum_over (range (length K))) with (bigsum (length K)).
    rewrite Nat.div_1_r, Nat.mod_1_r.
    rewrite (bigsum_ext _ _ (fun i => if i =? r mod length K
        then get (nth i K (scalar C0)) (r / length K) c else C0)).
    + apply (bigsum_delta (length K) (r mod length K)
               (fun i => get (nth i K (scalar C0)) (r / length K) c)).
      apply Nat.mod_upper_bound. lia.
    + intros i Hi. unfold ket. rewrite get_mat;
        [|apply Nat.mod_upper_bound; lia|lia].
      rewrite (Nat.eqb_sym i). destruct (r mod length K =? i); ring.
  - unfold range. destruct (length K); [lia|discriminate].
Qed.

(** [dag(V) @ V] is the sum that the trace-preservation condition compares
    with the identity. *)
Lemma isometry_gram (dA dB : nat) (K : list ndarray) :
  K <> [] -> Forall (is_matrix dB dA) K ->
  let V := mat (dB * length K) dA
             (fun r c => get (nth (r mod length K) K (scalar C0)) (r / length K) c) in
  matmul (dag V) V = kraus_sum K.
Proof.
  intros Hne HK V.
  assert (Hlen : 0 < length K) by (destruct K; [congruence|simpl; lia]).
  assert (HV : is_matrix (dB * length K) dA V) by apply is_matrix_mat.
  unfold kraus_sum. rewrite (kraus_gram_mat dA dB) by assumption.
  rewrite (matmul_mat dA (dB * length K) dA);
    [|apply is_matrix_dag; exact HV|exact HV].
  f_equal. apply mat_ext. intros q p Hq Hp.
  rewrite bigsum_flat.
  rewrite (sum_over_nth K (scalar C0)).
  unfold bigsum. rewrite sum_over_swap.
  apply sum_over_ext. intros e He. apply in_seq in He.
  apply sum_over_ext. intros b Hb. apply in_seq in Hb.
  assert (Hr : b * length K + e < dB * length K) by nia.
  rewrite (get_dag (dB * length K) dA) by (try exact HV; lia).
  unfold V. rewrite !get_mat by lia.
  rewrite Nat.add_comm, Nat.Div0.mod_add, Nat.div_add by lia.
  rewrite Nat.mod_small, Nat.div_small by lia. reflexivity.
Qed.

(** The rows of [V]: row [b * dimE + e] is row [b] of [K_e]. *)
Lemma isometry_rows (dA dB : nat) (K : list ndarray) (b e a : nat) :
  b < dB -> e < length K -> a < dA ->
  get (mat (dB * length K) dA
           (fun r c => get (nth (r mod length K) K (scalar C0)) (r / length K) c))
      (b * length K + e) a =
  get (nth e K (scalar C0)) b a.
Proof.
  intros Hb He Ha. rewrite get_mat by (try exact Ha; nia).
  rewrite Nat.add_comm, Nat.Div0.mod_add, Nat.div_add by lia.
  rewrite Nat.mod_small, Nat.div_small by lia. reflexivity.
Qed.

(** X21 (generate_channel_isometry): for operators from dimension [dA] to a
    different dimension [dB] the function returns only [V], draws nothing
    from the random source, and row [b * dimE + e] of [V] is row [b] of the
    operator [K_e].  Each entry of [V] is one entry of one operator plus
    zeros, in floating point as well. *)
Theorem generate_channel_isometry_rectangular
    (dA dB : nat) (K : list ndarray) (g : rng) :
  dA <> dB -> K <> [] -> Forall (is_matrix dB dA) K ->
  exists V,
    generate_channel_isometry K dA dB g = Ok (IsoV V, g) /\
    is_matrix (dB * length K) dA V /\
    forall b e a, b < dB -> e < length K -> a < dA ->
      get V (b * length K + e) a = get (nth e K (scalar C0)) b a.
Proof.
  intros Hd Hne HK.
  exists (mat (dB * length K) dA
            (fun r c => get (nth (r mod length K) K (scalar C0)) (r / length K) c)).
  split; [|split].
  - unfold generate_channel_isometry.
    rewrite (isometry_terms dA dB K HK). cbn [bind].
    rewrite (isometry_V dA dB K Hne). cbn [bind].
    apply Nat.eqb_neq in Hd. rewrite Hd. reflexivity.
  - apply is_matrix_mat.
  - intros b e a. apply isometry_rows.
Qed.

(** In exact arithmetic: [dag(V) @ V] is [sum_i dag(K_i) @ K_i].  The two
    sides add the same products in different orders. *)
Lemma generate_channel_isometry_gram
    (dA dB : nat) (K : list ndarray) (g : rng) :
  dA <> dB -> K <> [] -> Forall (is_matrix dB dA) K ->
  exists V,
    generate_channel_isometry K dA dB g = Ok (IsoV V, g) /\
    matmul (dag V) V = kraus_sum K.
Proof.
  intros Hd Hne HK.
  exists (mat (dB * length K) dA
            (fun r c => get (nth (r mod length K) K (scalar C0)) (r / length K) c)).
  split.
  - unfold generate_channel_isometry.
    rewrite (isometry_terms dA dB K HK). cbn [bind].
    rewrite (isometry_V dA dB K Hne). cbn [bind].
    apply Nat.eqb_neq in Hd. rewrite Hd. reflexivity.
  - apply (isometry_gram dA dB K Hne HK).
Qed.

(** Whatever [generate_channel_isometry] returns for square operators, its
    first component is the matrix [V] above. *)
Lemma generate_channel_isometry_square
    (d : nat) (K : list ndarray) (g g' : rng) (val : isometry_value) :
  K <> [] -> Forall (is_matrix d d) K ->
  generate_channel_isometry K d d g = Ok (val, g') ->
  exists U, val = IsoVU
    (mat (d * length K) d
         (fun r c => get (nth (r mod length K) K (scalar C0)) (r / length K) c)) U.
Proof.
  intros Hne HK. unfold generate_channel_isometry.
  rewrite (isometry_terms d d K HK). cbn [bind].
  rewrite (isometry_V d d K Hne). cbn [bind]. rewrite Nat.eqb_refl.
  intros H.
  apply bind_ok_inv in H. destruct H as [ket0 [_ H]].
  apply bind_ok_inv in H. destruct H as [states [_ H]].
  apply bind_ok_inv in H. destruct H as [[states' g1] [_ H]].
  apply bind_ok_inv in H. destruct H as [states_new [_ H]].
  apply bind_ok_inv in H. destruct H as [cU [_ H]].
  apply Ok_inj in H. exists (snd cU). congruence.
Qed.

(** X29 (generate_channel_isometry): for square operators, whatever the
    random vectors and [gram_schmidt] are, a call that returns gives a
    pair of [V] and [U], and row [b * dimE + e] of [V] is row [b] of the
    operator [K_e]. *)
Theorem generate_channel_isometry_square_rows
    (d : nat) (K : list ndarray) (g g' : rng) (val : isometry_value) :
  K <> [] -> Forall (is_matrix d d) K ->
  generate_channel_isometry K d d g = Ok (val, g') ->
  exists V U,
    val = IsoVU V U /\
    is_matrix (d * length K) d V /\
    forall b e a, b < d -> e < length K -> a < d ->
      get V (b * length K + e) a = get (nth e K (scalar C0)) b a.
Proof.
  intros Hne HK H.
  destruct (generate_channel_isometry_square d K g g' val Hne HK H) as [U ->].
  eexists. exists U. split; [reflexivity|].
  split; [apply is_matrix_mat|].
  intros b e a. apply isometry_rows.
Qed.

(** ** The Pauli channels *)

(** The operators and the matrix [V] that [Pauli_channel] returns. *)
Lemma Pauli_channel_returns (px py pz : C) (g g' : rng)
    (K : list ndarray) (V U : ndarray) :
  Pauli_channel px py pz g = Ok ((K, V, U), g') ->
  K = [scale (Csqrt (Csub (Csub (Csub C1 px) py) pz)) (eye 2);
       scale (Csqrt px) (matrix2 C0 C1 C1 C0);
       scale (Csqrt py) (matrix2 C0 (Csub C0 Ci) Ci C0);
       scale (Csqrt pz) (matrix2 C1 C0 C0 (Csub C0 C1))] /\
  Forall (is_matrix 2 2) K /\
  V = mat (2 * length K) 2
          (fun r c => get (nth (r mod length K) K (scalar C0)) (r / length K) c).
Proof.
  unfold Pauli_channel.
  set (K0 := [scale (Csqrt (Csub (Csub (Csub C1 px) py) pz)) (eye 2);
              scale (Csqrt px) (matrix2 C0 C1 C1 C0);
              scale (Csqrt py) (matrix2 C0 (Csub C0 Ci) Ci C0);
              scale (Csqrt pz) (matrix2 C1 C0 C0 (Csub C0 C1))]).
  assert (HK0 : Forall (is_matrix 2 2) K0)
    by (repeat constructor).
  intros H. apply bind_ok_inv in H. destruct H as [[val g1] [Hg H]].
  cbn [fst snd] in H.
  apply generate_channel_isometry_square in Hg;
    [|discriminate|exact HK0].
  destruct Hg as [U' ->]. apply Ok_inj in H.
  injection H as HK HV HU Hg. subst K. split; [reflexivity|].
  split; [exact HK0|]. symmetry. exact HV.
Qed.

(** X24 (bit_flip_channel): with [s = sqrt(1 - p)] and [t = sqrt(p)], and
    [sqrt(0) = 0], the returned operators send a 2 x 2 array [rho] to
    [s * rho * conj(s) + t * (X @ rho @ X) * conj(t)], entry by entry: the
    second summand has the rows and the columns of [rho] exchanged.  The
    operators for [Y] and [Z] are zero and add zeros, so that this is what
    the code computes in floating point as well. *)
Theorem bit_flip_channel_action (p a b c d : C) (g g' : rng)
    (K : list ndarray) (V U : ndarray) :
  bit_flip_channel p g = Ok ((K, V, U), g') ->
  Csqrt C0 = C0 ->
  let s := Csqrt (Csub C1 p) in
  let t := Csqrt p in
  apply_channel K (matrix2 a b c d) None None false =
  Ok (matrix2
        (Cadd (Cmul (Cmul s a) (Cconj s)) (Cmul (Cmul t d) (Cconj t)))
        (Cadd (Cmul (Cmul s b) (Cconj s)) (Cmul (Cmul t c) (Cconj t)))
        (Cadd (Cmul (Cmul s c) (Cconj s)) (Cmul (Cmul t b) (Cconj t)))
        (Cadd (Cmul (Cmul s d) (Cconj s)) (Cmul (Cmul t a) (Cconj t)))).
Proof.
  intros H H0 s t. unfold bit_flip_channel in H.
  destruct (Pauli_channel_returns _ _ _ _ _ _ _ _ H) as [HK _].
  rewrite HK. rewrite !Csub_0_r, H0. unfold s, t. entries; ring.
Qed.

(** X25 (dephasing_channel): for [d = 2] and a number [p], with
    [s = sqrt(1 - p)] and [t = sqrt(p)], and [sqrt(0) = 0], the returned
    operators send a 2 x 2 array [rho] to
    [s * rho * conj(s) + t * (Z @ rho @ Z) * conj(t)], entry by entry: the
    second summand is added on the diagonal and subtracted off it.  The
    operators for [X] and [Y] are zero and add zeros, so that this is what
    the code computes in floating point as well. *)
Theorem dephasing_channel_qubit_action (p a b c d : C) (g g' : rng)
    (K : list ndarray) (V U : ndarray) :
  dephasing_channel (inl p) 2 g = Ok (DephasingTriple (K, V, U), g') ->
  Csqrt C0 = C0 ->
  let s := Csqrt (Csub C1 p) in
  let t := Csqrt p in
  apply_channel K (matrix2 a b c d) None None false =
  Ok (matrix2
        (Cadd (Cmul (Cmul s a) (Cconj s)) (Cmul (Cmul t a) (Cconj t)))
        (Csub (Cmul (Cmul s b) (Cconj s)) (Cmul (Cmul t b) (Cconj t)))
        (Csub (Cmul (Cmul s c) (Cconj s)) (Cmul (Cmul t c) (Cconj t)))
        (Cadd (Cmul (Cmul s d) (Cconj s)) (Cmul (Cmul t d) (Cconj t)))).
Proof.
  intros H H0 s t. unfold dephasing_channel in H. cbn [Nat.eqb] in H.
  apply bind_ok_inv in H. destruct H as [[[[K1 V1] U1] g1] [H E]].
  apply Ok_inj in E. cbn [fst snd] in E.
  injection E as EK EV EU Eg. subst K1.
  destruct (Pauli_channel_returns _ _ _ _ _ _ _ _ H) as [HK _].
  rewrite HK. rewrite !Csub_0_r, H0. unfold s, t. entries; ring.
Qed.

(** In exact arithmetic: when [sqrt] returns square roots of the four
    weights, the operators that [Pauli_channel] returns satisfy
    [sum_i dag(K_i) @ K_i = eye(2)], the matrix [V] it returns is an
    isometry, and the operators send a 2 x 2 array to the mixture of its
    four Pauli conjugates with weights [pI], [px], [py] and [pz].  The code
    rounds each of these sums. *)
Lemma Pauli_channel_exact (px py pz a b c d : C) (g g' : rng)
    (K : list ndarray) (V U : ndarray) :
  Pauli_channel px py pz g = Ok ((K, V, U), g') ->
  Cmul (Csqrt (Csub (Csub (Csub C1 px) py) pz))
       (Cconj (Csqrt (Csub (Csub (Csub C1 px) py) pz))) =
    Csub (Csub (Csub C1 px) py) pz ->
  Cmul (Csqrt px) (Cconj (Csqrt px)) = px ->
  Cmul (Csqrt py) (Cconj (Csqrt py)) = py ->
  Cmul (Csqrt pz) (Cconj (Csqrt pz)) = pz ->
  let pI := Csub (Csub (Csub C1 px) py) pz in
  kraus_sum K = Ok (eye 2) /\
  matmul (dag V) V = Ok (eye 2) /\
  apply_channel K (matrix2 a b c d) None None false =
  Ok (matrix2
        (Cadd (Cadd (Cadd (Cmul pI a) (Cmul px d)) (Cmul py d)) (Cmul pz a))
        (Csub (Csub (Cadd (Cmul pI b) (Cmul px c)) (Cmul py c)) (Cmul pz b))
        (Csub (Csub (Cadd (Cmul pI c) (Cmul px b)) (Cmul py b)) (Cmul pz c))
        (Cadd (Cadd (Cadd (Cmul pI d) (Cmul px a)) (Cmul py a)) (Cmul pz d))).
Proof.
  intros H HI Hx Hy Hz pI.
  destruct (Pauli_channel_returns _ _ _ _ _ _ _ _ H) as [HK [HF HV]].
  assert (Hsum : kraus_sum K = Ok (eye 2))
    by (rewrite HK; entries; ring [HI Hx Hy Hz Ci_mul]).
  split; [exact Hsum|]. split.
  - rewrite HV, <- Hsum. apply (isometry_gram 2 2 K); [|exact HF].
    rewrite HK. discriminate.
  - rewrite HK. unfold pI. entries; ring [HI Hx Hy Hz Ci_mul].
Qed.

End IsometryFacts.


(** ** Equality of arrays of Gaussian rationals *)

Lemma rat_eqb_eq (x y : Qc * Qc) : rat_eqb x y = true -> x = y.
Proof.
  destruct x as [a b], y as [c d]. unfold rat_eqb. cbn [fst snd].
  rewrite andb_true_iff. intros [E1 E2].
  apply Qc_eq_bool_correct in E1. apply Qc_eq_bool_correct in E2.
  subst. reflexivity.
Qed.

Lemma rat_list_eqb_eq (l l' : list (Qc * Qc)) :
  rat_list_eqb l l' = true -> l = l'.
Proof.
  revert l'. induction l as [|x r IH]; intros [|y r']; simpl;
    try discriminate; [reflexivity|].
  rewrite andb_true_iff. intros [E1 E2].
  apply rat_eqb_eq in E1. apply IH in E2. subst. reflexivity.
Qed.

Lemma rat_array_eqb_eq (a b : @ndarray GaussRat) :
  rat_array_eqb a b = true -> a = b.
Proof.
  destruct a as [sa da], b as [sb db]. unfold rat_array_eqb. cbn [shape data].
  rewrite andb_true_iff. intros [E1 E2].
  apply shape_eqb_eq in E1. apply rat_list_eqb_eq in E2. subst. reflexivity.
Qed.

Lemma rat_arrays_eqb_eq (l l' : list (@ndarray GaussRat)) :
  rat_arrays_eqb l l' = true -> l = l'.
Proof.
  revert l'. induction l as [|x r IH]; intros [|y r']; simpl;
    try discriminate; [reflexivity|].
  rewrite andb_true_iff. intros [E1 E2].
  apply rat_array_eqb_eq in E1. apply IH in E2. subst. reflexivity.
Qed.

(** A run that ends with an empty tape and arrays equal, entry by entry,
    to given ones returns these. *)
Lemma rat_choi_run (r : result (cp_map_value * list (@ndarray GaussRat)))
    (Cm : @ndarray GaussRat) :
  match r with
  | Ok (AsArray c, []) => rat_array_eqb c Cm
  | _ => false
  end = true ->
  r = Ok (AsArray Cm, []).
Proof.
  destruct r as [[[c|K|m] [|x g]]|e]; try discriminate.
  intros E. apply rat_array_eqb_eq in E. subst. reflexivity.
Qed.

Lemma rat_triple_run
    (r : result ((list (@ndarray GaussRat) * @ndarray GaussRat *
                  @ndarray GaussRat) * list (@ndarray GaussRat)))
    (K : list (@ndarray GaussRat)) (V U : @ndarray GaussRat) :
  match r with
  | Ok ((K', V', U'), []) =>
      rat_arrays_eqb K' K && rat_array_eqb V' V && rat_array_eqb U' U
  | _ => false
  end = true ->
  r = Ok ((K, V, U), []).
Proof.
  destruct r as [[[[K' V'] U'] [|x g]]|e]; try discriminate.
  rewrite !andb_true_iff. intros [[E1 E2] E3].
  apply rat_arrays_eqb_eq in E1. apply rat_array_eqb_eq in E2.
  apply rat_array_eqb_eq in E3. subst. reflexivity.
Qed.

Lemma rat_dephasing_run
    (r : result (@dephasing_value GaussRat * list (@ndarray GaussRat)))
    (K : list (@ndarray GaussRat)) (V U : @ndarray GaussRat) :
  match r with
  | Ok (DephasingTriple (K', V', U'), []) =>
      rat_arrays_eqb K' K && rat_array_eqb V' V && rat_array_eqb U' U
  | _ => false
  end = true ->
  r = Ok (DephasingTriple (K, V, U), []).
Proof.
  destruct r as [[[[[K' V'] U']|K'] [|x g]]|e]; try discriminate.
  rewrite !andb_true_iff. intros [[E1 E2] E3].
  apply rat_arrays_eqb_eq in E1. apply rat_array_eqb_eq in E2.
  apply rat_array_eqb_eq in E3. subst. reflexivity.
Qed.

Lemma rat_isometry_run
    (r : result (@isometry_value GaussRat * list (@ndarray GaussRat)))
    (V U : @ndarray GaussRat) :
  match r with
  | Ok (IsoVU V' U', []) => rat_array_eqb V' V && rat_array_eqb U' U
  | _ => false
  end = true ->
  r = Ok (IsoVU V U, []).
Proof.
  destruct r as [[[V'|V' U'] [|x g]]|e]; try discriminate.
  rewrite andb_true_iff. intros [E1 E2].
  apply rat_array_eqb_eq in E1. apply rat_array_eqb_eq in E2.
  subst. reflexivity.
Qed.

(** * Concrete inputs *)

(** ** The code run on small inputs *)

(** The reset channel sends [rho] to [Tr(rho) |0><0|]. *)
Example apply_reset_channel :
  apply_channel reset_channel rho_qubit None None false =
  Ok (gauss_matrix 2 2 [(3, 0); (0, 0); (0, 0); (0, 0)]%Z).
Proof. reflexivity. Qed.

(** On a one-dimensional array the matrix products treat it as a column and
    then as a row, and a one-dimensional array comes back. *)
Example apply_reset_channel_vector :
  apply_channel reset_channel (@mk_array GaussInt [2] [(1, 0); (2, 0)]%Z)
                None None false =
  Ok (@mk_array GaussInt [2] [(1, 0); (0, 0)]%Z).
Proof. reflexivity. Qed.

(** With no operators and equal dimensions [generate_channel_isometry]
    asks for the first vector of an empty basis. *)
Example generate_channel_isometry_no_operators :
  generate_channel_isometry (isometry_backend := rat_isometry_backend)
                            [] 2 2 [] =
  Raise IndexError.
Proof. reflexivity. Qed.

(** Its Choi matrix is [|00><00| + |10><10|]. *)
Example choi_reset_channel :
  choi_representation reset_channel 2 =
  Ok (gauss_matrix 4 4
        [(1, 0); (0, 0); (0, 0); (0, 0);
         (0, 0); (0, 0); (0, 0); (0, 0);
         (0, 0); (0, 0); (1, 0); (0, 0);
         (0, 0); (0, 0); (0, 0); (0, 0)]%Z).
Proof. reflexivity. Qed.

(** [|0><1|] first, then the reset channel: the operators [K0 @ K1] and
    [K1 @ K1]. *)
Example compose_reset_after_K1 :
  compose_channels [[reset_K1]; reset_channel] =
  Ok [reset_K1; gauss_matrix 2 2 [(0, 0); (0, 0); (0, 0); (0, 0)]%Z].
Proof. reflexivity. Qed.

(** The diagonal Choi matrix of the reset channel, taken apart by
    [choi_to_kraus] with an exact eigensolver, and put together again. *)
Example choi_to_kraus_reset_channel :
  (J <- choi_representation reset_channel 2 ;;
   choi_to_kraus (backend := test_backend) J 2 2) =
  Ok [reset_K0; gauss_matrix 2 2 [(0, 0); (0, 0); (0, 0); (0, 0)]%Z;
      reset_K1; gauss_matrix 2 2 [(0, 0); (0, 0); (0, 0); (0, 0)]%Z].
Proof. reflexivity. Qed.

Example choi_round_trip_reset_channel :
  (J <- choi_representation reset_channel 2 ;;
   K <- choi_to_kraus (backend := test_backend) J 2 2 ;;
   choi_representation K 2) =
  choi_representation reset_channel 2.
Proof. reflexivity. Qed.

(** A later empty Kraus list gives no operator at all. *)
Example compose_channels_empty_later :
  compose_channels [reset_channel; []] = Ok [].
Proof. reflexivity. Qed.

(** Two uses of a two-operator map from a qubit to a qutrit: four operators
    of shape 9 x 4. *)
Example n_channel_uses_shapes :
  (K_n <- n_channel_uses qutrit_map 2 ;; Ok (map shape K_n)) =
  Ok [[9; 4]; [9; 4]; [9; 4]; [9; 4]].
Proof. reflexivity. Qed.

(** With equal dimensions the TP-and-unital branch does nothing: the sampled
    matrix comes back as it was drawn. *)
Example random_CP_map_TP_unital_equal_dims :
  random_CP_map (backend := test_backend) 2 2 true true "choi" 0 =
  Ok (AsArray (ket0_state 4), 1).
Proof. reflexivity. Qed.

(** ** Inputs on which the theorems apply *)

Lemma partial_application_consistency_witness :
  1 <= 2 /\
  Forall (is_matrix 3 2) qutrit_map /\
  is_matrix (2 * 2) (2 * 2) rho_two_qubits /\
  exists out,
    apply_channel qutrit_map rho_two_qubits (Some [2]) (Some [2; 2]) false = Ok out /\
    (TK <- tensor_channels [[eye 2]; qutrit_map] ;;
     apply_channel TK rho_two_qubits None None false) = Ok out.
Proof.
  assert (H1 : 1 <= 2) by lia.
  assert (H2 : Forall (is_matrix 3 2) qutrit_map)
    by (repeat constructor).
  assert (H3 : is_matrix (2 * 2) (2 * 2) rho_two_qubits)
    by (split; reflexivity).
  repeat split; try assumption.
  exact (partial_application_consistency 2 3 qutrit_map rho_two_qubits H1 H2 H3).
Defined.

Lemma choi_to_natural_agrees_witness :
  qutrit_map <> [] /\
  Forall (is_matrix 3 2) qutrit_map /\
  exists N,
    (J <- choi_representation qutrit_map 2 ;; choi_to_natural J 2 3) = Ok N /\
    natural_representation qutrit_map = Ok N.
Proof.
  assert (H1 : qutrit_map <> []) by discriminate.
  assert (H2 : Forall (is_matrix 3 2) qutrit_map) by (repeat constructor).
  repeat split; try assumption.
  exact (choi_to_natural_agrees 2 3 qutrit_map H1 H2).
Defined.

Lemma compose_channels_products_witness :
  [reset_channel; [reset_K1]] <> [] /\
  hd [] [reset_channel; [reset_K1]] <> [] /\
  Forall (Forall (is_matrix 2 2)) [reset_channel; [reset_K1]] /\
  let Cs := [reset_channel; [reset_K1]] in
  let combs := product (map range (map (@length ndarray) Cs)) in
  compose_channels Cs = Ok (map (fun comb => composite (choose Cs comb)) combs) /\
  length combs = fold_right Nat.mul 1 (map (@length ndarray) Cs) /\
  (forall comb, In comb combs <-> Forall2 (fun i K => i < length K) comb Cs).
Proof.
  assert (H1 : [reset_channel; [reset_K1]] <> []) by discriminate.
  assert (H2 : hd [] [reset_channel; [reset_K1]] <> []) by discriminate.
  assert (H3 : Forall (Forall (is_matrix 2 2)) [reset_channel; [reset_K1]])
    by (repeat constructor).
  split; [exact H1|]. split; [exact H2|]. split; [exact H3|].
  exact (compose_channels_products 2 [reset_channel; [reset_K1]] H1 H2 H3).
Defined.

Lemma n_channel_uses_cardinality_witness :
  Forall (is_matrix 3 2) qutrit_map /\
  1 <= 2 /\
  exists K_n,
    n_channel_uses qutrit_map 2 = Ok K_n /\
    length K_n = length qutrit_map ^ 2 /\
    Forall (is_matrix (3 ^ 2) (2 ^ 2)) K_n.
Proof.
  assert (H1 : Forall (is_matrix 3 2) qutrit_map) by (repeat constructor).
  assert (H2 : 1 <= 2) by lia.
  split; [exact H1|]. split; [exact H2|].
  exact (n_channel_uses_cardinality 2 3 2 qutrit_map H1 H2).
Defined.

Lemma random_CP_map_TP_unital_mismatch_witness :
  2 <> 3 /\
  random_density_matrix (Backend := test_backend) (2 * 3) 0 =
    Ok (ket0_state 6, 1) /\
  random_CP_map (backend := test_backend) 2 3 true true "kraus" 0 =
    Ok (AsString TP_unital_message, 1).
Proof.
  assert (H1 : 2 <> 3) by lia.
  assert (H2 : random_density_matrix (Backend := test_backend) (2 * 3) 0 =
               Ok (ket0_state 6, 1)) by reflexivity.
  split; [exact H1|]. split; [exact H2|].
  exact (random_CP_map_TP_unital_mismatch (backend := test_backend)
           2 3 "kraus" 0 1 (ket0_state 6) H1 H2).
Defined.

Lemma random_POVM_pgm_returns_empty_witness :
  1 <= 1 /\
  1 <= 1 /\
  sample_states (backend := test_backend) 1 1 0 = Ok ([ket0_state 1], 1) /\
  Forall (is_matrix 1 1) [ket0_state 1] /\
  (forall R, np_sum0 [ket0_state 1] = Ok R ->
     exists s Ri, sqrtm (Backend := test_backend) R = Ok s /\
                  inv (Backend := test_backend) s = Ok Ri /\
                  is_matrix 1 1 Ri) /\
  random_POVM (backend := test_backend) 1 1 false 0 = Ok ([], 1).
Proof.
  assert (H1 : 1 <= 1) by lia.
  assert (H2 : sample_states (backend := test_backend) 1 1 0 =
               Ok ([ket0_state 1], 1)) by reflexivity.
  assert (H3 : Forall (is_matrix 1 1) [ket0_state 1]) by (repeat constructor).
  assert (H4 : forall R, np_sum0 [ket0_state 1] = Ok R ->
     exists s Ri, sqrtm (Backend := test_backend) R = Ok s /\
                  inv (Backend := test_backend) s = Ok Ri /\
                  is_matrix 1 1 Ri).
  { intros R HR. apply Ok_inj in HR. subst R.
    exists (ket0_state 1), (ket0_state 1). repeat split. }
  split; [exact H1|]. split; [exact H1|]. split; [exact H2|].
  split; [exact H3|]. split; [exact H4|].
  exact (random_POVM_pgm_returns_empty (backend := test_backend)
           1 1 0 1 [ket0_state 1] H1 H1 H2 H3 H4).
Defined.

(** ** Inputs on which the specification, as written, does not hold *)

(** C3 as stated, at the empty Kraus list with [dA = dB = 2]: the Choi route
    raises, the direct route returns the number [0.0]. *)
Lemma choi_to_natural_empty_kraus :
  Forall (is_matrix 2 2) (@nil (@ndarray GaussInt)) /\
  (J <- choi_representation (@nil (@ndarray GaussInt)) 2 ;;
   choi_to_natural J 2 2) = Raise ValueError /\
  natural_representation (@nil (@ndarray GaussInt)) = Ok (scalar C0).
Proof.
  split; [constructor|]. split; reflexivity.
Qed.

(** C5 as stated, at the list made of one empty Kraus list: no list of
    operators is returned. *)
Lemma compose_channels_empty_first :
  [@nil (@ndarray GaussInt)] <> [] /\
  Forall (Forall (is_matrix 2 2)) [@nil (@ndarray GaussInt)] /\
  compose_channels [@nil (@ndarray GaussInt)] = Raise IndexError.
Proof.
  split; [discriminate|]. split; [repeat constructor|reflexivity].
Qed.

(** C7 as stated, at a Hermitian qubit matrix: a number is returned and
    nothing is raised. *)
Lemma apply_channel_empty_returns_zero :
  apply_channel [] rho_qubit None None false = Ok (scalar C0).
Proof.
  reflexivity.
Qed.

(** C8 as stated, at [dA = 2], [dB = 3]: a string is returned and nothing is
    raised. *)
Lemma random_CP_map_mismatch_returns_string :
  random_CP_map (backend := test_backend) 2 3 true true "choi" 0 =
  Ok (AsString "Input and output dimensions must match for a TP and unital CP map!", 1).
Proof.
  reflexivity.
Qed.

(** ** Inputs on which the further properties apply *)

#[local] Existing Instance gauss_numbers.

Lemma gauss_conj_involutive (x : @C GaussInt) : Cconj (Cconj x) = x.
Proof.
  destruct x as [a b]. cbn. unfold gauss_conj. cbn [fst snd].
  rewrite Z.opp_involutive. reflexivity.
Qed.

Lemma apply_channel_no_subsystem_witness :
  [2; 2] <> [] /\
  is_matrix (size_of [2; 2]) (size_of [2; 2]) rho_two_qubits /\
  apply_channel reset_channel rho_two_qubits (Some []) (Some [2; 2]) true =
    Ok rho_two_qubits.
Proof.
  assert (H1 : [2; 2] <> []) by discriminate.
  assert (H2 : is_matrix (size_of [2; 2]) (size_of [2; 2]) rho_two_qubits)
    by (split; reflexivity).
  split; [exact H1|]. split; [exact H2|].
  exact (apply_channel_no_subsystem reset_channel rho_two_qubits [2; 2] true
           H1 H2).
Defined.

Lemma apply_channel_dimension_mismatch_witness :
  In qutrit_K1 qutrit_map /\
  shape qutrit_K1 = [3; 2] /\
  shape rho_two_qubits = [4; 4] /\
  2 <> 4 /\
  apply_channel qutrit_map rho_two_qubits None None false = Raise ValueError.
Proof.
  assert (H1 : In qutrit_K1 qutrit_map) by (right; left; reflexivity).
  assert (H2 : shape qutrit_K1 = [3; 2]) by reflexivity.
  assert (H3 : shape rho_two_qubits = [4; 4]) by reflexivity.
  assert (H4 : 2 <> 4) by lia.
  split; [exact H1|]. split; [exact H2|]. split; [exact H3|].
  split; [exact H4|].
  exact (apply_channel_dimension_mismatch qutrit_map qutrit_K1 rho_two_qubits
           3 2 4 4 H1 H2 H3 H4).
Defined.

Lemma choi_representation_hermitian_witness :
  (forall x : @C GaussInt, Cconj (Cconj x) = x) /\
  qutrit_map <> [] /\
  Forall (is_matrix 3 2) qutrit_map /\
  exists J,
    choi_representation qutrit_map 2 = Ok J /\
    is_matrix (2 * 3) (2 * 3) J /\
    dag J = J.
Proof.
  assert (H2 : qutrit_map <> []) by discriminate.
  assert (H3 : Forall (is_matrix 3 2) qutrit_map) by (repeat constructor).
  split; [exact gauss_conj_involutive|]. split; [exact H2|].
  split; [exact H3|].
  exact (choi_representation_hermitian 2 3 qutrit_map
           gauss_conj_involutive H2 H3).
Defined.

Lemma adjoint_of_trace_preserving_is_unital_witness :
  (forall x : @C GaussInt, Cconj (Cconj x) = x) /\
  Forall (is_matrix 2 2) reset_channel /\
  (terms <- mapM (fun k => matmul (dag k) k) reset_channel ;; np_sum0 terms) =
    Ok (eye 2) /\
  apply_channel reset_channel (eye 2) None None true = Ok (eye 2).
Proof.
  assert (H2 : Forall (is_matrix 2 2) reset_channel) by (repeat constructor).
  assert (H3 : (terms <- mapM (fun k => matmul (dag k) k) reset_channel ;;
                np_sum0 terms) = Ok (eye 2)) by reflexivity.
  split; [exact gauss_conj_involutive|]. split; [exact H2|].
  split; [exact H3|].
  exact (adjoint_of_trace_preserving_is_unital 2 2 reset_channel
           gauss_conj_involutive H2 H3).
Defined.

Lemma random_CP_map_unknown_format_witness :
  "operator"%string <> "kraus"%string /\
  "operator"%string <> "natural"%string /\
  "operator"%string <> "stinespring"%string /\
  random_CP_map (backend := test_backend) 2 2 false false "operator" 0 =
  random_CP_map (backend := test_backend) 2 2 false false "choi" 0.
Proof.
  assert (H1 : "operator"%string <> "kraus"%string) by discriminate.
  assert (H2 : "operator"%string <> "natural"%string) by discriminate.
  assert (H3 : "operator"%string <> "stinespring"%string) by discriminate.
  split; [exact H1|]. split; [exact H2|]. split; [exact H3|].
  exact (random_CP_map_unknown_format (backend := test_backend)
           2 2 false false "operator" 0 H1 H2 H3).
Defined.

Lemma amplitude_damping_channel_trace_preserving_witness :
  Cmul (Csqrt (gauss 1 0)) (Cconj (Csqrt (gauss 1 0))) = gauss 1 0 /\
  Cmul (Csqrt (Csub (Numbers := gauss_numbers) C1 (gauss 1 0)))
       (Cconj (Csqrt (Csub (Numbers := gauss_numbers) C1 (gauss 1 0)))) =
    Csub (Numbers := gauss_numbers) C1 (gauss 1 0) /\
  kraus_sum (amplitude_damping_channel (numbers := gauss_numbers) (gauss 1 0)) =
    Ok (eye 2).
Proof.
  assert (H1 : Cmul (Csqrt (gauss 1 0)) (Cconj (Csqrt (gauss 1 0))) =
               gauss 1 0) by reflexivity.
  assert (H2 : Cmul (Csqrt (Csub (Numbers := gauss_numbers) C1 (gauss 1 0)))
                 (Cconj (Csqrt (Csub (Numbers := gauss_numbers) C1 (gauss 1 0)))) =
               Csub (Numbers := gauss_numbers) C1 (gauss 1 0)) by reflexivity.
  split; [exact H1|]. split; [exact H2|].
  exact (amplitude_damping_channel_trace_preserving (numbers := gauss_numbers)
           (gauss 1 0) H1 H2).
Defined.


Lemma random_POVM_via_choi_blocks_witness :
  random_quantum_channel (backend := rat_backend) 2 2 false "choi"
                         [two_qubit_state] =
    Ok (AsArray two_qubit_choi, []) /\
  is_matrix (2 * 2) (2 * 2) two_qubit_choi /\
  random_POVM (backend := rat_backend) 2 2 true [two_qubit_state] =
    Ok (map (fun i => mat 2 2 (fun a a' =>
                        get two_qubit_choi (a * 2 + i) (a' * 2 + i)))
            (range 2), []).
Proof.
  assert (H1 : random_quantum_channel (backend := rat_backend)
                 2 2 false "choi" [two_qubit_state] =
               Ok (AsArray two_qubit_choi, []))
    by (apply rat_choi_run; reflexivity).
  assert (H2 : is_matrix (2 * 2) (2 * 2) two_qubit_choi)
    by (split; reflexivity).
  split; [exact H1|]. split; [exact H2|].
  exact (random_POVM_via_choi_blocks (backend := rat_backend)
           2 2 [two_qubit_state] [] two_qubit_choi H1 H2).
Defined.

Lemma phase_damping_channel_trace_preserving_witness :
  Cmul (Csqrt (rat 9 25)) (Cconj (Csqrt (rat 9 25))) = rat 9 25 /\
  Cmul (Csqrt (Csub (Numbers := rat_numbers) C1 (rat 9 25)))
       (Cconj (Csqrt (Csub (Numbers := rat_numbers) C1 (rat 9 25)))) =
    Csub (Numbers := rat_numbers) C1 (rat 9 25) /\
  kraus_sum (phase_damping_channel (numbers := rat_numbers) (rat 9 25)) =
    Ok (eye 2).
Proof.
  assert (H1 : Cmul (Csqrt (rat 9 25)) (Cconj (Csqrt (rat 9 25))) = rat 9 25)
    by (apply rat_eqb_eq; reflexivity).
  assert (H2 : Cmul (Csqrt (Csub (Numbers := rat_numbers) C1 (rat 9 25)))
                 (Cconj (Csqrt (Csub (Numbers := rat_numbers) C1 (rat 9 25)))) =
               Csub (Numbers := rat_numbers) C1 (rat 9 25))
    by (apply rat_eqb_eq; reflexivity).
  split; [exact H1|]. split; [exact H2|].
  exact (phase_damping_channel_trace_preserving (numbers := rat_numbers)
           (rat 9 25) H1 H2).
Defined.

Lemma generalized_amplitude_damping_one_trace_preserving_witness :
  (C1 : @C GaussRat) <> C0 /\
  Cmul (Csqrt (rat 9 25)) (Cconj (Csqrt (rat 9 25))) = rat 9 25 /\
  Cmul (Csqrt (Csub (Numbers := rat_numbers) C1 (rat 9 25)))
       (Cconj (Csqrt (Csub (Numbers := rat_numbers) C1 (rat 9 25)))) =
    Csub (Numbers := rat_numbers) C1 (rat 9 25) /\
  generalized_amplitude_damping_channel (numbers := rat_numbers)
      (rat 9 25) C1 =
    [matrix2 (Csqrt (Csub (Numbers := rat_numbers) C1 (rat 9 25))) C0 C0 C1;
     matrix2 C0 C0 (Csqrt (rat 9 25)) C0] /\
  kraus_sum (generalized_amplitude_damping_channel (numbers := rat_numbers)
               (rat 9 25) C1) =
    Ok (eye 2).
Proof.
  assert (H0 : (C1 : @C GaussRat) <> C0) by discriminate.
  assert (H1 : Cmul (Csqrt (rat 9 25)) (Cconj (Csqrt (rat 9 25))) = rat 9 25)
    by (apply rat_eqb_eq; reflexivity).
  assert (H2 : Cmul (Csqrt (Csub (Numbers := rat_numbers) C1 (rat 9 25)))
                 (Cconj (Csqrt (Csub (Numbers := rat_numbers) C1 (rat 9 25)))) =
               Csub (Numbers := rat_numbers) C1 (rat 9 25))
    by (apply rat_eqb_eq; reflexivity).
  split; [exact H0|]. split; [exact H1|]. split; [exact H2|].
  exact (generalized_amplitude_damping_one_trace_preserving
           (numbers := rat_numbers) (rat 9 25) H0 H1 H2).
Defined.

Lemma generate_channel_isometry_rectangular_witness :
  2 <> 3 /\
  qutrit_rat_map <> [] /\
  Forall (is_matrix 3 2) qutrit_rat_map /\
  exists V,
    generate_channel_isometry (isometry_backend := rat_isometry_backend)
      qutrit_rat_map 2 3 [] = Ok (IsoV V, []) /\
    is_matrix (3 * length qutrit_rat_map) 2 V /\
    forall b e a, b < 3 -> e < length qutrit_rat_map -> a < 2 ->
      get V (b * length qutrit_rat_map + e) a =
      get (nth e qutrit_rat_map (scalar C0)) b a.
Proof.
  assert (H1 : 2 <> 3) by lia.
  assert (H2 : qutrit_rat_map <> []) by discriminate.
  assert (H3 : Forall (is_matrix 3 2) qutrit_rat_map) by (repeat constructor).
  split; [exact H1|]. split; [exact H2|]. split; [exact H3|].
  exact (generate_channel_isometry_rectangular
           (numbers := rat_numbers)
           (isometry_backend := rat_isometry_backend)
           2 3 qutrit_rat_map [] H1 H2 H3).
Defined.

Lemma generate_channel_isometry_square_rows_witness :
  bit_flip_K <> [] /\
  Forall (is_matrix 2 2) bit_flip_K /\
  generate_channel_isometry (isometry_backend := rat_isometry_backend)
      bit_flip_K 2 2 bit_flip_tape =
    Ok (IsoVU bit_flip_V bit_flip_U, []) /\
  exists V U,
    IsoVU bit_flip_V bit_flip_U = IsoVU V U /\
    is_matrix (2 * length bit_flip_K) 2 V /\
    forall b e a, b < 2 -> e < length bit_flip_K -> a < 2 ->
      get V (b * length bit_flip_K + e) a =
      get (nth e bit_flip_K (scalar C0)) b a.
Proof.
  assert (H1 : bit_flip_K <> []) by discriminate.
  assert (H2 : Forall (is_matrix 2 2) bit_flip_K) by (repeat constructor).
  assert (H3 : generate_channel_isometry
                 (isometry_backend := rat_isometry_backend)
                 bit_flip_K 2 2 bit_flip_tape =
               Ok (IsoVU bit_flip_V bit_flip_U, []))
    by (apply rat_isometry_run; reflexivity).
  split; [exact H1|]. split; [exact H2|]. split; [exact H3|].
  exact (generate_channel_isometry_square_rows (numbers := rat_numbers)
           (isometry_backend := rat_isometry_backend)
           2 bit_flip_K bit_flip_tape [] (IsoVU bit_flip_V bit_flip_U)
           H1 H2 H3).
Defined.

Lemma bit_flip_channel_action_witness :
  let p := rat 9 25 in
  let s := Csqrt (Csub (Numbers := rat_numbers) C1 p) in
  let t := Csqrt p in
  let a := rat 1 3 in
  let b := rat 1 5 in
  let c := rat 1 7 in
  let d := rat 2 3 in
  bit_flip_channel (numbers := rat_numbers)
                   (isometry_backend := rat_isometry_backend)
                   p bit_flip_tape =
    Ok ((bit_flip_K, bit_flip_V, bit_flip_U), []) /\
  Csqrt C0 = (C0 : @C GaussRat) /\
  apply_channel bit_flip_K (matrix2 a b c d) None None false =
  Ok (matrix2
        (Cadd (Cmul (Cmul s a) (Cconj s)) (Cmul (Cmul t d) (Cconj t)))
        (Cadd (Cmul (Cmul s b) (Cconj s)) (Cmul (Cmul t c) (Cconj t)))
        (Cadd (Cmul (Cmul s c) (Cconj s)) (Cmul (Cmul t b) (Cconj t)))
        (Cadd (Cmul (Cmul s d) (Cconj s)) (Cmul (Cmul t a) (Cconj t)))).
Proof.
  intros p s t a b c d.
  assert (H : bit_flip_channel (numbers := rat_numbers)
                (isometry_backend := rat_isometry_backend)
                p bit_flip_tape =
              Ok ((bit_flip_K, bit_flip_V, bit_flip_U), []))
    by (apply rat_triple_run; reflexivity).
  assert (H0 : Csqrt C0 = (C0 : @C GaussRat))
    by (apply rat_eqb_eq; reflexivity).
  split; [exact H|]. split; [exact H0|].
  exact (bit_flip_channel_action (numbers := rat_numbers)
           (isometry_backend := rat_isometry_backend)
           p a b c d bit_flip_tape []
           bit_flip_K bit_flip_V bit_flip_U H H0).
Defined.

Lemma dephasing_channel_qubit_action_witness :
  let p := rat 9 25 in
  let s := Csqrt (Csub (Numbers := rat_numbers) C1 p) in
  let t := Csqrt p in
  let a := rat 1 3 in
  let b := rat 1 5 in
  let c := rat 1 7 in
  let d := rat 2 3 in
  dephasing_channel (numbers := rat_numbers)
                    (isometry_backend := rat_isometry_backend)
                    (inl p) 2 dephasing_tape =
    Ok (DephasingTriple (dephasing_K, dephasing_V, dephasing_U), []) /\
  Csqrt C0 = (C0 : @C GaussRat) /\
  apply_channel dephasing_K (matrix2 a b c d) None None false =
  Ok (matrix2
        (Cadd (Cmul (Cmul s a) (Cconj s)) (Cmul (Cmul t a) (Cconj t)))
        (Csub (Numbers := rat_numbers)
              (Cmul (Cmul s b) (Cconj s)) (Cmul (Cmul t b) (Cconj t)))
        (Csub (Numbers := rat_numbers)
              (Cmul (Cmul s c) (Cconj s)) (Cmul (Cmul t c) (Cconj t)))
        (Cadd (Cmul (Cmul s d) (Cconj s)) (Cmul (Cmul t d) (Cconj t)))).
Proof.
  intros p s t a b c d.
  assert (H : dephasing_channel (numbers := rat_numbers)
                (isometry_backend := rat_isometry_backend)
                (inl p) 2 dephasing_tape =
              Ok (DephasingTriple (dephasing_K, dephasing_V, dephasing_U), []))
    by (apply rat_dephasing_run; reflexivity).
  assert (H0 : Csqrt C0 = (C0 : @C GaussRat))
    by (apply rat_eqb_eq; reflexivity).
  split; [exact H|]. split; [exact H0|].
  exact (dephasing_channel_qubit_action (numbers := rat_numbers)
           (isometry_backend := rat_isometry_backend)
           p a b c d dephasing_tape []
           dephasing_K dephasing_V dephasing_U H H0).
Defined.
